(** * open-wispr: the dictation pipeline, embedded and verified

    A shallow embedding of the parts of the application that carry its
    behavioural contract:

    - [Wav]: [convertToWav] and the [DataView] stores it performs
      (hooks/useRecording);
    - [PostProcessing]: [postProcessTranscription] (services/postProcessing);
    - [Detector]: [detectWordCorrection] (components/Overlay);
    - [WordStats]: the [add-words] and [get-word-stats] IPC handlers
      (electron main process);
    - [Overlay]: the [onstop] handler of [RecordingOverlay];
    - [Hook]: the [onstop] handler of [useRecording];
    - [Recorder]: the [ondataavailable] handler that fills the buffer
      of the overlay;
    - [Main]: the history, dictionary and settings IPC handlers
      (electron main process);
    - [Hotkey]: the polls that watch for the release of the
      push-to-talk hotkey ([registerHotkeys]);
    - [Substitution]: the dictionary substitution of the
      post-processor, as the specification describes it (the revision
      of services/postProcessing that performs it is not part of the
      sources).

    Definitions come first, the theorems about them follow. *)

From Stdlib Require Import ZArith QArith List Lia String Ascii Bool
  DecimalString.
From Stdlib Require DecimalZ DecimalPos.
From stdpp Require Import gmap strings list.
Import ListNotations.
Local Open Scope Z_scope.

(** ** JavaScript strings

    A JavaScript string is a sequence of UTF-16 code units. *)

Definition JsString := list Z.

(** A literal of the source, all of whose characters are ASCII. *)
Definition js (s : string) : JsString :=
  List.map (fun a => Z.of_N (N_of_ascii a)) (list_ascii_of_string s).

Definition JsString_eqb (a b : JsString) : bool := bool_decide (a = b).

(** The class [\s] of a regular expression, which is also the set of
    code units [String.prototype.trim] strips: WhiteSpace and
    LineTerminator of ECMAScript. *)
Definition isWhiteSpace (c : Z) : bool :=
  (9 <=? c) && (c <=? 13)
  || (c =? 32) || (c =? 160) || (c =? 5760)
  || (8192 <=? c) && (c <=? 8202)
  || (c =? 8232) || (c =? 8233) || (c =? 8239) || (c =? 8287)
  || (c =? 12288) || (c =? 65279).

Fixpoint trimStart (s : JsString) : JsString :=
  match s with
  | c :: s' => if isWhiteSpace c then trimStart s' else s
  | [] => []
  end.

Definition trimEnd (s : JsString) : JsString := rev (trimStart (rev s)).

Definition trim (s : JsString) : JsString := trimEnd (trimStart s).

(** [s.split(/\s+/)]: [cur] is the piece being read (reversed), [inGap]
    tells that the previous code unit belonged to a separator. *)
Fixpoint splitWhiteSpace (cur : JsString) (inGap : bool) (s : JsString)
  : list JsString :=
  match s with
  | [] => [rev cur]
  | c :: s' =>
      if isWhiteSpace c
      then (if inGap then splitWhiteSpace [] true s'
            else rev cur :: splitWhiteSpace [] true s')
      else splitWhiteSpace (c :: cur) false s'
  end.

Definition split_ws (s : JsString) : list JsString :=
  splitWhiteSpace [] false s.

(** [xs.join(sep)] *)
Fixpoint join (sep : JsString) (xs : list JsString) : JsString :=
  match xs with
  | [] => []
  | [x] => x
  | x :: rest => x ++ sep ++ join sep rest
  end.

(** Truthiness of a string: the empty string is falsy. *)
Definition truthy (s : JsString) : bool :=
  match s with [] => false | _ => true end.

(** A thrown value, of which the handlers read [message] only. *)
Record Exn := { message : option JsString }.

Definition Error (msg : string) : Exn := {| message := Some (js msg) |}.

(** A [Blob]: its bytes and its mime type. *)
Record Blob := { blobBytes : list Z; blobType : JsString }.

Definition blobSize (b : Blob) : nat := length (blobBytes b).

(** [new Blob(chunks, { type })] *)
Definition new_Blob (parts : list Blob) (type : JsString) : Blob :=
  {| blobBytes := List.concat (List.map blobBytes parts); blobType := type |}.

(** ** convertToWav *)

Module Wav.

(** A JavaScript number. The samples of a decoded buffer are 32-bit
    floats, so that a finite sample is a dyadic rational with a 24-bit
    significand; its products with [0x8000] and [0x7fff] are exact in
    double precision, and the arithmetic of [convertToWav] on finite
    values is the arithmetic of [Q]. Negative zero is identified with
    zero: both are stored as 0. *)
Inductive Number :=
| NaN
| Infinity (negative : bool)
| Finite (q : Q).

Definition Qlt_bool (p q : Q) : bool := negb (Qle_bool q p).

Definition Math_min (a b : Number) : Number :=
  match a, b with
  | NaN, _ | _, NaN => NaN
  | Infinity true, _ | _, Infinity true => Infinity true
  | Infinity false, y => y
  | x, Infinity false => x
  | Finite p, Finite q => if Qle_bool p q then a else b
  end.

Definition Math_max (a b : Number) : Number :=
  match a, b with
  | NaN, _ | _, NaN => NaN
  | Infinity false, _ | _, Infinity false => Infinity false
  | Infinity true, y => y
  | x, Infinity true => x
  | Finite p, Finite q => if Qle_bool q p then a else b
  end.

(** [a < b] *)
Definition lt (a b : Number) : bool :=
  match a, b with
  | NaN, _ | _, NaN => false
  | Infinity n, Infinity m => n && negb m
  | Infinity n, Finite _ => n
  | Finite _, Infinity m => negb m
  | Finite p, Finite q => Qlt_bool p q
  end.

Definition Qsign_neg (q : Q) : bool := Qlt_bool q 0.

(** [a * b] *)
Definition mul (a b : Number) : Number :=
  match a, b with
  | NaN, _ | _, NaN => NaN
  | Infinity n, Infinity m => Infinity (xorb n m)
  | Infinity n, Finite q | Finite q, Infinity n =>
      if Qeq_bool q 0 then NaN else Infinity (xorb n (Qsign_neg q))
  | Finite p, Finite q => Finite (p * q)
  end.

(** Rounding towards zero. *)
Definition truncate (q : Q) : Z := Z.quot (Qnum q) (Z.pos (Qden q)).

(** ToInt16 of ECMAScript: what [setInt16] does to its argument. *)
Definition ToInt16 (x : Number) : Z :=
  match x with
  | Finite q =>
      let int16bit := truncate q mod 65536 in
      if 32768 <=? int16bit then int16bit - 65536 else int16bit
  | _ => 0
  end.

(** *** DataView over an ArrayBuffer *)

Definition ArrayBuffer := list Z.

Definition new_ArrayBuffer (byteLength : nat) : ArrayBuffer :=
  repeat 0 byteLength.

(** The [width] low bytes of [v], least significant first: the two's
    complement representation of [v] modulo [256 ^ width]. *)
Definition bytesLE (width : nat) (v : Z) : list Z :=
  List.map (fun i => (v / 256 ^ Z.of_nat i) mod 256) (seq 0 width).

Definition bytesOf (width : nat) (v : Z) (littleEndian : bool) : list Z :=
  if littleEndian then bytesLE width v else rev (bytesLE width v).

(** A store of [bs] at [byteOffset]; [None] is the RangeError of a
    store that does not fit. *)
Definition store (view : ArrayBuffer) (byteOffset : nat) (bs : list Z)
  : option ArrayBuffer :=
  if (byteOffset + length bs <=? length view)%nat
  then Some (firstn byteOffset view ++ bs
             ++ skipn (byteOffset + length bs) view)
  else None.

Definition setUint8 (view : ArrayBuffer) (byteOffset : nat) (value : Z) :=
  store view byteOffset (bytesLE 1 value).

Definition setUint16 (view : ArrayBuffer) (byteOffset : nat) (value : Z)
  (littleEndian : bool) :=
  store view byteOffset (bytesOf 2 value littleEndian).

Definition setUint32 (view : ArrayBuffer) (byteOffset : nat) (value : Z)
  (littleEndian : bool) :=
  store view byteOffset (bytesOf 4 value littleEndian).

Definition setInt16 (view : ArrayBuffer) (byteOffset : nat) (value : Number)
  (littleEndian : bool) :=
  store view byteOffset (bytesOf 2 (ToInt16 value) littleEndian).

(** The little-endian getters, used to read a header back. *)
Definition load (view : ArrayBuffer) (byteOffset width : nat)
  : option (list Z) :=
  if (byteOffset + width <=? length view)%nat
  then Some (firstn width (skipn byteOffset view))
  else None.

Definition valueLE (bs : list Z) : Z :=
  fold_right (fun b acc => b + 256 * acc) 0 bs.

Definition getUint8 (view : ArrayBuffer) (byteOffset : nat) : option Z :=
  valueLE <$> load view byteOffset 1.

Definition getUint16 (view : ArrayBuffer) (byteOffset : nat) : option Z :=
  valueLE <$> load view byteOffset 2.

Definition getUint32 (view : ArrayBuffer) (byteOffset : nat) : option Z :=
  valueLE <$> load view byteOffset 4.

Definition getInt16 (view : ArrayBuffer) (byteOffset : nat) : option Z :=
  (fun u => if 32768 <=? u then u - 65536 else u)
    <$> getUint16 view byteOffset.

(** [writeString(view, offset, string)] *)
Fixpoint writeString (view : ArrayBuffer) (offset : nat) (string : JsString)
  : option ArrayBuffer :=
  match string with
  | [] => Some view
  | c :: rest =>
      view' ← setUint8 view offset c;
      writeString view' (S offset) rest
  end.

(** The body of the sample loop. *)
Definition clamp (x : Number) : Number :=
  Math_max (Finite (-1)) (Math_min (Finite 1) x).

Definition scale (sample : Number) : Number :=
  if lt sample (Finite 0)
  then mul sample (Finite 32768)
  else mul sample (Finite 32767).

(** The 16-bit integer stored for the sample [x]. *)
Definition pcm16 (x : Number) : Z := ToInt16 (scale (clamp x)).

(** [for (let i = 0; i < length; i++) { ...; offset += 2 }] *)
Fixpoint writeSamples (view : ArrayBuffer) (offset : nat)
  (channelData : list Number) : option ArrayBuffer :=
  match channelData with
  | [] => Some view
  | x :: rest =>
      let sample := clamp x in
      view' ← setInt16 view offset (scale sample) true;
      writeSamples view' (offset + 2) rest
  end.

(** A decoded [AudioBuffer]: the samples of channel 0; [length] is
    their number. *)
Definition AudioBuffer := list Number.

(** The [try] block of [convertToWav], from the decoded buffer on. *)
Definition encode (audioBuffer : AudioBuffer) : option Blob :=
  let numberOfChannels := 1 in
  let sampleRate := 16000 in
  let length := List.length audioBuffer in
  let view := new_ArrayBuffer (44 + length * 2) in
  view ← writeString view 0 (js "RIFF");
  view ← setUint32 view 4 (36 + Z.of_nat length * 2) true;
  view ← writeString view 8 (js "WAVE");
  view ← writeString view 12 (js "fmt ");
  view ← setUint32 view 16 16 true;
  view ← setUint16 view 20 1 true;
  view ← setUint16 view 22 numberOfChannels true;
  view ← setUint32 view 24 sampleRate true;
  view ← setUint32 view 28 (sampleRate * numberOfChannels * 2) true;
  view ← setUint16 view 32 (numberOfChannels * 2) true;
  view ← setUint16 view 34 16 true;
  view ← writeString view 36 (js "data");
  view ← setUint32 view 40 (Z.of_nat length * 2) true;
  let channelData := audioBuffer in
  view ← writeSamples view 44 channelData;
  Some {| blobBytes := view; blobType := js "audio/wav" |}.

(** What happens to the [AudioContext] of one call. *)
Inductive ContextEvent := ContextCreated | ContextClosed.

(** [convertToWav(blob)]: the decoder is the platform's; it rejects
    what it cannot decode. The [finally] block closes the context
    whether or not the [try] block threw. *)
Definition convertToWav (decodeAudioData : list Z -> Exn + AudioBuffer)
  (blob : Blob) : (Exn + Blob) * list ContextEvent :=
  let arrayBuffer := blobBytes blob in
  let result :=
    match decodeAudioData arrayBuffer with
    | inl e => inl e
    | inr audioBuffer =>
        match encode audioBuffer with
        | Some wav => inr wav
        | None => inl (Error "Offset is outside the bounds of the DataView")
        end
    end in
  (result, [ContextCreated; ContextClosed]).

(** A clip and a decoder that finds three samples in it. *)
Definition demoClip : Blob :=
  {| blobBytes := [26; 69; 223; 163]; blobType := js "audio/webm" |}.

Definition demoDecoder (bytes : list Z) : Exn + AudioBuffer :=
  inr [Finite 1; Finite (-1 # 2); NaN].

End Wav.

(** ** The dictionary *)

Module Dictionary.

Record DictionaryEntry := {
  id : JsString;
  original : JsString;
  corrected : JsString;
  caseSensitive : bool;
  enabled : bool;
  createdAt : Z
}.

(** An enabled entry, for examples. *)
Definition entry (original corrected : string) : DictionaryEntry :=
  {| id := js "1"; original := js original; corrected := js corrected;
     caseSensitive := false; enabled := true; createdAt := 0 |}.

End Dictionary.

(** ** postProcessTranscription *)

Module PostProcessing.

(** The interface as it is declared. *)
Record PostProcessingOptions := {
  removeFillerWords : bool;
  removeFalseStarts : bool;
  fixPunctuation : bool;
  fixCapitalization : bool;
  fixGrammar : bool;
  smartFormatting : bool
}.

Definition DEFAULT_POST_PROCESSING_OPTIONS : PostProcessingOptions :=
  {| removeFillerWords := true; removeFalseStarts := true;
     fixPunctuation := true; fixCapitalization := true;
     fixGrammar := false; smartFormatting := false |}.

(** The object that reaches the function. Both call sites add a
    [dictionary] property to the six declared ones; [None] is an
    object without it. *)
Record OptionsObject := {
  flags : PostProcessingOptions;
  dictionary : option (list Dictionary.DictionaryEntry)
}.

Definition declared (options : PostProcessingOptions) : OptionsObject :=
  {| flags := options; dictionary := None |}.

(** [Object.values(options)], by truthiness: an array is truthy, even
    when it is empty. *)
Definition Object_values (options : OptionsObject) : list bool :=
  [ removeFillerWords (flags options); removeFalseStarts (flags options);
    fixPunctuation (flags options); fixCapitalization (flags options);
    fixGrammar (flags options); smartFormatting (flags options) ]
  ++ match dictionary options with Some _ => [true] | None => [] end.

(** One line of the numbered list in the system prompt. *)
Inductive Instruction :=
| RemoveFillerWords
| RemoveFalseStarts
| AddPunctuation
| FixCapitalization
| FixGrammar
| FormatNumbers.

Definition instructions (options : OptionsObject) : list Instruction :=
  (if removeFillerWords (flags options) then [RemoveFillerWords] else [])
  ++ (if removeFalseStarts (flags options) then [RemoveFalseStarts] else [])
  ++ (if fixPunctuation (flags options) then [AddPunctuation] else [])
  ++ (if fixCapitalization (flags options) then [FixCapitalization] else [])
  ++ (if fixGrammar (flags options) then [FixGrammar] else [])
  ++ (if smartFormatting (flags options) then [FormatNumbers] else []).

(** The request to [chat.completions.create]. The two prompts are
    fixed text around the instruction list and around the transcript,
    so the request is recorded by these two. *)
Record ChatRequest := {
  req_apiKey : JsString;
  req_model : JsString;
  req_system : list Instruction;
  req_user : JsString;
  req_temperature : Q;
  req_max_tokens : Z
}.

(** What the remote call does: it rejects, or it answers and
    [response.choices[0]?.message?.content] is a string or is missing. *)
Inductive ChatOutcome :=
| Rejects (error : Exn)
| Responds (content : option JsString).

(** What the function does to its surroundings: the request it
    issues, and the [console.error] of its [catch] block. *)
Inductive Effect :=
| Create (request : ChatRequest)
| ConsoleError (error : Exn).

(** The result and what the call did, in order. A caller that leaves
    [options] out passes [declared DEFAULT_POST_PROCESSING_OPTIONS]. *)
Definition postProcessTranscription (create : ChatRequest -> ChatOutcome)
  (text apiKey : JsString) (options : OptionsObject)
  : JsString * list Effect :=
  if negb (existsb (fun v => v) (Object_values options))
  then (text, [])
  else
    let request :=
      {| req_apiKey := apiKey;
         req_model := js "llama-3.3-70b-versatile";
         req_system := instructions options;
         req_user := text;
         req_temperature := 1 # 10;
         req_max_tokens := 1024 |} in
    match create request with
    | Responds result =>
        (match result with
         | Some content =>
             if truthy (trim content) then trim content else text
         | None => text
         end, [Create request])
    | Rejects error => (text, [Create request; ConsoleError error])
    end.

(** The remote cleanup failed: the call rejected, the answer has no
    content, or its content trims to the empty string. *)
Definition cleanupFailed (outcome : ChatOutcome) : Prop :=
  match outcome with
  | Rejects _ => True
  | Responds None => True
  | Responds (Some content) => trim content = []
  end.

End PostProcessing.

(** ** detectWordCorrection *)

Module Detector.

Record DetectedCorrection := {
  original : JsString;
  corrected : JsString
}.

(** [text.split(/\s+/).filter(w => w.length > 0)] *)
Definition tokenize (text : JsString) : list JsString :=
  List.filter (fun w => (0 <? length w)%nat) (split_ws text).

Section Detect.

(** [String.prototype.toLowerCase] *)
Variable toLowerCase : JsString -> JsString.

(** The index loop over two word lists of equal length. *)
Fixpoint differences (originalWords editedWords : list JsString)
  : list DetectedCorrection :=
  match originalWords, editedWords with
  | o :: originalWords', e :: editedWords' =>
      if negb (JsString_eqb (toLowerCase o) (toLowerCase e))
      then {| original := o; corrected := e |}
           :: differences originalWords' editedWords'
      else differences originalWords' editedWords'
  | _, _ => []
  end.

Definition alreadyExists
  (existingDictionary : list Dictionary.DictionaryEntry)
  (original : JsString) : bool :=
  existsb (fun entry =>
             JsString_eqb (toLowerCase (Dictionary.original entry))
               (toLowerCase original))
    existingDictionary.

(** The first block: word counts are equal. [None] falls through. *)
Definition singleWordChange (originalWords editedWords : list JsString)
  (existingDictionary : list Dictionary.DictionaryEntry)
  : option DetectedCorrection :=
  if (length originalWords =? length editedWords)%nat
  then match differences originalWords editedWords with
       | [diff] =>
           if negb (alreadyExists existingDictionary (original diff))
           then Some diff else None
       | _ => None
       end
  else None.

Definition removedWords (originalWords editedWords : list JsString)
  : list JsString :=
  let editedLower : gset JsString :=
    list_to_set (List.map toLowerCase editedWords) in
  List.filter (fun w => negb (bool_decide (toLowerCase w ∈ editedLower)))
    originalWords.

Definition addedWords (originalWords editedWords : list JsString)
  : list JsString :=
  let originalLower : gset JsString :=
    list_to_set (List.map toLowerCase originalWords) in
  List.filter (fun w => negb (bool_decide (toLowerCase w ∈ originalLower)))
    editedWords.

(** The second block: word counts are at most two apart. *)
Definition phraseChange (originalWords editedWords : list JsString)
  (existingDictionary : list Dictionary.DictionaryEntry)
  : option DetectedCorrection :=
  if Z.abs (Z.of_nat (length originalWords) - Z.of_nat (length editedWords))
     <=? 2
  then
    let removed := removedWords originalWords editedWords in
    let added := addedWords originalWords editedWords in
    if (1 <=? length removed)%nat && (length added =? 1)%nat
    then
      let original := join (js " ") removed in
      match added with
      | corrected :: _ =>
          if negb (alreadyExists existingDictionary original)
             && negb (JsString_eqb (toLowerCase original)
                        (toLowerCase corrected))
          then Some {| original := original; corrected := corrected |}
          else None
      | [] => None
      end
    else None
  else None.

Definition detectWordCorrection (originalText editedText : JsString)
  (existingDictionary : list Dictionary.DictionaryEntry)
  : option DetectedCorrection :=
  if negb (truthy originalText) || negb (truthy editedText)
     || JsString_eqb originalText editedText
  then None
  else
    let originalWords := tokenize originalText in
    let editedWords := tokenize editedText in
    match singleWordChange originalWords editedWords existingDictionary with
    | Some diff => Some diff
    | None => phraseChange originalWords editedWords existingDictionary
    end.

End Detect.

(** [toLowerCase] on Basic Latin and Latin-1, where it is the shift by
    32 of the capital letters; it serves to run the detector on
    examples. *)
Definition latin1ToLowerCase (s : JsString) : JsString :=
  List.map (fun c =>
              if (65 <=? c) && (c <=? 90)
                 || (192 <=? c) && (c <=? 222) && negb (c =? 215)
              then c + 32 else c) s.

End Detector.

(** ** The word counters of the main process *)

Module WordStats.

Inductive StoreValue :=
| VString (s : string)
| VNumber (n : Z).

(** [new Date()], of which the handlers read the year and the month
    (0 to 11). *)
Record Date := { getFullYear : Z; getMonth : Z }.

Definition showZ (z : Z) : string :=
  DecimalString.NilZero.string_of_int (Z.to_int z).

(** [`${now.getFullYear()}-${now.getMonth() + 1}`] *)
Definition currentMonth (now : Date) : string :=
  (showZ (getFullYear now) +:+ "-" +:+ showZ (getMonth now + 1))%string.

(** [(store.get(key) as number) || 0]; only numbers are ever stored
    under the two counters. Word counts are naturals far below 2^53,
    where the sums of the handler are exact. *)
Definition getNumber (store : gmap string StoreValue) (key : string) : Z :=
  match store !! key with
  | Some (VNumber n) => n
  | _ => 0
  end.

(** [storedMonth !== currentMonth] *)
Definition monthChanged (store : gmap string StoreValue) (now : Date)
  : bool :=
  match store !! "wordCountMonth"%string with
  | Some (VString storedMonth) =>
      negb (String.eqb storedMonth (currentMonth now))
  | _ => true
  end.

Definition resetIfNewMonth (store : gmap string StoreValue) (now : Date)
  : gmap string StoreValue :=
  if monthChanged store now
  then <["wordsThisMonth"%string := VNumber 0]>
         (<["wordCountMonth"%string := VString (currentMonth now)]> store)
  else store.

Record WordStats := { wordsThisMonth : Z; wordsTotal : Z }.

(** [ipcMain.handle('get-word-stats', ...)] *)
Definition get_word_stats (now : Date) (store : gmap string StoreValue)
  : WordStats * gmap string StoreValue :=
  let store := resetIfNewMonth store now in
  ({| wordsThisMonth := getNumber store "wordsThisMonth";
      wordsTotal := getNumber store "wordsTotal" |}, store).

(** [ipcMain.handle('add-words', ...)] *)
Definition add_words (now : Date) (wordCount : Z)
  (store : gmap string StoreValue) : WordStats * gmap string StoreValue :=
  let store := resetIfNewMonth store now in
  let currentMonthly := getNumber store "wordsThisMonth" in
  let currentTotal := getNumber store "wordsTotal" in
  let store :=
    <["wordsThisMonth"%string := VNumber (currentMonthly + wordCount)]>
      store in
  let store :=
    <["wordsTotal"%string := VNumber (currentTotal + wordCount)]> store in
  ({| wordsThisMonth := currentMonthly + wordCount;
      wordsTotal := currentTotal + wordCount |}, store).

(** A store left in October 2026, and a day of November 2026. *)
Definition octoberStore : gmap string StoreValue :=
  <["wordsTotal"%string := VNumber 1000]>
    (<["wordsThisMonth"%string := VNumber 120]>
       (<["wordCountMonth"%string := VString "2026-10"]> ∅)).

Definition november : Date := {| getFullYear := 2026; getMonth := 10 |}.

End WordStats.

(** ** The stop handler of RecordingOverlay *)

Module Overlay.

(** The settings the handler reads. *)
Record Settings := {
  apiKey : JsString;
  aiPostProcessing : bool;
  removeFillerWords : bool;
  removeFalseStarts : bool;
  fixPunctuation : bool;
  fixGrammar : bool;
  incognitoMode : bool
}.

(** [id] is [Date.now().toString()], kept as the number it prints. *)
Record TranscriptionRecord := {
  id : Z;
  text : JsString;
  timestamp : Z;
  wordCount : Z
}.

(** What the handler does to its surroundings, in order: state
    setters of the component, calls through the preload bridge and to
    the two remote services, console output, timers. *)
Inductive Event :=
| SetIsProcessing (value : bool)
| SetError (value : option JsString)
| GetSettings
| TranscribeAudio (audioBlob : Blob) (apiKey : JsString)
| ChatCompletion (request : PostProcessing.ChatRequest)
| AddWords (wordCount : Z)
| AddToHistory (record : TranscriptionRecord)
| TypeText (text : JsString)
| ConsoleError
| ConsoleWarn
| ClearErrorAfter (ms : Z)
| RecordingStopped.

(** The refs of the component. A stream and an audio context are
    named by a number; the refs that the handler only clears are kept
    as "is set". *)
Record Refs := {
  mediaRecorderRef : bool;
  chunksRef : list Blob;
  streamRef : option nat;
  audioContextRef : option nat;
  analyserRef : bool;
  dataArrayRef : bool;
  dictionaryRef : list Dictionary.DictionaryEntry
}.

(** The devices: the streams whose tracks are live and the audio
    contexts that are open. *)
Record Devices := {
  liveStreams : gset nat;
  openContexts : gset nat
}.

Record State := {
  isProcessing : bool;
  error : option JsString;
  refs : Refs;
  devices : Devices;
  events : list Event
}.

(** The collaborators: each call either rejects or resolves.
    [Date.now()] is read twice for a history record, for its [id] and
    then for its [timestamp]. *)
Record Env := {
  getSettings : Exn + Settings;
  transcribeAudio : Blob -> JsString -> Exn + JsString;
  chatCompletion : PostProcessing.ChatRequest -> PostProcessing.ChatOutcome;
  addWords : Z -> Exn + unit;
  addToHistory : TranscriptionRecord -> Exn + unit;
  typeText : JsString -> Exn + bool;
  Date_now : Z;
  Date_now_again : Z
}.

(** A computation over the component: it returns or throws, and
    leaves a state. *)
Definition M (A : Type) : Type := State -> (Exn + A) * State.

#[export] Instance M_ret : MRet M := fun A a st => (inr a, st).

#[export] Instance M_bind : MBind M := fun A B f m st =>
  match m st with
  | (inl e, st') => (inl e, st')
  | (inr a, st') => f a st'
  end.

Definition throw {A} (e : Exn) : M A := fun st => (inl e, st).

(** [try { body } catch (err) { handler }] *)
Definition try_catch {A} (body : M A) (handler : Exn -> M A) : M A :=
  fun st =>
    match body st with
    | (inl e, st') => handler e st'
    | (inr a, st') => (inr a, st')
    end.

(** [try { body } finally { finalizer }] *)
Definition try_finally {A} (body : M A) (finalizer : M unit) : M A :=
  fun st =>
    let '(r, st') := body st in
    match finalizer st' with
    | (inl e, st'') => (inl e, st'')
    | (inr _, st'') => (r, st'')
    end.

Definition modify (f : State -> State) : M unit := fun st => (inr tt, f st).

(** The outcome of a call: the value it resolves to, or what it
    rejects with, thrown at the [await]. *)
Definition settle {A} (outcome : Exn + A) : M A := fun st => (outcome, st).

Definition emit (ev : Event) : M unit :=
  modify (fun st =>
    {| isProcessing := isProcessing st; error := error st; refs := refs st;
       devices := devices st; events := events st ++ [ev] |}).

(** A call to a collaborator and its outcome. *)
Definition await {A} (ev : Event) (outcome : Exn + A) : M A :=
  emit ev;; settle outcome.

Definition setIsProcessing (value : bool) : M unit :=
  emit (SetIsProcessing value);;
  modify (fun st =>
    {| isProcessing := value; error := error st; refs := refs st;
       devices := devices st; events := events st |}).

Definition setError (value : option JsString) : M unit :=
  emit (SetError value);;
  modify (fun st =>
    {| isProcessing := isProcessing st; error := value; refs := refs st;
       devices := devices st; events := events st |}).

Definition getRefs : M Refs := fun st => (inr (refs st), st).

(** The assignments of the [finally] block: the tracks of the stream
    are stopped, the audio context is closed, every ref is cleared. *)
Definition release : M unit :=
  modify (fun st =>
   let r := refs st in
   let d := devices st in
   {| isProcessing := isProcessing st; error := error st;
      refs := {| mediaRecorderRef := false; chunksRef := [];
                 streamRef := None; audioContextRef := None;
                 analyserRef := false; dataArrayRef := false;
                 dictionaryRef := dictionaryRef r |};
      devices :=
        {| liveStreams := match streamRef r with
                          | Some stream => liveStreams d ∖ {[stream]}
                          | None => liveStreams d
                          end;
           openContexts := match audioContextRef r with
                           | Some context => openContexts d ∖ {[context]}
                           | None => openContexts d
                           end |};
      events := events st |}).

(** [text && text.trim()] *)
Definition nonBlank (text : JsString) : bool :=
  truthy text && truthy (trim text).

(** The call of [postProcessTranscription] with the options the
    overlay builds. *)
Definition postProcess (env : Env) (settings : Settings) (text : JsString)
  : M JsString :=
  r ← getRefs;
  let '(result, effects) :=
    PostProcessing.postProcessTranscription (chatCompletion env) text
      (apiKey settings)
      {| PostProcessing.flags :=
           {| PostProcessing.removeFillerWords := removeFillerWords settings;
              PostProcessing.removeFalseStarts := removeFalseStarts settings;
              PostProcessing.fixPunctuation := fixPunctuation settings;
              PostProcessing.fixCapitalization := true;
              PostProcessing.fixGrammar := fixGrammar settings;
              PostProcessing.smartFormatting := false |};
         PostProcessing.dictionary := Some (dictionaryRef r) |} in
  foldr (fun effect rest =>
           match effect with
           | PostProcessing.Create request => emit (ChatCompletion request)
           | PostProcessing.ConsoleError _ => emit ConsoleError
           end;; rest)
    (mret result) effects.

(** From [if (text && text.trim())] to the end of the [try] block. *)
Definition deliver (env : Env) (settings : Settings) (text : JsString)
  : M unit :=
  if nonBlank text
  then
    let wordCount :=
      Z.of_nat (length (List.filter (fun w => (0 <? length w)%nat)
                          (split_ws (trim text)))) in
    (if 0 <? wordCount
     then
       await (AddWords wordCount) (addWords env wordCount);;
       if negb (incognitoMode settings)
       then
         let record :=
           {| id := Date_now env; text := trim text;
              timestamp := Date_now_again env; wordCount := wordCount |} in
         await (AddToHistory record) (addToHistory env record)
       else mret tt
     else mret tt);;
    pasteSuccess ← await (TypeText text) (typeText env text);
    if negb pasteSuccess then emit ConsoleWarn else mret tt
  else setError (Some (js "Empty result")).

(** [err.message?.slice(0, 15) || 'Error'] *)
Definition shortMessage (err : Exn) : JsString :=
  match message err with
  | Some m => if truthy (take 15 m) then take 15 m else js "Error"
  | None => js "Error"
  end.

(** The [try] block of [mediaRecorder.onstop]; [mimeType] is the one
    [startRecording] negotiated. *)
Definition tryBlock (env : Env) (mimeType : JsString) : M unit :=
  r ← getRefs;
  (if (length (chunksRef r) =? 0)%nat
   then setError (Some (js "No audio"));;
        throw (Error "No audio data collected")
   else mret tt);;
  let audioBlob := new_Blob (chunksRef r) mimeType in
  (if (blobSize audioBlob <? 100)%nat
   then setError (Some (js "Too short"));;
        throw (Error "Audio too short")
   else mret tt);;
  settings ← await GetSettings (getSettings env);
  (if negb (truthy (apiKey settings))
   then setError (Some (js "No API key"));;
        throw (Error "No API key configured")
   else mret tt);;
  text ← await (TranscribeAudio audioBlob (apiKey settings))
           (transcribeAudio env audioBlob (apiKey settings));
  text ← (if aiPostProcessing settings && nonBlank text
          then try_catch (postProcess env settings text)
                 (fun e => emit ConsoleError;; mret text)
          else mret text);
  deliver env settings text.

(** Its [catch] block. *)
Definition catchBlock (err : Exn) : M unit :=
  emit ConsoleError;;
  setError (Some (shortMessage err));;
  emit (ClearErrorAfter 3000).

(** Its [finally] block. *)
Definition finallyBlock : M unit :=
  setIsProcessing false;;
  emit RecordingStopped;;
  release.

(** [mediaRecorder.onstop] *)
Definition onstop (env : Env) (mimeType : JsString) : M unit :=
  setIsProcessing true;;
  setError None;;
  try_finally (try_catch (tryBlock env mimeType) catchBlock) finallyBlock.

(** *** A session to run the handler on

    The settings of a user who enabled post-processing, collaborators
    that answer, a cleanup service that is down, and a component whose
    session holds stream 1 and audio context 1. *)

Definition demoSettings : Settings :=
  {| apiKey := js "gsk_key"; aiPostProcessing := true;
     removeFillerWords := true; removeFalseStarts := true;
     fixPunctuation := true; fixGrammar := false; incognitoMode := false |}.

Definition demoEnv : Env :=
  {| getSettings := inr demoSettings;
     transcribeAudio := fun _ _ => inr (js "um teh cat");
     chatCompletion := fun _ => PostProcessing.Rejects (Error "503");
     addWords := fun _ => inr tt;
     addToHistory := fun _ => inr tt;
     typeText := fun _ => inr true;
     Date_now := 1700000000000;
     Date_now_again := 1700000000001 |}.

Definition demoChunk (size : nat) : Blob :=
  {| blobBytes := repeat 0 size; blobType := js "audio/webm" |}.

Definition demoState (chunks : list Blob)
  (entries : list Dictionary.DictionaryEntry) : State :=
  {| isProcessing := false; error := None;
     refs := {| mediaRecorderRef := true; chunksRef := chunks;
                streamRef := Some 1%nat; audioContextRef := Some 1%nat;
                analyserRef := false; dataArrayRef := false;
                dictionaryRef := entries |};
     devices := {| liveStreams := {[1%nat]}; openContexts := {[1%nat]} |};
     events := [] |}.

(** A computation that leaves the refs and the devices as they are. *)
Definition framed {A} (m : M A) : Prop :=
  forall st, refs (snd (m st)) = refs st /\ devices (snd (m st)) = devices st.

(** A computation that does not throw. *)
Definition returns {A} (m : M A) : Prop :=
  forall st, exists a, fst (m st) = inr a.

End Overlay.

(** ** The stop handler of useRecording *)

Module Hook.

Record State := {
  isRecording : bool;
  audioData : option Blob;
  error : option JsString;
  chunksRef : list Blob;
  streamRef : option nat;
  liveStreams : gset nat;
  contexts : list Wav.ContextEvent
}.

(** [mediaRecorder.onstop]: the clip is converted first; the stream is
    cleaned up in the statements after the [await]. *)
Definition onstop (decodeAudioData : list Z -> Exn + Wav.AudioBuffer)
  (mimeType : JsString) (st : State) : (Exn + unit) * State :=
  let audioBlob := new_Blob (chunksRef st) mimeType in
  let '(converted, log) := Wav.convertToWav decodeAudioData audioBlob in
  match converted with
  | inl e =>
      (inl e,
       {| isRecording := isRecording st; audioData := audioData st;
          error := error st; chunksRef := chunksRef st;
          streamRef := streamRef st; liveStreams := liveStreams st;
          contexts := contexts st ++ log |})
  | inr wavBlob =>
      (inr tt,
       {| isRecording := isRecording st; audioData := Some wavBlob;
          error := error st; chunksRef := chunksRef st;
          streamRef := None;
          liveStreams := match streamRef st with
                         | Some stream => liveStreams st ∖ {[stream]}
                         | None => liveStreams st
                         end;
          contexts := contexts st ++ log |})
  end.

(** *** A session to run the handler on: a decoder that rejects an
    empty clip, and a hook that holds stream 1. *)

Definition demoDecoder (bytes : list Z) : Exn + Wav.AudioBuffer :=
  match bytes with
  | [] => inl (Error "Unable to decode audio data")
  | _ => inr [Wav.Finite 0]
  end.

Definition demoState (chunks : list Blob) : State :=
  {| isRecording := false; audioData := None; error := None;
     chunksRef := chunks; streamRef := Some 1%nat; liveStreams := {[1%nat]};
     contexts := [] |}.

End Hook.

(** ** The buffer of the recorder *)

Module Recorder.
Import Overlay.

(** [mediaRecorder.ondataavailable] of [RecordingOverlay]: a chunk
    that holds data is pushed on [chunksRef.current]. *)
Definition ondataavailable (data : Blob) : M unit :=
  if (0 <? blobSize data)%nat
  then modify (fun st =>
         let r := refs st in
         {| isProcessing := isProcessing st; error := error st;
            refs := {| mediaRecorderRef := mediaRecorderRef r;
                       chunksRef := chunksRef r ++ [data];
                       streamRef := streamRef r;
                       audioContextRef := audioContextRef r;
                       analyserRef := analyserRef r;
                       dataArrayRef := dataArrayRef r;
                       dictionaryRef := dictionaryRef r |};
            devices := devices st; events := events st |})
  else mret tt.

(** The recorder fires [dataavailable] once per time slice. *)
Fixpoint record (slices : list Blob) : M unit :=
  match slices with
  | [] => mret tt
  | data :: rest => ondataavailable data;; record rest
  end.

(** A computation whose events all satisfy [P]; the events of the
    past are kept. *)
Definition emits {A} (P : Event -> Prop) (m : M A) : Prop :=
  forall st, exists new,
    events (snd (m st)) = events st ++ new /\ Forall P new.

(** The events through which data leaves the machine. *)
Definition isRequest (ev : Event) : bool :=
  match ev with
  | TranscribeAudio _ _ | ChatCompletion _ => true
  | _ => false
  end.

(** A transcription service that is down, one that hears nothing. *)
Definition offlineEnv : Env :=
  {| getSettings := getSettings demoEnv;
     transcribeAudio := fun _ _ => inl (Error "Connection error. Please retry");
     chatCompletion := chatCompletion demoEnv;
     addWords := addWords demoEnv;
     addToHistory := addToHistory demoEnv;
     typeText := typeText demoEnv;
     Date_now := Date_now demoEnv;
     Date_now_again := Date_now_again demoEnv |}.

Definition silentEnv : Env :=
  {| getSettings := getSettings demoEnv;
     transcribeAudio := fun _ _ => inr (js "  ");
     chatCompletion := chatCompletion demoEnv;
     addWords := addWords demoEnv;
     addToHistory := addToHistory demoEnv;
     typeText := typeText demoEnv;
     Date_now := Date_now demoEnv;
     Date_now_again := Date_now_again demoEnv |}.

(** A user without a key, and one who dictates incognito with the
    cleanup switched off. *)
Definition noKeyEnv : Env :=
  {| getSettings :=
       inr {| apiKey := []; aiPostProcessing := true;
              removeFillerWords := true; removeFalseStarts := true;
              fixPunctuation := true; fixGrammar := false;
              incognitoMode := false |};
     transcribeAudio := transcribeAudio demoEnv;
     chatCompletion := chatCompletion demoEnv;
     addWords := addWords demoEnv;
     addToHistory := addToHistory demoEnv;
     typeText := typeText demoEnv;
     Date_now := Date_now demoEnv;
     Date_now_again := Date_now_again demoEnv |}.

Definition privateSettings : Settings :=
  {| apiKey := js "gsk_key"; aiPostProcessing := false;
     removeFillerWords := true; removeFalseStarts := true;
     fixPunctuation := true; fixGrammar := false; incognitoMode := true |}.

Definition privateEnv : Env :=
  {| getSettings := inr privateSettings;
     transcribeAudio := transcribeAudio demoEnv;
     chatCompletion := chatCompletion demoEnv;
     addWords := addWords demoEnv;
     addToHistory := addToHistory demoEnv;
     typeText := typeText demoEnv;
     Date_now := Date_now demoEnv;
     Date_now_again := Date_now_again demoEnv |}.

End Recorder.

(** ** History, dictionary and settings in the main process *)

Module Main.

(** [interface TranscriptionRecord] of the main process: here [id]
    is the string the handlers compare. *)
Record TranscriptionRecord := {
  id : JsString;
  text : JsString;
  timestamp : Z;
  wordCount : Z
}.

(** What the handlers below keep in the store. *)
Inductive Value :=
| VString (s : JsString)
| VBoolean (b : bool)
| VHistory (records : list TranscriptionRecord)
| VDictionary (entries : list Dictionary.DictionaryEntry).

Abbreviation Store := (gmap string Value).

(** *** History *)

(** [(store.get('history') as TranscriptionRecord[]) || []]; only
    arrays are ever stored under the key. *)
Definition get_history (store : Store) : list TranscriptionRecord :=
  match store !! "history"%string with
  | Some (VHistory history) => history
  | _ => []
  end.

(** [ipcMain.handle('add-to-history', ...)] *)
Definition add_to_history (record : TranscriptionRecord) (store : Store)
  : list TranscriptionRecord * Store :=
  let history := get_history store in
  let newHistory := take 100 (record :: history) in
  (newHistory, <["history"%string := VHistory newHistory]> store).

(** [ipcMain.handle('clear-history', ...)] *)
Definition clear_history (store : Store) : Store :=
  <["history"%string := VHistory []]> store.

(** [ipcMain.handle('delete-history-item', ...)] *)
Definition delete_history_item (id' : JsString) (store : Store)
  : list TranscriptionRecord * Store :=
  let history := get_history store in
  let newHistory :=
    List.filter (fun item => negb (JsString_eqb (id item) id')) history in
  (newHistory, <["history"%string := VHistory newHistory]> store).

(** *** Dictionary *)

Definition get_dictionary (store : Store) : list Dictionary.DictionaryEntry :=
  match store !! "dictionary"%string with
  | Some (VDictionary dictionary) => dictionary
  | _ => []
  end.

(** [Omit<DictionaryEntry, 'id' | 'createdAt'>] *)
Record NewEntry := {
  original : JsString;
  corrected : JsString;
  caseSensitive : bool;
  enabled : bool
}.

(** [ipcMain.handle('add-dictionary-entry', ...)]; [Date.now()] is
    read twice, for [id] and for [createdAt]. *)
Definition add_dictionary_entry (now now' : Z) (entry : NewEntry)
  (store : Store) : list Dictionary.DictionaryEntry * Store :=
  let dictionary := get_dictionary store in
  let newEntry :=
    {| Dictionary.id := js (WordStats.showZ now);
       Dictionary.original := original entry;
       Dictionary.corrected := corrected entry;
       Dictionary.caseSensitive := caseSensitive entry;
       Dictionary.enabled := enabled entry;
       Dictionary.createdAt := now' |} in
  let newDictionary := newEntry :: dictionary in
  (newDictionary, <["dictionary"%string := VDictionary newDictionary]> store).

(** [Partial<DictionaryEntry>]: [None] is a property left out. *)
Record Updates := {
  set_id : option JsString;
  set_original : option JsString;
  set_corrected : option JsString;
  set_caseSensitive : option bool;
  set_enabled : option bool;
  set_createdAt : option Z
}.

(** [{ ...entry, ...updates }] *)
Definition spread (entry : Dictionary.DictionaryEntry) (updates : Updates)
  : Dictionary.DictionaryEntry :=
  {| Dictionary.id := default (Dictionary.id entry) (set_id updates);
     Dictionary.original :=
       default (Dictionary.original entry) (set_original updates);
     Dictionary.corrected :=
       default (Dictionary.corrected entry) (set_corrected updates);
     Dictionary.caseSensitive :=
       default (Dictionary.caseSensitive entry) (set_caseSensitive updates);
     Dictionary.enabled :=
       default (Dictionary.enabled entry) (set_enabled updates);
     Dictionary.createdAt :=
       default (Dictionary.createdAt entry) (set_createdAt updates) |}.

(** [ipcMain.handle('update-dictionary-entry', ...)] *)
Definition update_dictionary_entry (id' : JsString) (updates : Updates)
  (store : Store) : list Dictionary.DictionaryEntry * Store :=
  let dictionary := get_dictionary store in
  let newDictionary :=
    List.map (fun entry =>
                if JsString_eqb (Dictionary.id entry) id'
                then spread entry updates else entry) dictionary in
  (newDictionary, <["dictionary"%string := VDictionary newDictionary]> store).

(** [ipcMain.handle('delete-dictionary-entry', ...)] *)
Definition delete_dictionary_entry (id' : JsString) (store : Store)
  : list Dictionary.DictionaryEntry * Store :=
  let dictionary := get_dictionary store in
  let newDictionary :=
    List.filter (fun entry => negb (JsString_eqb (Dictionary.id entry) id'))
      dictionary in
  (newDictionary, <["dictionary"%string := VDictionary newDictionary]> store).

(** The updates the dictionary panel sends: [handleToggle] and
    [handleSave]. *)
Definition toggle (entry : Dictionary.DictionaryEntry) : Updates :=
  {| set_id := None; set_original := None; set_corrected := None;
     set_caseSensitive := None;
     set_enabled := Some (negb (Dictionary.enabled entry));
     set_createdAt := None |}.

Definition edit (original corrected : JsString) (caseSensitive : bool)
  : Updates :=
  {| set_id := None; set_original := Some original;
     set_corrected := Some corrected;
     set_caseSensitive := Some caseSensitive;
     set_enabled := None; set_createdAt := None |}.

(** [handleAddDetectedCorrection] of the overlay: the entry it sends
    for a suggestion the user accepts. *)
Definition accepted (detectedCorrection : Detector.DetectedCorrection)
  : NewEntry :=
  {| original := Detector.original detectedCorrection;
     corrected := Detector.corrected detectedCorrection;
     caseSensitive := false; enabled := true |}.

(** *** Settings *)

(** How [get-settings] reads a key: [store.get(key) || default] or
    [store.get(key) ?? default]. *)
Inductive Fallback := OrDefault | NullishDefault.

Definition falsy (v : Value) : bool :=
  match v with
  | VString s => negb (truthy s)
  | VBoolean b => negb b
  | _ => false
  end.

Definition read (store : Store) (key : string) (how : Fallback)
  (default : Value) : Value :=
  match store !! key, how with
  | Some v, OrDefault => if falsy v then default else v
  | Some v, NullishDefault => v
  | None, _ => default
  end.

(** The lines of the object [get-settings] returns, each with its
    value in [DEFAULT_SETTINGS]. *)
Definition settingsTable : list (string * (Fallback * Value)) :=
  [ ("apiKey", (OrDefault, VString []));
    ("whisperModel", (OrDefault, VString (js "whisper-large-v3-turbo")));
    ("hotkey", (OrDefault, VString (js "CommandOrControl+Shift+Space")));
    ("outputMode", (OrDefault, VString (js "type")));
    ("autoLaunch", (NullishDefault, VBoolean false));
    ("showPill", (NullishDefault, VBoolean true));
    ("pillVisibility", (OrDefault, VString (js "always")));
    ("language", (OrDefault, VString (js "en")));
    ("aiPostProcessing", (NullishDefault, VBoolean false));
    ("removeFillerWords", (NullishDefault, VBoolean true));
    ("removeFalseStarts", (NullishDefault, VBoolean true));
    ("fixPunctuation", (NullishDefault, VBoolean true));
    ("fixGrammar", (NullishDefault, VBoolean false));
    ("preferredMicrophone", (OrDefault, VString (js "default")));
    ("incognitoMode", (NullishDefault, VBoolean false));
    ("autoUpdate", (NullishDefault, VBoolean true));
    ("onboardingComplete", (NullishDefault, VBoolean false)) ]%string.

(** [ipcMain.handle('get-settings', ...)] *)
Definition get_settings (store : Store) : gmap string Value :=
  list_to_map
    (List.map (fun '(key, (how, default)) =>
                 (key, read store key how default)) settingsTable).

Definition settingKeys : list string :=
  [ "apiKey"; "whisperModel"; "hotkey"; "outputMode"; "autoLaunch";
    "showPill"; "pillVisibility"; "language"; "aiPostProcessing";
    "removeFillerWords"; "removeFalseStarts"; "fixPunctuation"; "fixGrammar";
    "preferredMicrophone"; "incognitoMode"; "autoUpdate";
    "onboardingComplete" ]%string.

(** What [save-settings] does besides storing. *)
Inductive Effect :=
| RegisterHotkeys
| SetLoginItemSettings (openAtLogin : Value)
| SettingsChanged (showPill pillVisibility : option Value).

(** The loop [for (const key of settingKeys)]. *)
Definition storeSettings (settings : gmap string Value) (store : Store)
  : Store :=
  foldl (fun store key =>
           match settings !! key with
           | Some value => <[key := value]> store
           | None => store
           end) store settingKeys.

(** [ipcMain.handle('save-settings', ...)]: [settings] is the object
    the renderer sends, a property that is absent or [undefined] is
    no binding. *)
Definition save_settings (settings : gmap string Value) (store : Store)
  : bool * Store * list Effect :=
  let store := storeSettings settings store in
  (true, store,
   (if bool_decide (is_Some (settings !! "hotkey"%string))
    then [RegisterHotkeys] else [])
   ++ match settings !! "autoLaunch"%string with
      | Some openAtLogin => [SetLoginItemSettings openAtLogin]
      | None => []
      end
   ++ (if bool_decide (is_Some (settings !! "showPill"%string))
          || bool_decide (is_Some (settings !! "pillVisibility"%string))
       then [SettingsChanged (store !! "showPill"%string)
               (store !! "pillVisibility"%string)]
       else [])).

(** Records and entries to run the handlers on. *)
Definition demoRecord (n : Z) : TranscriptionRecord :=
  {| id := js (WordStats.showZ n); text := js "hello world";
     timestamp := n; wordCount := 2 |}.

Definition demoHistory : Store :=
  <["history"%string := VHistory [demoRecord 2; demoRecord 1]]> ∅.

Definition demoDictionary : Store :=
  <["dictionary"%string :=
      VDictionary [Dictionary.entry "teh" "the"]]> ∅.

End Main.

(** ** The push-to-talk hotkey *)

(** [s.startsWith(prefix)] and [s.includes(sub)] *)
Fixpoint startsWith (s prefix : JsString) : bool :=
  match prefix, s with
  | [], _ => true
  | p :: prefix', c :: s' => (c =? p) && startsWith s' prefix'
  | _ :: _, [] => false
  end.

Fixpoint includes (s sub : JsString) : bool :=
  startsWith s sub
  || match s with
     | [] => false
     | _ :: s' => includes s' sub
     end.

Module Hotkey.

(** The modifiers [registerHotkeys] finds in the hotkey. *)
Record Modifiers := {
  hasCtrl : bool;
  hasShift : bool;
  hasAlt : bool;
  hasWin : bool;
  hasCmd : bool
}.

Section Parse.

Variable toLowerCase : JsString -> JsString.

Definition parseModifiers (hotkey : JsString) : Modifiers :=
  let hotkeyLower := toLowerCase hotkey in
  {| hasCtrl := includes hotkeyLower (js "control")
                || includes hotkeyLower (js "commandorcontrol");
     hasShift := includes hotkeyLower (js "shift");
     hasAlt := includes hotkeyLower (js "alt")
               || includes hotkeyLower (js "option");
     hasWin := includes hotkeyLower (js "super")
               || includes hotkeyLower (js "meta");
     hasCmd := includes hotkeyLower (js "command")
               || includes hotkeyLower (js "commandorcontrol") |}.

End Parse.

Inductive Platform := win32 | darwin | linux.

Inductive Callback := CheckKeys | CheckKeysMac | StopIfRecording.

Inductive Effect :=
| Send (channel : JsString)
| UpdateTrayIcon (recording : bool)
| SetTimeout (callback : Callback) (ms : Z)
| Exec (platform : Platform).

(** [if (isRecording) { isRecording = false; ...send('recording-stop');
    updateTrayIcon(false); }]: the new value of [isRecording] and what
    was done. *)
Definition stopIfRecording (isRecording : bool) : bool * list Effect :=
  if isRecording
  then (false, [Send (js "recording-stop"); UpdateTrayIcon false])
  else (isRecording, []).

(** The callback of the hotkey. *)
Definition onHotkey (platform : Platform) (isRecording : bool)
  : bool * list Effect :=
  if negb isRecording
  then (true,
        [Send (js "recording-start"); UpdateTrayIcon true]
        ++ match platform with
           | win32 => [SetTimeout CheckKeys 300]
           | darwin => [SetTimeout CheckKeysMac 300]
           | linux => []
           end)
  else (isRecording, []).

(** [checkKeys] and [checkKeysMac]: the probe is started while a
    recording runs. *)
Definition checkKeys (platform : Platform) (isRecording : bool)
  : list Effect :=
  if negb isRecording then [] else [Exec platform].

(** The block that computes [stillHeld] on Windows. *)
Definition stillHeldWin (m : Modifiers) (modifiers : JsString) : bool :=
  let stillHeld := false in
  let stillHeld :=
    if hasCtrl m && includes modifiers (js "Control")
    then true else stillHeld in
  let stillHeld :=
    if hasShift m && includes modifiers (js "Shift")
    then true else stillHeld in
  let stillHeld :=
    if hasAlt m && includes modifiers (js "Alt")
    then true else stillHeld in
  let stillHeld := if hasWin m then true else stillHeld in
  stillHeld.

(** The callback of [exec] on Windows: [probe] is the standard
    output, [None] when the probe failed. *)
Definition onModifierKeys (m : Modifiers) (probe : option JsString)
  (isRecording : bool) : bool * list Effect :=
  match probe with
  | None => (isRecording, [SetTimeout CheckKeys 100])
  | Some stdout =>
      let modifiers := trim stdout in
      let stillHeld := stillHeldWin m modifiers in
      if negb stillHeld
         || hasWin m && negb (hasCtrl m) && negb (hasShift m)
            && negb (hasAlt m)
      then
        if hasWin m && negb (hasCtrl m) && negb (hasShift m)
           && negb (hasAlt m)
        then (isRecording, [SetTimeout StopIfRecording 500])
        else stopIfRecording isRecording
      else (isRecording, [SetTimeout CheckKeys 100])
  end.

(** What the macOS probe prints, as [JSON.parse] reads it. *)
Record ModifierFlags := {
  shift : bool;
  control : bool;
  command : bool;
  option_ : bool
}.

(** The outcome of the macOS probe: it failed, its output did not
    parse, or it gave the four flags. *)
Inductive MacProbe :=
| ExecError
| SyntaxError
| Flags (modifiers : ModifierFlags).

(** The block that computes [stillHeld] on macOS. *)
Definition stillHeldMac (m : Modifiers) (modifiers : ModifierFlags) : bool :=
  let stillHeld := false in
  let stillHeld :=
    if hasCmd m && command modifiers then true else stillHeld in
  let stillHeld :=
    if hasCtrl m && control modifiers then true else stillHeld in
  let stillHeld :=
    if hasShift m && shift modifiers then true else stillHeld in
  let stillHeld :=
    if hasAlt m && option_ modifiers then true else stillHeld in
  stillHeld.

(** The callback of [exec] on macOS. *)
Definition onModifierFlags (m : Modifiers) (probe : MacProbe)
  (isRecording : bool) : bool * list Effect :=
  match probe with
  | ExecError => (isRecording, [SetTimeout CheckKeysMac 100])
  | SyntaxError => (isRecording, [SetTimeout CheckKeysMac 100])
  | Flags modifiers =>
      let stillHeld := stillHeldMac m modifiers in
      if negb stillHeld
      then stopIfRecording isRecording
      else (isRecording, [SetTimeout CheckKeysMac 100])
  end.

(** Whether a callback armed the timer of the next poll. *)
Definition rearmed (callback : Callback) (effects : list Effect) : bool :=
  existsb (fun effect =>
             match effect, callback with
             | SetTimeout CheckKeys _, CheckKeys => true
             | SetTimeout CheckKeysMac _, CheckKeysMac => true
             | _, _ => false
             end) effects.

(** The chain of polls that a press of the hotkey starts: each timer
    that fires runs [checkKeys], whose probe answers with the next
    element of [probes]; the chain ends with a callback that arms no
    further poll. *)
Fixpoint pollWin32 (m : Modifiers) (probes : list (option JsString))
  (isRecording : bool) : bool * list Effect :=
  match probes with
  | [] => (isRecording, [])
  | probe :: rest =>
      match checkKeys win32 isRecording with
      | [] => (isRecording, [])
      | started =>
          let '(isRecording, effects) :=
            onModifierKeys m probe isRecording in
          if rearmed CheckKeys effects
          then let '(isRecording, later) := pollWin32 m rest isRecording in
               (isRecording, started ++ effects ++ later)
          else (isRecording, started ++ effects)
      end
  end.

Fixpoint pollDarwin (m : Modifiers) (probes : list MacProbe)
  (isRecording : bool) : bool * list Effect :=
  match probes with
  | [] => (isRecording, [])
  | probe :: rest =>
      match checkKeys darwin isRecording with
      | [] => (isRecording, [])
      | started =>
          let '(isRecording, effects) :=
            onModifierFlags m probe isRecording in
          if rearmed CheckKeysMac effects
          then let '(isRecording, later) := pollDarwin m rest isRecording in
               (isRecording, started ++ effects ++ later)
          else (isRecording, started ++ effects)
      end
  end.

(** [ipcMain.on('recording-stopped', ...)] *)
Definition recording_stopped (isRecording : bool) : bool * list Effect :=
  (false, [UpdateTrayIcon false]).

End Hotkey.

(** ** Calls in sequence *)

Module Sequence.

(** [add-words] called once per dictation, each call at its own
    date. *)
Definition add_words_each (calls : list (WordStats.Date * Z))
  (store : gmap string WordStats.StoreValue)
  : gmap string WordStats.StoreValue :=
  foldl (fun store '(now, wordCount) =>
           snd (WordStats.add_words now wordCount store)) store calls.

(** [add-to-history] called once per dictation. *)
Definition add_to_history_each (records : list Main.TranscriptionRecord)
  (store : Main.Store) : Main.Store :=
  foldl (fun store record => snd (Main.add_to_history record store))
    store records.

End Sequence.

(** ** Dictionary substitution

    The callers under src/ hand the dictionary to
    [postProcessTranscription] ([RecordingOverlay] and
    [App.processAudio] pass [dictionary] with the options), but the
    revision of services/postProcessing that takes it is not under
    src/: the one that is there declares six flags and applies no
    entry. What the post-processor does with the dictionary is
    therefore taken from the specification (section 4.6, "Dictionary
    substitution"). *)

Module Substitution.

Section Apply.

(** [String.prototype.toLowerCase], and the code units that make up
    words: the specification speaks of word boundaries and leaves the
    alphabet open. *)
Variable toLowerCase : JsString -> JsString.
Variable isWordChar : Z -> bool.

(** Modelled from the spec: the missing matching rule of the
    dictionary substitution, "case-sensitive entries use exact-token
    matching, case-insensitive entries ignore case when matching". *)
Definition matches (entry : Dictionary.DictionaryEntry)
  (candidate : JsString) : bool :=
  if Dictionary.caseSensitive entry
  then JsString_eqb candidate (Dictionary.original entry)
  else JsString_eqb (toLowerCase candidate)
         (toLowerCase (Dictionary.original entry)).

(** Modelled from the spec: the missing test for a word boundary.
    The neighbour of a match is the start or the end of the text, or
    a code unit that does not belong to a word. *)
Definition boundary (neighbour : option Z) : bool :=
  match neighbour with
  | Some c => negb (isWordChar c)
  | None => true
  end.

(** Modelled from the spec: the missing test for an occurrence of an
    entry, "literal text replacement at word boundaries, not
    substring matches inside unrelated words". The text [s] follows
    the code unit [prev]; it begins with an occurrence when its first
    code units, as many as the original has, match the entry, and
    the neighbours on both sides are boundaries. *)
Definition occursAt (entry : Dictionary.DictionaryEntry) (prev : option Z)
  (s : JsString) : bool :=
  let n := length (Dictionary.original entry) in
  truthy (Dictionary.original entry)
  && (n <=? length s)%nat
  && matches entry (take n s)
  && boundary prev
  && boundary (head (drop n s)).

(** Modelled from the spec: the missing replacement of one entry,
    from left to right. [prev] is the code unit before [s], [skip]
    counts the code units of an occurrence that are still to be
    passed over. *)
Fixpoint scan (entry : Dictionary.DictionaryEntry) (prev : option Z)
  (skip : nat) (s : JsString) : JsString :=
  match s with
  | [] => []
  | c :: s' =>
      match skip with
      | S skip' => scan entry (Some c) skip' s'
      | O =>
          if occursAt entry prev s
          then Dictionary.corrected entry
               ++ scan entry (Some c)
                    (length (Dictionary.original entry) - 1) s'
          else c :: scan entry (Some c) 0 s'
      end
  end.

(** Modelled from the spec: the missing application of one entry to
    a text. *)
Definition substitute (entry : Dictionary.DictionaryEntry)
  (text : JsString) : JsString :=
  scan entry None 0 text.

(** Modelled from the spec: the missing dictionary substitution,
    "after AI or local cleanup, every enabled DictionaryEntry is
    applied"; [text] is the text the cleanup returned. *)
Definition applyDictionary (entries : list Dictionary.DictionaryEntry)
  (text : JsString) : JsString :=
  foldl (fun text entry =>
           if Dictionary.enabled entry then substitute entry text else text)
    text entries.

End Apply.

(** The class [\w] of a regular expression, to run the substitution
    on examples. *)
Definition asciiWordChar (c : Z) : bool :=
  (48 <=? c) && (c <=? 57) || (65 <=? c) && (c <=? 90)
  || (97 <=? c) && (c <=? 122) || (c =? 95).

(** An entry that ignores case and one that does not. *)
Definition catToDog : Dictionary.DictionaryEntry :=
  Dictionary.entry "cat" "dog".

Definition exactTally : Dictionary.DictionaryEntry :=
  {| Dictionary.id := js "2"; Dictionary.original := js "tally dot io";
     Dictionary.corrected := js "tallie.io";
     Dictionary.caseSensitive := true; Dictionary.enabled := true;
     Dictionary.createdAt := 0 |}.

Definition disabledEntry : Dictionary.DictionaryEntry :=
  {| Dictionary.id := js "3"; Dictionary.original := js "a";
     Dictionary.corrected := js "the";
     Dictionary.caseSensitive := false; Dictionary.enabled := false;
     Dictionary.createdAt := 0 |}.

End Substitution.

(* ================================================================= *)
(** * Theorems *)

Section WavFacts.
Import Wav.

Example encode_three :
  encode [Finite 1; Finite (-1 # 2); NaN]
  = Some {| blobBytes :=
              [82; 73; 70; 70; 42; 0; 0; 0; 87; 65; 86; 69;
               102; 109; 116; 32; 16; 0; 0; 0; 1; 0; 1; 0;
               128; 62; 0; 0; 0; 125; 0; 0; 2; 0; 16; 0;
               100; 97; 116; 97; 6; 0; 0; 0;
               255; 127; 0; 192; 0; 0];
            blobType := js "audio/wav" |}.
Proof. vm_compute. reflexivity. Qed.


(** *** Rounding and ToInt16 *)

Lemma quot_bounds (n d a b : Z) :
  0 < d -> a <= 0 <= b -> a * d <= n <= b * d -> a <= Z.quot n d <= b.
Proof.
  intros Hd Hab Hn.
  destruct (Z.le_gt_cases 0 n) as [Hpos | Hneg].
  - rewrite Z.quot_div_nonneg by lia. split.
    + pose proof (Z.div_pos n d Hpos Hd). lia.
    + apply Z.lt_succ_r. apply Z.div_lt_upper_bound; nia.
  - replace n with (- (- n)) by lia.
    rewrite Z.quot_opp_l by lia.
    rewrite Z.quot_div_nonneg by lia. split.
    + assert (- n / d < - a + 1) by (apply Z.div_lt_upper_bound; nia). lia.
    + assert (0 <= - n / d) by (apply Z.div_pos; lia). lia.
Qed.

Lemma ToInt16_in_range (q : Q) :
  -32768 <= truncate q <= 32767 -> ToInt16 (Finite q) = truncate q.
Proof.
  intros H. unfold ToInt16. cbv zeta.
  destruct (Z.le_gt_cases 0 (truncate q)) as [Hpos | Hneg].
  - rewrite Z.mod_small by lia.
    destruct (Z.leb_spec 32768 (truncate q)); lia.
  - replace (truncate q mod 65536) with (truncate q + 65536).
    + destruct (Z.leb_spec 32768 (truncate q + 65536)); lia.
    + apply Z.mod_unique with (q := -1); lia.
Qed.

Lemma ToInt16_bounds (x : Number) : -32768 <= ToInt16 x <= 32767.
Proof.
  destruct x as [ | neg | q]; simpl; try lia.
  pose proof (Z.mod_pos_bound (truncate q) 65536 ltac:(lia)).
  destruct (Z.leb_spec 32768 (truncate q mod 65536)); lia.
Qed.

(** *** The clamp *)

Lemma clamp_NaN : clamp NaN = NaN.
Proof. reflexivity. Qed.

Lemma clamp_Infinity (negative : bool) :
  clamp (Infinity negative) = Finite (if negative then -1 else 1).
Proof. destruct negative; reflexivity. Qed.

Lemma clamp_Finite (q : Q) :
  exists c, clamp (Finite q) = Finite c /\ (-1 <= c <= 1)%Q
    /\ (c = q \/ c = 1%Q /\ (1 <= q)%Q \/ c = (-1)%Q /\ (q <= -1)%Q).
Proof.
  unfold clamp. cbn [Math_min].
  destruct (Qle_bool 1 q) eqn:Hhi.
  - exists 1%Q. apply Qle_bool_iff in Hhi.
    repeat split; try discriminate. right. left. split; [reflexivity | exact Hhi].
  - cbn [Math_max]. destruct (Qle_bool q (-1)) eqn:Hlo.
    + exists (-1)%Q. apply Qle_bool_iff in Hlo.
      repeat split; try discriminate. right. right. split; [reflexivity | exact Hlo].
    + exists q. split; [reflexivity | ].
      assert (Hq1 : ~ (1 <= q)%Q)
        by (intros H; apply Qle_bool_iff in H; congruence).
      assert (Hq2 : ~ (q <= -1)%Q)
        by (intros H; apply Qle_bool_iff in H; congruence).
      apply Qnot_le_lt in Hq1, Hq2.
      repeat split; try (apply Qlt_le_weak; assumption). left. reflexivity.
Qed.

Lemma scale_truncate_bounds (c : Q) :
  (-1 <= c <= 1)%Q ->
  exists v, scale (Finite c) = Finite v
    /\ v = (if Qlt_bool c 0 then c * 32768 else c * 32767)%Q
    /\ -32768 <= truncate v <= 32767.
Proof.
  intros [Hlo Hhi]. unfold scale. cbn [lt mul].
  destruct c as [n d]. unfold Qle in Hlo, Hhi. simpl in Hlo, Hhi.
  destruct (Qlt_bool (n # d) 0) eqn:Hneg; eexists; (split; [reflexivity | split; [reflexivity | ]]).
  - unfold Qlt_bool in Hneg. apply negb_true_iff in Hneg.
    assert (Hn : ~ (0 <= n # d)%Q)
      by (intros H; apply Qle_bool_iff in H; congruence).
    apply Qnot_le_lt in Hn. unfold Qlt in Hn. simpl in Hn.
    unfold truncate. simpl. rewrite Pos.mul_1_r.
    pose proof (quot_bounds (n * 32768) (Z.pos d) (-32768) 0 ltac:(lia) ltac:(lia)
                  ltac:(lia)). lia.
  - unfold Qlt_bool in Hneg. apply negb_false_iff in Hneg.
    apply Qle_bool_iff in Hneg. unfold Qle in Hneg. simpl in Hneg.
    unfold truncate. simpl. rewrite Pos.mul_1_r.
    pose proof (quot_bounds (n * 32767) (Z.pos d) 0 32767 ltac:(lia) ltac:(lia)
                  ltac:(lia)). lia.
Qed.

Lemma pcm16_Finite (q : Q) :
  exists c, clamp (Finite q) = Finite c /\ (-1 <= c <= 1)%Q
    /\ (c = q \/ c = 1%Q /\ (1 <= q)%Q \/ c = (-1)%Q /\ (q <= -1)%Q)
    /\ pcm16 (Finite q)
       = truncate (if Qlt_bool c 0 then c * 32768 else c * 32767)%Q.
Proof.
  destruct (clamp_Finite q) as (c & Hc & Hrange & Hcases).
  exists c. repeat split; try tauto.
  unfold pcm16. rewrite Hc.
  destruct (scale_truncate_bounds c Hrange) as (v & Hv & Hveq & Hvb).
  rewrite Hv, ToInt16_in_range by exact Hvb. now rewrite Hveq.
Qed.

Lemma bytesLE_2 (v : Z) : bytesLE 2 v = [v mod 256; v / 256 mod 256].
Proof.
  unfold bytesLE. cbn [seq List.map].
  change (256 ^ Z.of_nat 0) with 1. change (256 ^ Z.of_nat 1) with 256.
  now rewrite Z.div_1_r.
Qed.

Lemma bytesLE_4 (v : Z) :
  bytesLE 4 v
  = [v mod 256; v / 256 mod 256; v / 65536 mod 256; v / 16777216 mod 256].
Proof.
  unfold bytesLE. cbn [seq List.map].
  change (256 ^ Z.of_nat 0) with 1. change (256 ^ Z.of_nat 1) with 256.
  change (256 ^ Z.of_nat 2) with 65536.
  change (256 ^ Z.of_nat 3) with 16777216.
  now rewrite Z.div_1_r.
Qed.

Lemma valueLE_2 (v : Z) : valueLE (bytesLE 2 v) = v mod 65536.
Proof.
  rewrite bytesLE_2. cbn [valueLE fold_right].
  rewrite (Z.mod_eq v 65536), (Z.mod_eq (v / 256) 256), (Z.mod_eq v 256)
    by lia.
  rewrite Z.div_div by lia. change (256 * 256) with 65536. lia.
Qed.

Lemma valueLE_4 (v : Z) : valueLE (bytesLE 4 v) = v mod 4294967296.
Proof.
  rewrite bytesLE_4. cbn [valueLE fold_right].
  rewrite (Z.mod_eq v 4294967296), (Z.mod_eq (v / 16777216) 256),
    (Z.mod_eq (v / 65536) 256), (Z.mod_eq (v / 256) 256), (Z.mod_eq v 256)
    by lia.
  replace (v / 65536) with (v / 256 / 256)
    by (rewrite Z.div_div by lia; reflexivity).
  replace (v / 16777216) with (v / 256 / 256 / 256)
    by (rewrite !Z.div_div by lia; reflexivity).
  replace (v / 4294967296) with (v / 256 / 256 / 256 / 256)
    by (rewrite !Z.div_div by lia; reflexivity).
  lia.
Qed.

Lemma signed_roundtrip (v : Z) :
  -32768 <= v <= 32767 ->
  (let u := valueLE (bytesOf 2 v true) in
   if 32768 <=? u then u - 65536 else u) = v.
Proof.
  intros Hv. cbv zeta. unfold bytesOf. rewrite valueLE_2.
  destruct (Z.le_gt_cases 0 v) as [Hpos | Hneg].
  - rewrite Z.mod_small by lia. destruct (Z.leb_spec 32768 v); lia.
  - replace (v mod 65536) with (v + 65536)
      by (apply Z.mod_unique with (q := -1); lia).
    destruct (Z.leb_spec 32768 (v + 65536)); lia.
Qed.

(** *** Stores into the buffer *)

Lemma store_splice (pre old post bs : list Z) :
  length old = length bs ->
  store (pre ++ old ++ post) (length pre) bs = Some (pre ++ bs ++ post).
Proof.
  intros Hlen. unfold store.
  rewrite !length_app, Hlen.
  destruct (Nat.leb_spec (length pre + length bs)
              (length pre + (length bs + length post))) as [_ | Hlt];
    [ | lia].
  rewrite take_app_length, drop_app_add, <- Hlen, drop_app_length.
  reflexivity.
Qed.

Lemma writeSamples_fill (channelData : list Number) :
  forall pre : list Z,
    writeSamples (pre ++ repeat 0 (length channelData * 2)) (length pre)
      channelData
    = Some (pre ++ List.concat
                     (List.map (fun x => bytesLE 2 (pcm16 x)) channelData)).
Proof.
  induction channelData as [ | x rest IH]; intros pre.
  - simpl. now rewrite !app_nil_r.
  - cbn [writeSamples length Nat.mul Nat.add repeat].
    unfold setInt16, bytesOf.
    change (0 :: 0 :: repeat 0 (length rest * 2))
      with ([0; 0] ++ repeat 0 (length rest * 2)).
    rewrite store_splice by (now rewrite bytesLE_2).
    cbn [mbind option_bind].
    replace (length pre + 2)%nat with (length (pre ++ bytesLE 2 (pcm16 x)))
      by (rewrite length_app, bytesLE_2; reflexivity).
    rewrite (app_assoc pre), IH.
    cbn [List.map List.concat]. now rewrite <- !app_assoc.
Qed.

(** The thirteen header stores on a zeroed buffer, whatever follows
    them. *)
Lemma header_stores {A} (a b : Z) (rest : list Z)
  (k : ArrayBuffer -> option A) :
  (view ← writeString (repeat 0 44 ++ rest) 0 (js "RIFF");
   view ← setUint32 view 4 a true;
   view ← writeString view 8 (js "WAVE");
   view ← writeString view 12 (js "fmt ");
   view ← setUint32 view 16 16 true;
   view ← setUint16 view 20 1 true;
   view ← setUint16 view 22 1 true;
   view ← setUint32 view 24 16000 true;
   view ← setUint32 view 28 (16000 * 1 * 2) true;
   view ← setUint16 view 32 (1 * 2) true;
   view ← setUint16 view 34 16 true;
   view ← writeString view 36 (js "data");
   view ← setUint32 view 40 b true;
   k view)
  = k (js "RIFF" ++ bytesLE 4 a ++ js "WAVE" ++ js "fmt "
       ++ bytesLE 4 16 ++ bytesLE 2 1 ++ bytesLE 2 1
       ++ bytesLE 4 16000 ++ bytesLE 4 32000 ++ bytesLE 2 2
       ++ bytesLE 2 16 ++ js "data" ++ bytesLE 4 b ++ rest).
Proof.
  unfold setUint32, setUint16, bytesOf.
  rewrite (bytesLE_4 a), (bytesLE_4 b).
  generalize (a mod 256), (a / 256 mod 256), (a / 65536 mod 256),
    (a / 16777216 mod 256), (b mod 256), (b / 256 mod 256),
    (b / 65536 mod 256), (b / 16777216 mod 256).
  intros a0 a1 a2 a3 b0 b1 b2 b3. reflexivity.
Qed.

(** The file [encode] produces, in closed form. *)
Lemma encode_closed_form (audioBuffer : AudioBuffer) :
  let n := Z.of_nat (length audioBuffer) in
  encode audioBuffer
  = Some {| blobBytes :=
              js "RIFF" ++ bytesLE 4 (36 + n * 2) ++ js "WAVE" ++ js "fmt "
              ++ bytesLE 4 16 ++ bytesLE 2 1 ++ bytesLE 2 1
              ++ bytesLE 4 16000 ++ bytesLE 4 32000 ++ bytesLE 2 2
              ++ bytesLE 2 16 ++ js "data" ++ bytesLE 4 (n * 2)
              ++ List.concat
                   (List.map (fun x => bytesLE 2 (pcm16 x)) audioBuffer);
            blobType := js "audio/wav" |}.
Proof.
  cbv zeta. unfold encode. cbv zeta.
  unfold new_ArrayBuffer. rewrite repeat_app.
  rewrite (header_stores _ _ _
             (fun view =>
                view ← writeSamples view 44 audioBuffer;
                Some {| blobBytes := view; blobType := js "audio/wav" |})).
  pose (header :=
          js "RIFF" ++ bytesLE 4 (36 + Z.of_nat (length audioBuffer) * 2)
          ++ js "WAVE" ++ js "fmt " ++ bytesLE 4 16 ++ bytesLE 2 1
          ++ bytesLE 2 1 ++ bytesLE 4 16000 ++ bytesLE 4 32000
          ++ bytesLE 2 2 ++ bytesLE 2 16 ++ js "data"
          ++ bytesLE 4 (Z.of_nat (length audioBuffer) * 2)).
  change (writeSamples _ 44 audioBuffer)
    with (writeSamples (header ++ repeat 0 (length audioBuffer * 2))
            (length header) audioBuffer).
  rewrite writeSamples_fill. reflexivity.
Qed.

Lemma samples_length (channelData : list Number) :
  length (List.concat (List.map (fun x => bytesLE 2 (pcm16 x)) channelData))
  = (2 * length channelData)%nat.
Proof.
  induction channelData as [ | x rest IH]; [reflexivity | ].
  cbn [List.map List.concat]. rewrite length_app, IH, bytesLE_2.
  cbn [length]. lia.
Qed.

Lemma load_sample (channelData : list Number) :
  forall (i : nat) (x : Number) (pre : list Z),
    channelData !! i = Some x ->
    load (pre ++ List.concat
                   (List.map (fun x => bytesLE 2 (pcm16 x)) channelData))
      (length pre + 2 * i) 2
    = Some (bytesLE 2 (pcm16 x)).
Proof.
  induction channelData as [ | y rest IH]; intros i x pre Hi;
    [discriminate | ].
  destruct i as [ | j].
  - injection Hi as ->. unfold load.
    cbn [List.map List.concat]. rewrite !length_app, bytesLE_2.
    cbn [length].
    destruct (Nat.leb_spec (length pre + 2 * 0 + 2)
                (length pre + (2 + length (List.concat
                   (List.map (fun x => bytesLE 2 (pcm16 x)) rest)))))
      as [_ | Hlt]; [ | lia].
    replace (length pre + 2 * 0)%nat with (length pre) by lia.
    now rewrite drop_app_length.
  - cbn [List.map List.concat]. rewrite app_assoc.
    replace (length pre + 2 * S j)%nat
      with (length (pre ++ bytesLE 2 (pcm16 y)) + 2 * j)%nat
      by (rewrite length_app, bytesLE_2; cbn [length]; lia).
    apply IH. exact Hi.
Qed.

(** C1. For a clip that decodes to N samples, [convertToWav] returns a
    blob of type audio/wav and of 44 + 2N bytes: the header reads
    RIFF, WAVE, a fmt chunk of size 16, format 1 (PCM), 1 channel,
    16000 Hz, byte rate 32000, block align 2, 16 bits per sample and a
    data chunk; the two size fields hold 36 + 2N and 2N (as 32-bit
    fields: reduced modulo 2^32, hence these very numbers as long as
    36 + 2N fits); sample i is read back at offset 44 + 2i as a signed
    little-endian 16-bit integer. *)
Theorem convertToWav_layout
  (decodeAudioData : list Z -> Exn + AudioBuffer) (blob : Blob)
  (audioBuffer : AudioBuffer) :
  decodeAudioData (blobBytes blob) = inr audioBuffer ->
  let N := length audioBuffer in
  exists wav,
    fst (convertToWav decodeAudioData blob) = inr wav
    /\ blobType wav = js "audio/wav"
    /\ blobSize wav = (44 + 2 * N)%nat
    /\ load (blobBytes wav) 0 4 = Some (js "RIFF")
    /\ load (blobBytes wav) 8 4 = Some (js "WAVE")
    /\ load (blobBytes wav) 12 4 = Some (js "fmt ")
    /\ getUint32 (blobBytes wav) 16 = Some 16
    /\ getUint16 (blobBytes wav) 20 = Some 1
    /\ getUint16 (blobBytes wav) 22 = Some 1
    /\ getUint32 (blobBytes wav) 24 = Some 16000
    /\ getUint32 (blobBytes wav) 28 = Some 32000
    /\ getUint16 (blobBytes wav) 32 = Some 2
    /\ getUint16 (blobBytes wav) 34 = Some 16
    /\ load (blobBytes wav) 36 4 = Some (js "data")
    /\ getUint32 (blobBytes wav) 4
       = Some ((36 + 2 * Z.of_nat N) mod 4294967296)
    /\ getUint32 (blobBytes wav) 40 = Some ((2 * Z.of_nat N) mod 4294967296)
    /\ (36 + 2 * Z.of_nat N < 4294967296 ->
        getUint32 (blobBytes wav) 4 = Some (36 + 2 * Z.of_nat N)
        /\ getUint32 (blobBytes wav) 40 = Some (2 * Z.of_nat N))
    /\ (forall i x, audioBuffer !! i = Some x ->
          getInt16 (blobBytes wav) (44 + 2 * i) = Some (pcm16 x)).
Proof.
  intros Hdecode N. unfold convertToWav. cbn [fst]. rewrite Hdecode.
  pose proof (encode_closed_form audioBuffer) as Hform. cbv zeta in Hform.
  rewrite Hform. clear Hform. eexists. split; [reflexivity | ].
  cbn [blobBytes blobType blobSize]. fold N.
  assert (Hsizes :
    forall (a b : Z) (samples : list Z),
      let bytes :=
        js "RIFF" ++ bytesLE 4 a ++ js "WAVE" ++ js "fmt " ++ bytesLE 4 16
        ++ bytesLE 2 1 ++ bytesLE 2 1 ++ bytesLE 4 16000 ++ bytesLE 4 32000
        ++ bytesLE 2 2 ++ bytesLE 2 16 ++ js "data" ++ bytesLE 4 b
        ++ samples in
      length bytes = (44 + length samples)%nat
      /\ load bytes 0 4 = Some (js "RIFF")
      /\ load bytes 8 4 = Some (js "WAVE")
      /\ load bytes 12 4 = Some (js "fmt ")
      /\ getUint32 bytes 16 = Some 16
      /\ getUint16 bytes 20 = Some 1
      /\ getUint16 bytes 22 = Some 1
      /\ getUint32 bytes 24 = Some 16000
      /\ getUint32 bytes 28 = Some 32000
      /\ getUint16 bytes 32 = Some 2
      /\ getUint16 bytes 34 = Some 16
      /\ load bytes 36 4 = Some (js "data")
      /\ getUint32 bytes 4 = Some (valueLE (bytesLE 4 a))
      /\ getUint32 bytes 40 = Some (valueLE (bytesLE 4 b))).
  { intros a b samples. cbv zeta. rewrite (bytesLE_4 a), (bytesLE_4 b).
    generalize (a mod 256), (a / 256 mod 256), (a / 65536 mod 256),
      (a / 16777216 mod 256), (b mod 256), (b / 256 mod 256),
      (b / 65536 mod 256), (b / 16777216 mod 256).
    intros a0 a1 a2 a3 b0 b1 b2 b3. repeat split. }
  specialize (Hsizes (36 + Z.of_nat N * 2) (Z.of_nat N * 2)
                (List.concat
                   (List.map (fun x => bytesLE 2 (pcm16 x)) audioBuffer))).
  cbv zeta in Hsizes. rewrite samples_length in Hsizes. fold N in Hsizes.
  rewrite !valueLE_4 in Hsizes.
  replace (36 + Z.of_nat N * 2) with (36 + 2 * Z.of_nat N) in * by lia.
  replace (Z.of_nat N * 2) with (2 * Z.of_nat N) in * by lia.
  destruct Hsizes as (H0 & H1 & H2 & H3 & H4 & H5 & H6 & H7 & H8 & H9
                      & H10 & H11 & H12 & H13).
  split; [reflexivity | ].
  repeat (split; [assumption | ]).
  split.
  { intros Hfit. rewrite H12, H13, !Z.mod_small by lia. split; reflexivity. }
  intros i x Hi.
  pose (header :=
          js "RIFF" ++ bytesLE 4 (36 + 2 * Z.of_nat N) ++ js "WAVE"
          ++ js "fmt " ++ bytesLE 4 16 ++ bytesLE 2 1 ++ bytesLE 2 1
          ++ bytesLE 4 16000 ++ bytesLE 4 32000 ++ bytesLE 2 2
          ++ bytesLE 2 16 ++ js "data" ++ bytesLE 4 (2 * Z.of_nat N)).
  unfold getInt16, getUint16.
  change (load _ (44 + 2 * i) 2)
    with (load (header ++ List.concat
                  (List.map (fun x => bytesLE 2 (pcm16 x)) audioBuffer))
            (length header + 2 * i) 2).
  rewrite (load_sample audioBuffer i x header Hi).
  cbn [fmap option_fmap option_map]. f_equal.
  apply (signed_roundtrip (pcm16 x)), ToInt16_bounds.
Qed.

(** A clip of three samples, encoded. *)
Lemma convertToWav_layout_witness :
  exists wav,
    fst (convertToWav demoDecoder demoClip) = inr wav
    /\ blobSize wav = 50%nat
    /\ getUint32 (blobBytes wav) 4 = Some 42
    /\ getUint32 (blobBytes wav) 40 = Some 6
    /\ getInt16 (blobBytes wav) 46 = Some (-16384).
Proof.
  destruct (convertToWav_layout demoDecoder demoClip
              [Finite 1; Finite (-1 # 2); NaN] eq_refl)
    as (wav & Hwav & _ & Hsize & _ & _ & _ & _ & _ & _ & _ & _ & _ & _ & _
        & _ & _ & Hfit & Hsamples).
  exists wav. split; [exact Hwav | ]. split; [exact Hsize | ].
  destruct (Hfit ltac:(simpl; lia)) as [Hriff Hdata].
  split; [exact Hriff | ]. split; [exact Hdata | ].
  exact (Hsamples 1%nat (Finite (-1 # 2)) eq_refl).
Defined.

(** *** The sample loop *)

(** The loop overwrites two bytes per sample, from [offset] on, and
    nothing else. *)
Lemma writeSamples_splice (channelData : list Number) :
  forall pre old post : list Z,
    length old = (2 * length channelData)%nat ->
    writeSamples (pre ++ old ++ post) (length pre) channelData
    = Some (pre
            ++ List.concat
                 (List.map (fun x => bytesLE 2 (pcm16 x)) channelData)
            ++ post).
Proof.
  induction channelData as [ | x rest IH]; intros pre old post Hold.
  - destruct old; [reflexivity | discriminate].
  - destruct old as [ | b0 [ | b1 old]]; try (cbn [length] in Hold; lia).
    cbn [writeSamples]. unfold setInt16, bytesOf.
    change (pre ++ (b0 :: b1 :: old) ++ post)
      with (pre ++ [b0; b1] ++ old ++ post).
    rewrite store_splice by (now rewrite bytesLE_2).
    cbn [mbind option_bind].
    replace (length pre + 2)%nat with (length (pre ++ bytesLE 2 (pcm16 x)))
      by (rewrite length_app, bytesLE_2; reflexivity).
    rewrite (app_assoc pre), IH by (cbn [length] in Hold; lia).
    cbn [List.map List.concat]. now rewrite <- !app_assoc.
Qed.

(** The file is a header of 44 bytes followed by the bytes of the
    samples. *)
Lemma encode_header_samples (audioBuffer : AudioBuffer) :
  exists header,
    length header = 44%nat
    /\ encode audioBuffer
       = Some {| blobBytes :=
                   header
                   ++ List.concat
                        (List.map (fun x => bytesLE 2 (pcm16 x)) audioBuffer);
                 blobType := js "audio/wav" |}.
Proof.
  pose proof (encode_closed_form audioBuffer) as Hform. cbv zeta in Hform.
  exists (js "RIFF" ++ bytesLE 4 (36 + Z.of_nat (length audioBuffer) * 2)
          ++ js "WAVE" ++ js "fmt " ++ bytesLE 4 16 ++ bytesLE 2 1
          ++ bytesLE 2 1 ++ bytesLE 4 16000 ++ bytesLE 4 32000
          ++ bytesLE 2 2 ++ bytesLE 2 16 ++ js "data"
          ++ bytesLE 4 (Z.of_nat (length audioBuffer) * 2)).
  split.
  - rewrite !length_app, !bytesLE_4, !bytesLE_2. reflexivity.
  - rewrite Hform, <- !app_assoc. reflexivity.
Qed.

Lemma getInt16_sample (header : list Z) (channelData : list Number)
  (i : nat) (x : Number) :
  channelData !! i = Some x ->
  getInt16 (header
            ++ List.concat
                 (List.map (fun x => bytesLE 2 (pcm16 x)) channelData))
    (length header + 2 * i)
  = Some (pcm16 x).
Proof.
  intros Hi. unfold getInt16, getUint16.
  rewrite (load_sample channelData i x header Hi).
  cbn [fmap option_fmap option_map]. f_equal.
  apply (signed_roundtrip (pcm16 x)), ToInt16_bounds.
Qed.

(** C2. Every sample the encoder writes is clamped to [[-1, 1]] and
    then scaled by 32768 when the clamped value is negative and by
    32767 otherwise, before it is stored as a little-endian signed
    16-bit integer: the sample loop overwrites, for each sample [x] in
    turn, two bytes of the buffer with the little-endian bytes of
    [ToInt16 (scale (clamp x))] and leaves the bytes around them
    alone; so the file [convertToWav] returns holds exactly these
    bytes after its 44 header bytes, and sample [i] reads back at
    offset [44 + 2i] as that integer. The integer stored lies in
    [[-32768, 32767]], it is the scaled value rounded towards zero,
    and the sample [+1.0] is stored as 32767. A sample that is not a
    number is stored as 0. *)
Theorem sample_clamped_then_scaled :
  (forall (channelData : list Number) (pre old post : list Z),
      length old = (2 * length channelData)%nat ->
      writeSamples (pre ++ old ++ post) (length pre) channelData
      = Some (pre
              ++ List.concat
                   (List.map
                      (fun x => bytesOf 2 (ToInt16 (scale (clamp x))) true)
                      channelData)
              ++ post))
  /\ (forall (decodeAudioData : list Z -> Exn + AudioBuffer) (blob : Blob)
             (audioBuffer : AudioBuffer),
        decodeAudioData (blobBytes blob) = inr audioBuffer ->
        exists wav,
          fst (convertToWav decodeAudioData blob) = inr wav
          /\ drop 44 (blobBytes wav)
             = List.concat
                 (List.map
                    (fun x => bytesOf 2 (ToInt16 (scale (clamp x))) true)
                    audioBuffer)
          /\ forall i x,
               audioBuffer !! i = Some x ->
               getInt16 (blobBytes wav) (44 + 2 * i)
               = Some (ToInt16 (scale (clamp x))))
  /\ (forall x, pcm16 x = ToInt16 (scale (clamp x)))
  /\ (forall q, exists c,
        clamp (Finite q) = Finite c /\ (-1 <= c <= 1)%Q
        /\ (c = q \/ c = 1%Q /\ (1 <= q)%Q \/ c = (-1)%Q /\ (q <= -1)%Q)
        /\ pcm16 (Finite q)
           = truncate (if Qlt_bool c 0 then c * 32768 else c * 32767)%Q)
  /\ (forall negative,
        clamp (Infinity negative) = Finite (if negative then -1 else 1)
        /\ pcm16 (Infinity negative) = if negative then -32768 else 32767)
  /\ pcm16 NaN = 0
  /\ (forall x, -32768 <= pcm16 x <= 32767)
  /\ (forall x view offset,
        setInt16 view offset (scale (clamp x)) true
        = store view offset [pcm16 x mod 256; pcm16 x / 256 mod 256])
  /\ (forall x, let u := valueLE (bytesOf 2 (pcm16 x) true) in
                (if 32768 <=? u then u - 65536 else u) = pcm16 x)
  /\ pcm16 (Finite 1) = 32767
  /\ pcm16 (Finite (-1)) = -32768.
Proof.
  split; [exact writeSamples_splice | ].
  split.
  { intros decodeAudioData blob audioBuffer Hdecode.
    unfold convertToWav. cbn [fst]. rewrite Hdecode.
    destruct (encode_header_samples audioBuffer) as (header & Hlen & ->).
    eexists. split; [reflexivity | ]. cbn [blobBytes]. split.
    - rewrite <- Hlen. apply drop_app_length.
    - intros i x Hi. rewrite <- Hlen.
      exact (getInt16_sample header audioBuffer i x Hi). }
  split; [reflexivity | ].
  split; [exact pcm16_Finite | ].
  split; [intros []; split; reflexivity | ].
  split; [reflexivity | ].
  split; [intros x; apply ToInt16_bounds | ].
  split.
  { intros x view offset. unfold setInt16, bytesOf.
    now rewrite bytesLE_2. }
  split; [intros x; apply signed_roundtrip, ToInt16_bounds | ].
  split; reflexivity.
Qed.

(** Three samples, of which the first is full scale and the last is
    not a number. *)
Lemma sample_clamped_then_scaled_witness :
  exists wav,
    fst (convertToWav demoDecoder demoClip) = inr wav
    /\ drop 44 (blobBytes wav) = [255; 127; 0; 192; 0; 0]
    /\ getInt16 (blobBytes wav) 44 = Some 32767.
Proof.
  destruct (proj1 (proj2 sample_clamped_then_scaled) demoDecoder demoClip
              [Finite 1; Finite (-1 # 2); NaN] eq_refl)
    as (wav & Hwav & Hbytes & Hsamples).
  exists wav. split; [exact Hwav | ]. split; [exact Hbytes | ].
  exact (Hsamples 0%nat (Finite 1) eq_refl).
Defined.

End WavFacts.

Section DetectorFacts.
Import Detector.

Variable toLowerCase : JsString -> JsString.

Abbreviation differences := (differences toLowerCase).
Abbreviation alreadyExists := (alreadyExists toLowerCase).
Abbreviation singleWordChange := (singleWordChange toLowerCase).
Abbreviation removedWords := (removedWords toLowerCase).
Abbreviation addedWords := (addedWords toLowerCase).
Abbreviation phraseChange := (phraseChange toLowerCase).
Abbreviation detectWordCorrection := (detectWordCorrection toLowerCase).

(** *** Tokens *)

Lemma splitWhiteSpace_pieces (s : JsString) :
  forall (cur : JsString) (inGap : bool) (w : JsString),
    Forall (fun c => isWhiteSpace c = false) cur ->
    In w (splitWhiteSpace cur inGap s) ->
    Forall (fun c => isWhiteSpace c = false) w.
Proof.
  induction s as [ | c s IH]; intros cur inGap w Hcur Hin.
  - destruct Hin as [<- | []]. now apply Forall_rev.
  - cbn [splitWhiteSpace] in Hin. destruct (isWhiteSpace c) eqn:Hc.
    + destruct inGap.
      * apply (IH [] true w); [constructor | exact Hin].
      * destruct Hin as [<- | Hin]; [now apply Forall_rev | ].
        apply (IH [] true w); [constructor | exact Hin].
    + apply (IH (c :: cur) false w); [ | exact Hin].
      constructor; assumption.
Qed.

(** A token is not empty and holds no white space. *)
Lemma tokenize_tokens (text w : JsString) :
  In w (tokenize text) ->
  w <> [] /\ Forall (fun c => isWhiteSpace c = false) w.
Proof.
  unfold tokenize. rewrite filter_In. intros [Hin Hlen]. split.
  - intros ->. discriminate.
  - apply (splitWhiteSpace_pieces text [] false w); [constructor | exact Hin].
Qed.

Lemma tokenize_empty : tokenize [] = [].
Proof. reflexivity. Qed.

(** *** The index loop *)

Lemma JsString_eqb_refl (a : JsString) : JsString_eqb a a = true.
Proof. unfold JsString_eqb. now apply bool_decide_eq_true. Qed.

Lemma differences_same (words : list JsString) : differences words words = [].
Proof.
  induction words as [ | w words IH]; [reflexivity | ].
  cbn [Detector.differences]. now rewrite JsString_eqb_refl.
Qed.

Lemma differences_nil (originalWords : list JsString) :
  forall editedWords,
    length originalWords = length editedWords ->
    differences originalWords editedWords = [] ->
    List.map toLowerCase originalWords = List.map toLowerCase editedWords.
Proof.
  induction originalWords as [ | o ow IH]; intros [ | e ew] Hlen Hdiff;
    try discriminate; [reflexivity | ].
  cbn [Detector.differences] in Hdiff. unfold JsString_eqb in Hdiff.
  case_bool_decide as Heq; [ | discriminate].
  cbn [List.map]. rewrite Heq. f_equal. apply IH; [ | exact Hdiff].
  now injection Hlen.
Qed.

Lemma differences_single (originalWords : list JsString) :
  forall editedWords diff,
    length originalWords = length editedWords ->
    differences originalWords editedWords = [diff] ->
    exists o1 o2 e1 e2,
      originalWords = o1 ++ original diff :: o2
      /\ editedWords = e1 ++ corrected diff :: e2
      /\ List.map toLowerCase o1 = List.map toLowerCase e1
      /\ List.map toLowerCase o2 = List.map toLowerCase e2
      /\ toLowerCase (original diff) <> toLowerCase (corrected diff).
Proof.
  induction originalWords as [ | o ow IH]; intros [ | e ew] diff Hlen Hdiff;
    try discriminate.
  injection Hlen as Hlen.
  cbn [Detector.differences] in Hdiff. unfold JsString_eqb in Hdiff.
  case_bool_decide as Heq; cbn [negb] in Hdiff.
  - destruct (IH ew diff Hlen Hdiff) as (o1 & o2 & e1 & e2 & -> & -> & H1 & H2 & H3).
    exists (o :: o1), o2, (e :: e1), e2. cbn [List.map app].
    rewrite Heq, H1. repeat split; assumption.
  - injection Hdiff as <- Hrest.
    exists [], ow, [], ew. cbn [original corrected app List.map].
    repeat split; try assumption.
    now apply differences_nil.
Qed.

(** *** The two sets *)

Lemma removedWords_In (originalWords editedWords : list JsString)
  (w : JsString) :
  In w (removedWords originalWords editedWords)
  <-> In w originalWords
      /\ ~ In (toLowerCase w) (List.map toLowerCase editedWords).
Proof.
  unfold Detector.removedWords. cbv zeta. rewrite filter_In.
  rewrite negb_true_iff, bool_decide_eq_false, elem_of_list_to_set,
    list_elem_of_In.
  reflexivity.
Qed.

Lemma addedWords_In (originalWords editedWords : list JsString)
  (w : JsString) :
  In w (addedWords originalWords editedWords)
  <-> In w editedWords
      /\ ~ In (toLowerCase w) (List.map toLowerCase originalWords).
Proof.
  unfold Detector.addedWords. cbv zeta. rewrite filter_In.
  rewrite negb_true_iff, bool_decide_eq_false, elem_of_list_to_set,
    list_elem_of_In.
  reflexivity.
Qed.

Lemma removedWords_app (o1 o2 editedWords : list JsString) :
  removedWords (o1 ++ o2) editedWords
  = removedWords o1 editedWords ++ removedWords o2 editedWords.
Proof. unfold Detector.removedWords. cbv zeta. apply List.filter_app. Qed.

(** Words whose lower-case forms all occur on the other side leave
    nothing behind. *)
Lemma removedWords_covered (words editedWords : list JsString) :
  (forall w, In w words ->
             In (toLowerCase w) (List.map toLowerCase editedWords)) ->
  removedWords words editedWords = [].
Proof.
  intros Hall.
  destruct (removedWords words editedWords) as [ | w rest] eqn:Hrem;
    [reflexivity | ].
  assert (Hin : In w (removedWords words editedWords))
    by (rewrite Hrem; now left).
  apply removedWords_In in Hin. destruct Hin as [Hin Hnot].
  exfalso. apply Hnot, Hall, Hin.
Qed.

Lemma map_lower_In (l l' : list JsString) (w : JsString) :
  List.map toLowerCase l = List.map toLowerCase l' ->
  In w l -> In (toLowerCase w) (List.map toLowerCase l').
Proof. intros <- Hin. now apply in_map. Qed.

(** *** The dictionary check *)

Lemma alreadyExists_false (existingDictionary : list Dictionary.DictionaryEntry)
  (word : JsString) :
  alreadyExists existingDictionary word = false
  <-> forall entry, In entry existingDictionary ->
        toLowerCase (Dictionary.original entry) <> toLowerCase word.
Proof.
  unfold Detector.alreadyExists. split.
  - intros Hnone entry Hin Heq.
    assert (Hsome : existsb
              (fun entry => JsString_eqb
                              (toLowerCase (Dictionary.original entry))
                              (toLowerCase word)) existingDictionary = true).
    { apply existsb_exists. exists entry. split; [exact Hin | ].
      unfold JsString_eqb. now apply bool_decide_eq_true. }
    congruence.
  - intros Hall. apply not_true_is_false. intros Hsome.
    apply existsb_exists in Hsome. destruct Hsome as (entry & Hin & Heq).
    unfold JsString_eqb in Heq. apply bool_decide_eq_true in Heq.
    exact (Hall entry Hin Heq).
Qed.

(** *** The two blocks *)

Lemma singleWordChange_Some (originalWords editedWords : list JsString)
  (existingDictionary : list Dictionary.DictionaryEntry)
  (diff : DetectedCorrection) :
  singleWordChange originalWords editedWords existingDictionary = Some diff
  <-> length originalWords = length editedWords
      /\ differences originalWords editedWords = [diff]
      /\ alreadyExists existingDictionary (original diff) = false.
Proof.
  unfold Detector.singleWordChange.
  destruct (Nat.eqb_spec (length originalWords) (length editedWords))
    as [Hlen | Hlen].
  - destruct (differences originalWords editedWords) as [ | d [ | d' rest]].
    + split; [discriminate | intros (_ & H & _); discriminate].
    + destruct (alreadyExists existingDictionary (original d)) eqn:Hex;
        cbn [negb].
      * split; [discriminate | ].
        intros (_ & H & Hno). injection H as ->. congruence.
      * split.
        -- intros H. injection H as ->. repeat split; assumption.
        -- intros (_ & H & _). now injection H as ->.
    + split; [discriminate | intros (_ & H & _); discriminate].
  - split; [discriminate | intros (H & _); contradiction].
Qed.

Lemma singleWordChange_unequal (originalWords editedWords : list JsString)
  (existingDictionary : list Dictionary.DictionaryEntry) :
  length originalWords <> length editedWords ->
  singleWordChange originalWords editedWords existingDictionary = None.
Proof.
  intros Hlen. unfold Detector.singleWordChange.
  now destruct (Nat.eqb_spec (length originalWords) (length editedWords)).
Qed.

Lemma phraseChange_Some (originalWords editedWords : list JsString)
  (existingDictionary : list Dictionary.DictionaryEntry)
  (s : DetectedCorrection) :
  phraseChange originalWords editedWords existingDictionary = Some s
  <-> Z.abs (Z.of_nat (length originalWords)
             - Z.of_nat (length editedWords)) <= 2
      /\ removedWords originalWords editedWords <> []
      /\ exists added,
           addedWords originalWords editedWords = [added]
           /\ s = {| original :=
                       join (js " ") (removedWords originalWords editedWords);
                     corrected := added |}
           /\ alreadyExists existingDictionary
                (join (js " ") (removedWords originalWords editedWords))
              = false
           /\ toLowerCase
                (join (js " ") (removedWords originalWords editedWords))
              <> toLowerCase added.
Proof.
  unfold Detector.phraseChange. cbv zeta.
  destruct (Z.leb_spec
              (Z.abs (Z.of_nat (length originalWords)
                      - Z.of_nat (length editedWords))) 2) as [Hle | Hgt];
    [ | split; [discriminate | intros (H & _); lia]].
  destruct (removedWords originalWords editedWords) as [ | r removed] eqn:Hrem.
  { cbn [length Nat.leb andb].
    split; [discriminate | intros (_ & H & _); contradiction]. }
  change (1 <=? length (r :: removed))%nat with true. cbn [andb].
  destruct (addedWords originalWords editedWords) as [ | a [ | a' added]]
    eqn:Hadd; cbn [length Nat.eqb].
  - split; [discriminate | intros (_ & _ & x & H & _); discriminate].
  - unfold JsString_eqb.
    destruct (alreadyExists existingDictionary (join (js " ") (r :: removed)))
      eqn:Hex; cbn [negb andb].
    + split; [discriminate | ].
      intros (_ & _ & x & _ & _ & H & _). discriminate.
    + case_bool_decide as Heq; cbn [negb].
      * split; [discriminate | ].
        intros (_ & _ & x & Hx & _ & _ & Hne). injection Hx as <-.
        contradiction.
      * split.
        -- intros H. injection H as <-.
           split; [exact Hle | ]. split; [discriminate | ].
           exists a. repeat split; assumption.
        -- intros (_ & _ & x & Hx & -> & _ & _). now injection Hx as <-.
  - split; [discriminate | intros (_ & _ & x & H & _); discriminate].
Qed.

Lemma phraseChange_nothing_removed (originalWords editedWords : list JsString)
  (existingDictionary : list Dictionary.DictionaryEntry) :
  removedWords originalWords editedWords = [] ->
  phraseChange originalWords editedWords existingDictionary = None.
Proof.
  intros Hrem.
  destruct (phraseChange originalWords editedWords existingDictionary)
    as [s | ] eqn:Hs; [ | reflexivity].
  apply phraseChange_Some in Hs. destruct Hs as (_ & Hne & _). contradiction.
Qed.

(** The guard at the head of the function changes nothing: whenever it
    returns, the two blocks would have found nothing either. *)
Lemma detectWordCorrection_blocks (originalText editedText : JsString)
  (existingDictionary : list Dictionary.DictionaryEntry) :
  detectWordCorrection originalText editedText existingDictionary
  = match singleWordChange (tokenize originalText) (tokenize editedText)
            existingDictionary with
    | Some diff => Some diff
    | None => phraseChange (tokenize originalText) (tokenize editedText)
                existingDictionary
    end.
Proof.
  unfold Detector.detectWordCorrection. cbv zeta.
  destruct (negb (truthy originalText) || negb (truthy editedText)
            || JsString_eqb originalText editedText) eqn:Hguard;
    [ | reflexivity].
  assert (Hfirst : singleWordChange (tokenize originalText)
                     (tokenize editedText) existingDictionary = None
                   /\ (removedWords (tokenize originalText)
                         (tokenize editedText) = []
                       \/ addedWords (tokenize originalText)
                            (tokenize editedText) = [])).
  { apply orb_true_iff in Hguard. destruct Hguard as [Hguard | Hsame].
    - apply orb_true_iff in Hguard. destruct Hguard as [Ho | He].
      + destruct originalText; [ | discriminate]. rewrite tokenize_empty.
        split; [ | now left].
        unfold Detector.singleWordChange.
        now destruct (tokenize editedText).
      + destruct editedText; [ | discriminate]. rewrite tokenize_empty.
        split; [ | now right].
        unfold Detector.singleWordChange.
        now destruct (tokenize originalText).
    - unfold JsString_eqb in Hsame. apply bool_decide_eq_true in Hsame.
      subst editedText. split.
      + unfold Detector.singleWordChange.
        rewrite Nat.eqb_refl. now rewrite differences_same.
      + left. apply removedWords_covered. intros w Hin. now apply in_map. }
  destruct Hfirst as [-> Hempty].
  destruct (phraseChange (tokenize originalText) (tokenize editedText)
              existingDictionary) as [s | ] eqn:Hs; [ | reflexivity].
  apply phraseChange_Some in Hs.
  destruct Hs as (_ & Hne & added & Hadd & _).
  destruct Hempty as [Hrem | Hnone]; [contradiction | congruence].
Qed.

(** *** Equal word counts *)

(** With a single differing index, at most the differing word itself
    is missing from the edited side. *)
Lemma removedWords_single (originalWords editedWords : list JsString)
  (diff : DetectedCorrection) :
  length originalWords = length editedWords ->
  differences originalWords editedWords = [diff] ->
  removedWords originalWords editedWords = []
  \/ removedWords originalWords editedWords = [original diff].
Proof.
  intros Hlen Hdiff.
  destruct (differences_single _ _ _ Hlen Hdiff)
    as (o1 & o2 & e1 & e2 & -> & -> & H1 & H2 & _).
  change (original diff :: o2) with ([original diff] ++ o2).
  rewrite !removedWords_app.
  rewrite (removedWords_covered o1), (removedWords_covered o2).
  - rewrite app_nil_r. cbn [app].
    unfold Detector.removedWords. cbv zeta. cbn [List.filter].
    match goal with |- context [negb ?b] => destruct (negb b) end;
      [now right | now left].
  - intros w Hin. rewrite map_app. apply in_or_app. right.
    cbn [List.map]. right. exact (map_lower_In o2 e2 w H2 Hin).
  - intros w Hin. rewrite map_app. apply in_or_app. left.
    exact (map_lower_In o1 e1 w H1 Hin).
Qed.

(** What the detector answers on texts with equally many words: the
    differing pair when a single index differs and the dictionary does
    not know its original; nothing when no index differs, or when a
    single index differs and the dictionary knows its original; and
    whatever the second block finds in all other cases. *)
Lemma equal_counts_cases (originalText editedText : JsString)
  (existingDictionary : list Dictionary.DictionaryEntry) :
  let originalWords := tokenize originalText in
  let editedWords := tokenize editedText in
  length originalWords = length editedWords ->
  match differences originalWords editedWords with
  | [] =>
      detectWordCorrection originalText editedText existingDictionary = None
  | [diff] =>
      detectWordCorrection originalText editedText existingDictionary
      = if alreadyExists existingDictionary (original diff)
        then None else Some diff
  | _ =>
      detectWordCorrection originalText editedText existingDictionary
      = phraseChange originalWords editedWords existingDictionary
  end.
Proof.
  intros originalWords editedWords Hlen.
  rewrite detectWordCorrection_blocks.
  fold originalWords editedWords.
  destruct (differences originalWords editedWords) as [ | diff [ | d' rest]]
    eqn:Hdiff.
  - unfold Detector.singleWordChange. rewrite Hdiff.
    destruct (length originalWords =? length editedWords)%nat;
      apply phraseChange_nothing_removed, removedWords_covered;
      intros w Hin;
      exact (map_lower_In _ _ w (differences_nil _ _ Hlen Hdiff) Hin).
  - destruct (alreadyExists existingDictionary (original diff)) eqn:Hex.
    + unfold Detector.singleWordChange. rewrite Hdiff, Hex.
      assert (Hnone : phraseChange originalWords editedWords
                        existingDictionary = None).
      { destruct (removedWords_single _ _ _ Hlen Hdiff) as [Hrem | Hrem].
        - now apply phraseChange_nothing_removed.
        - destruct (phraseChange originalWords editedWords existingDictionary)
            as [s | ] eqn:Hs; [ | reflexivity].
          apply phraseChange_Some in Hs.
          destruct Hs as (_ & _ & added & _ & _ & Hno & _).
          rewrite Hrem in Hno. cbn [join] in Hno. congruence. }
      rewrite Hnone. now destruct (length originalWords =? length editedWords)%nat.
    + assert (Hsome : singleWordChange originalWords editedWords
                        existingDictionary = Some diff)
        by (apply singleWordChange_Some; repeat split; assumption).
      now rewrite Hsome.
  - unfold Detector.singleWordChange. rewrite Hdiff.
    now destruct (length originalWords =? length editedWords)%nat.
Qed.

(** *** Differing word counts *)

Lemma unequal_counts_second_block (originalText editedText : JsString)
  (existingDictionary : list Dictionary.DictionaryEntry) :
  length (tokenize originalText) <> length (tokenize editedText) ->
  detectWordCorrection originalText editedText existingDictionary
  = phraseChange (tokenize originalText) (tokenize editedText)
      existingDictionary.
Proof.
  intros Hlen. rewrite detectWordCorrection_blocks.
  now rewrite singleWordChange_unequal.
Qed.

End DetectorFacts.

Section DetectorResults.
Import Detector.

(** C5. Two texts of two words each, both of whose words changed:
    ["a b"] edited to ["b c"]. The first block, which handles equal
    word counts, finds two differing indices and returns nothing; the
    second block, headed "Handle case where word count changed", is
    guarded by a distance of the word counts of at most two, which
    equal counts satisfy, and suggests [a -> c]. With more than one
    differing index a suggestion is made all the same. *)
Theorem equal_count_two_changes_suggested :
  length (tokenize (js "a b")) = 2%nat
  /\ length (tokenize (js "b c")) = 2%nat
  /\ differences latin1ToLowerCase (tokenize (js "a b")) (tokenize (js "b c"))
     = [ {| original := js "a"; corrected := js "b" |};
         {| original := js "b"; corrected := js "c" |} ]
  /\ singleWordChange latin1ToLowerCase (tokenize (js "a b"))
       (tokenize (js "b c")) [] = None
  /\ phraseChange latin1ToLowerCase (tokenize (js "a b"))
       (tokenize (js "b c")) []
     = Some {| original := js "a"; corrected := js "c" |}
  /\ detectWordCorrection latin1ToLowerCase (js "a b") (js "b c") []
     = Some {| original := js "a"; corrected := js "c" |}.
Proof.
  rewrite detectWordCorrection_blocks. vm_compute. repeat split.
Qed.

(** C6. When the word counts differ, by one or by two, a correction
    is proposed exactly when some word of the original is missing
    from the edited text (lower-cased) and exactly one word of the
    edited text is missing from the original, the removed words
    joined by single spaces differ from the added word (lower-cased)
    and are the original of no dictionary entry; the proposal maps the
    joined removed words to the added word. In particular
    ["tally dot io"] edited to ["tallie.io"] proposes that pair. *)
Theorem changed_count_suggestion :
  (forall (toLowerCase : JsString -> JsString)
          (originalText editedText : JsString)
          (existingDictionary : list Dictionary.DictionaryEntry)
          (s : DetectedCorrection),
      let originalWords := tokenize originalText in
      let editedWords := tokenize editedText in
      let removed := removedWords toLowerCase originalWords editedWords in
      let added := addedWords toLowerCase originalWords editedWords in
      length originalWords <> length editedWords ->
      Z.abs (Z.of_nat (length originalWords) - Z.of_nat (length editedWords))
      <= 2 ->
      (detectWordCorrection toLowerCase originalText editedText
         existingDictionary = Some s
       <-> (exists w, In w originalWords
                      /\ ~ In (toLowerCase w)
                            (List.map toLowerCase editedWords))
           /\ exists word,
                added = [word]
                /\ s = {| original := join (js " ") removed;
                          corrected := word |}
                /\ toLowerCase (join (js " ") removed) <> toLowerCase word
                /\ forall entry, In entry existingDictionary ->
                     toLowerCase (Dictionary.original entry)
                     <> toLowerCase (join (js " ") removed)))
  /\ detectWordCorrection latin1ToLowerCase (js "tally dot io")
       (js "tallie.io") []
     = Some {| original := js "tally dot io"; corrected := js "tallie.io" |}.
Proof.
  split; [ | vm_compute; reflexivity].
  intros toLowerCase originalText editedText existingDictionary s
    originalWords editedWords removed added Hchanged Hclose.
  rewrite (unequal_counts_second_block toLowerCase _ _ _ Hchanged).
  rewrite phraseChange_Some. fold originalWords editedWords removed added.
  assert (Hremoved :
    removed <> []
    <-> exists w, In w originalWords
                  /\ ~ In (toLowerCase w) (List.map toLowerCase editedWords)).
  { split.
    - intros Hsome. destruct removed as [ | w rest] eqn:Hr; [contradiction | ].
      exists w. apply (removedWords_In toLowerCase). fold removed.
      rewrite Hr. now left.
    - intros (w & Hw) Hnone.
      apply (removedWords_In toLowerCase) in Hw. fold removed in Hw.
      rewrite Hnone in Hw. destruct Hw. }
  split.
  - intros (_ & Hrem & word & Hadd & Hs & Hno & Hne).
    split; [now apply Hremoved | ]. exists word.
    repeat split; try assumption. now apply alreadyExists_false.
  - intros (Hrem & word & Hadd & Hs & Hne & Hno).
    split; [exact Hclose | ]. split; [now apply Hremoved | ]. exists word.
    repeat split; try assumption. now apply alreadyExists_false.
Qed.

(** A stutter removed and a word respelt: five words become four. *)
Lemma changed_count_suggestion_witness :
  detectWordCorrection latin1ToLowerCase (js "I went to to Tally")
    (js "I went to Tallie") []
  = Some {| original := js "Tally"; corrected := js "Tallie" |}.
Proof.
  apply (proj1 changed_count_suggestion).
  - vm_compute. discriminate.
  - vm_compute. discriminate.
  - split.
    + exists (js "Tally"). split; [vm_compute; tauto | ].
      vm_compute. intuition discriminate.
    + exists (js "Tallie"). split; [vm_compute; reflexivity | ].
      split; [vm_compute; reflexivity | ].
      split; [vm_compute; discriminate | ].
      intros entry [].
Defined.

End DetectorResults.

Section PostProcessingFacts.
Import PostProcessing.

Lemma postProcessTranscription_requests
  (create : ChatRequest -> ChatOutcome) (text apiKey : JsString)
  (options : OptionsObject) :
  let request :=
    {| req_apiKey := apiKey; req_model := js "llama-3.3-70b-versatile";
       req_system := instructions options; req_user := text;
       req_temperature := 1 # 10; req_max_tokens := 1024 |} in
  snd (postProcessTranscription create text apiKey options) = []
  \/ snd (postProcessTranscription create text apiKey options)
     = Create request
       :: match create request with
          | Rejects error => [ConsoleError error]
          | Responds _ => []
          end.
Proof.
  cbv zeta. unfold postProcessTranscription.
  destruct (negb (existsb (fun v => v) (Object_values options)));
    [now left | right].
  now destruct (create _) as [e | [content | ]].
Qed.

Lemma postProcessTranscription_failed
  (create : ChatRequest -> ChatOutcome) (text apiKey : JsString)
  (options : OptionsObject) :
  (forall request, cleanupFailed (create request)) ->
  fst (postProcessTranscription create text apiKey options) = text.
Proof.
  intros Hfail. unfold postProcessTranscription.
  destruct (negb (existsb (fun v => v) (Object_values options)));
    [reflexivity | ].
  match goal with |- context [create ?r] => specialize (Hfail r);
    destruct (create r) as [e | [content | ]] end;
    cbn [fst]; try reflexivity.
  cbn [cleanupFailed] in Hfail. now rewrite Hfail.
Qed.

(** The entries of the dictionary are never read: the property only
    counts as one more truthy value of the options object. *)
Lemma postProcessTranscription_dictionary_unread
  (create : ChatRequest -> ChatOutcome) (text apiKey : JsString)
  (options : PostProcessingOptions)
  (entries entries' : list Dictionary.DictionaryEntry) :
  postProcessTranscription create text apiKey
    {| flags := options; dictionary := Some entries |}
  = postProcessTranscription create text apiKey
      {| flags := options; dictionary := Some entries' |}.
Proof. reflexivity. Qed.

(** With the [dictionary] property present the early return is never
    taken. *)
Lemma postProcessTranscription_dictionary_requests
  (create : ChatRequest -> ChatOutcome) (text apiKey : JsString)
  (options : PostProcessingOptions)
  (entries : list Dictionary.DictionaryEntry) :
  snd (postProcessTranscription create text apiKey
         {| flags := options; dictionary := Some entries |}) <> [].
Proof.
  unfold postProcessTranscription.
  replace (existsb (fun v => v)
             (Object_values {| flags := options; dictionary := Some entries |}))
    with true.
  - cbn [negb]. now destruct (create _) as [e | [content | ]].
  - symmetry. apply existsb_exists. exists true. split; [ | reflexivity].
    unfold Object_values. apply in_or_app. right. now left.
Qed.

(** With the [dictionary] property present and the remote cleanup
    failing, one request is issued, a rejection is logged, and the
    text comes back. *)
Lemma postProcessTranscription_failed_once
  (create : ChatRequest -> ChatOutcome) (text apiKey : JsString)
  (options : PostProcessingOptions)
  (entries : list Dictionary.DictionaryEntry) :
  let request :=
    {| req_apiKey := apiKey; req_model := js "llama-3.3-70b-versatile";
       req_system :=
         instructions {| flags := options; dictionary := Some entries |};
       req_user := text;
       req_temperature := 1 # 10; req_max_tokens := 1024 |} in
  (forall request, cleanupFailed (create request)) ->
  postProcessTranscription create text apiKey
    {| flags := options; dictionary := Some entries |}
  = (text,
     Create request
     :: match create request with
        | Rejects error => [ConsoleError error]
        | Responds _ => []
        end).
Proof.
  intros request Hfail. subst request.
  pose proof (postProcessTranscription_failed create text apiKey
                {| flags := options; dictionary := Some entries |} Hfail)
    as Hfst.
  pose proof (postProcessTranscription_dictionary_requests create text apiKey
                options entries) as Hsome.
  destruct (postProcessTranscription_requests create text apiKey
              {| flags := options; dictionary := Some entries |})
    as [Hnone | Hone].
  - contradiction.
  - destruct (postProcessTranscription create text apiKey
                {| flags := options; dictionary := Some entries |})
      as [result effects].
    cbn [fst snd] in Hfst, Hone. now subst.
Qed.

(** C10. With the six flags all false the text comes back as it is
    and no request is issued. *)
Theorem postProcessTranscription_all_disabled
  (create : ChatRequest -> ChatOutcome) (text apiKey : JsString)
  (options : PostProcessingOptions) :
  removeFillerWords options = false ->
  removeFalseStarts options = false ->
  fixPunctuation options = false ->
  fixCapitalization options = false ->
  fixGrammar options = false ->
  smartFormatting options = false ->
  postProcessTranscription create text apiKey (declared options) = (text, []).
Proof.
  intros H1 H2 H3 H4 H5 H6. unfold postProcessTranscription, Object_values.
  cbn [declared flags dictionary].
  now rewrite H1, H2, H3, H4, H5, H6.
Qed.

Lemma postProcessTranscription_all_disabled_witness :
  postProcessTranscription
    (fun request => Responds (Some (js "Hello.")))
    (js "um hello") (js "gsk_key")
    (declared {| removeFillerWords := false; removeFalseStarts := false;
                 fixPunctuation := false; fixCapitalization := false;
                 fixGrammar := false; smartFormatting := false |})
  = (js "um hello", []).
Proof.
  apply postProcessTranscription_all_disabled; reflexivity.
Defined.

End PostProcessingFacts.

Section WordStatsFacts.
Import WordStats.

Lemma monthChanged_true (store : gmap string StoreValue) (now : Date) :
  store !! "wordCountMonth"%string <> Some (VString (currentMonth now)) ->
  monthChanged store now = true.
Proof.
  intros Hne. unfold monthChanged.
  destruct (store !! "wordCountMonth"%string) as [[m | n] | ]; try reflexivity.
  apply negb_true_iff, String.eqb_neq. congruence.
Qed.

Lemma monthChanged_false (store : gmap string StoreValue) (now : Date) :
  store !! "wordCountMonth"%string = Some (VString (currentMonth now)) ->
  monthChanged store now = false.
Proof.
  intros Heq. unfold monthChanged. rewrite Heq.
  apply negb_false_iff, String.eqb_refl.
Qed.

(** Within the stored month nothing is reset: the call adds to the
    running sums. *)
Lemma add_words_same_month (store : gmap string StoreValue) (now : Date)
  (wordCount : Z) :
  store !! "wordCountMonth"%string = Some (VString (currentMonth now)) ->
  fst (add_words now wordCount store)
  = {| wordsThisMonth := getNumber store "wordsThisMonth" + wordCount;
       wordsTotal := getNumber store "wordsTotal" + wordCount |}
  /\ snd (add_words now wordCount store)
     = <["wordsTotal"%string :=
           VNumber (getNumber store "wordsTotal" + wordCount)]>
         (<["wordsThisMonth"%string :=
              VNumber (getNumber store "wordsThisMonth" + wordCount)]> store).
Proof.
  intros Hsame. unfold add_words, resetIfNewMonth.
  rewrite (monthChanged_false store now Hsame). split; reflexivity.
Qed.

Lemma add_words_new_month (store : gmap string StoreValue) (now : Date)
  (wordCount : Z) :
  store !! "wordCountMonth"%string <> Some (VString (currentMonth now)) ->
  fst (add_words now wordCount store)
  = {| wordsThisMonth := wordCount;
       wordsTotal := getNumber store "wordsTotal" + wordCount |}
  /\ snd (add_words now wordCount store)
     = <["wordsTotal"%string :=
           VNumber (getNumber store "wordsTotal" + wordCount)]>
         (<["wordsThisMonth"%string := VNumber wordCount]>
            (<["wordsThisMonth"%string := VNumber 0]>
               (<["wordCountMonth"%string := VString (currentMonth now)]>
                  store))).
Proof.
  intros Hnew. unfold add_words, resetIfNewMonth.
  rewrite (monthChanged_true store now Hnew). cbv zeta.
  assert (Hmonthly :
    getNumber (<["wordsThisMonth"%string := VNumber 0]>
                 (<["wordCountMonth"%string := VString (currentMonth now)]>
                    store)) "wordsThisMonth" = 0).
  { unfold getNumber. now rewrite lookup_insert_eq. }
  assert (Htotal :
    getNumber (<["wordsThisMonth"%string := VNumber 0]>
                 (<["wordCountMonth"%string := VString (currentMonth now)]>
                    store)) "wordsTotal" = getNumber store "wordsTotal").
  { unfold getNumber. now rewrite !lookup_insert_ne by discriminate. }
  rewrite Hmonthly, Htotal. cbn [fst snd]. split; reflexivity.
Qed.

(** C9. When the stored month key is not the current month, the call
    returns the word count itself as this month's count and the
    previous total plus the word count as the total; a further call
    in the same month adds to both. *)
Theorem add_words_month_rollover (store : gmap string StoreValue)
  (now : Date) (wordCount : Z) :
  store !! "wordCountMonth"%string <> Some (VString (currentMonth now)) ->
  let '(stats, store') := add_words now wordCount store in
  wordsThisMonth stats = wordCount
  /\ wordsTotal stats = getNumber store "wordsTotal" + wordCount
  /\ store' !! "wordCountMonth"%string = Some (VString (currentMonth now))
  /\ forall (later : Date) (wordCount' : Z),
       currentMonth later = currentMonth now ->
       let '(stats', store'') := add_words later wordCount' store' in
       wordsThisMonth stats' = wordCount + wordCount'
       /\ wordsTotal stats'
          = getNumber store "wordsTotal" + wordCount + wordCount'
       /\ store'' !! "wordCountMonth"%string
          = Some (VString (currentMonth now)).
Proof.
  intros Hnew.
  destruct (add_words_new_month store now wordCount Hnew) as [Hstats Hstore].
  destruct (add_words now wordCount store) as [stats store'].
  cbn [fst snd] in Hstats, Hstore. subst stats.
  cbn [wordsThisMonth wordsTotal].
  assert (Hmonth : store' !! "wordCountMonth"%string
                   = Some (VString (currentMonth now))).
  { subst store'. rewrite !lookup_insert_ne by discriminate.
    apply lookup_insert_eq. }
  split; [reflexivity | ]. split; [reflexivity | ]. split; [exact Hmonth | ].
  intros later wordCount' Hlater.
  assert (Hsame : store' !! "wordCountMonth"%string
                  = Some (VString (currentMonth later)))
    by now rewrite Hlater.
  destruct (add_words_same_month store' later wordCount' Hsame)
    as [Hstats' Hstore'].
  destruct (add_words later wordCount' store') as [stats' store''].
  cbn [fst snd] in Hstats', Hstore'. subst stats' store''.
  cbn [wordsThisMonth wordsTotal].
  assert (Hmonthly : getNumber store' "wordsThisMonth" = wordCount).
  { subst store'. unfold getNumber.
    rewrite lookup_insert_ne by discriminate. now rewrite lookup_insert_eq. }
  assert (Htotal : getNumber store' "wordsTotal"
                   = getNumber store "wordsTotal" + wordCount).
  { subst store'. unfold getNumber at 1. now rewrite lookup_insert_eq. }
  rewrite Hmonthly, Htotal. split; [reflexivity | ]. split; [reflexivity | ].
  rewrite !lookup_insert_ne by discriminate. exact Hmonth.
Qed.

(** 120 words were counted in October 2026; then 7 and 5 words are
    added in November. *)
Lemma add_words_month_rollover_witness :
  wordsThisMonth (fst (add_words november 7 octoberStore)) = 7
  /\ wordsTotal (fst (add_words november 7 octoberStore)) = 1007
  /\ wordsThisMonth
       (fst (add_words november 5 (snd (add_words november 7 octoberStore))))
     = 12
  /\ wordsTotal
       (fst (add_words november 5 (snd (add_words november 7 octoberStore))))
     = 1012.
Proof.
  pose proof (add_words_month_rollover octoberStore november 7) as H.
  destruct (add_words november 7 octoberStore) as [stats store'].
  destruct H as (H1 & H2 & _ & Hnext).
  { vm_compute. discriminate. }
  cbn [fst snd]. split; [exact H1 | ]. split; [exact H2 | ].
  specialize (Hnext november 5 eq_refl).
  destruct (add_words november 5 store') as [stats' store''].
  destruct Hnext as (H3 & H4 & _). split; [exact H3 | exact H4].
Defined.

End WordStatsFacts.

Section OverlayFacts.
Import Overlay.

(** *** What the handler leaves alone *)

Lemma framed_mret {A} (a : A) : framed (mret a : M A).
Proof. intros st. split; reflexivity. Qed.

Lemma framed_mbind {A B} (m : M A) (f : A -> M B) :
  framed m -> (forall a, framed (f a)) -> framed (m ≫= f).
Proof.
  intros Hm Hf st. unfold mbind, M_bind.
  specialize (Hm st). destruct (m st) as [[e | a] st1]; cbn [snd] in *.
  - exact Hm.
  - destruct (Hf a st1) as [H1 H2]. destruct Hm as [H3 H4].
    split; congruence.
Qed.

Lemma framed_throw {A} (e : Exn) : framed (throw e : M A).
Proof. intros st. split; reflexivity. Qed.

Lemma framed_settle {A} (outcome : Exn + A) : framed (settle outcome).
Proof. intros st. split; reflexivity. Qed.

Lemma framed_emit (ev : Event) : framed (emit ev).
Proof. intros st. split; reflexivity. Qed.

Lemma framed_getRefs : framed getRefs.
Proof. intros st. split; reflexivity. Qed.

Lemma framed_await {A} (ev : Event) (outcome : Exn + A) :
  framed (await ev outcome).
Proof.
  unfold await. apply framed_mbind; [apply framed_emit | ].
  intros _. apply framed_settle.
Qed.

Lemma framed_setError (value : option JsString) : framed (setError value).
Proof.
  unfold setError. apply framed_mbind; [apply framed_emit | ].
  intros _ st. split; reflexivity.
Qed.

Lemma framed_setIsProcessing (value : bool) : framed (setIsProcessing value).
Proof.
  unfold setIsProcessing. apply framed_mbind; [apply framed_emit | ].
  intros _ st. split; reflexivity.
Qed.

Lemma framed_try_catch {A} (body : M A) (handler : Exn -> M A) :
  framed body -> (forall e, framed (handler e)) ->
  framed (try_catch body handler).
Proof.
  intros Hbody Hhandler st. unfold try_catch.
  specialize (Hbody st). destruct (body st) as [[e | a] st1]; cbn [snd] in *.
  - destruct (Hhandler e st1) as [H1 H2]. destruct Hbody as [H3 H4].
    split; congruence.
  - exact Hbody.
Qed.

Create HintDb framed.

#[local] Hint Resolve framed_mret framed_throw framed_settle framed_emit
  framed_getRefs framed_await framed_setError framed_setIsProcessing
  : framed.

Ltac framed_step :=
  first
    [ solve [ auto with framed ]
    | match goal with
      | |- framed (if ?b then _ else _) => destruct b
      | |- framed (let '(_, _) := ?p in _) => destruct p
      end
    | apply framed_try_catch; [ | intros ? ]
    | apply framed_mbind; [ | intros ? ] ].

Lemma framed_postProcess (env : Env) (settings : Settings) (text : JsString) :
  framed (postProcess env settings text).
Proof.
  unfold postProcess. repeat framed_step.
  match goal with |- framed (foldr _ _ ?effects) =>
    induction effects as [ | [request | error] effects IH] end;
    cbn [foldr]; repeat framed_step.
Qed.

Lemma framed_deliver (env : Env) (settings : Settings) (text : JsString) :
  framed (deliver env settings text).
Proof. unfold deliver. repeat framed_step. Qed.

#[local] Hint Resolve framed_postProcess framed_deliver : framed.

Lemma framed_tryBlock (env : Env) (mimeType : JsString) :
  framed (tryBlock env mimeType).
Proof. unfold tryBlock. repeat framed_step. Qed.

Lemma framed_catchBlock (err : Exn) : framed (catchBlock err).
Proof. unfold catchBlock. repeat framed_step. Qed.

(** Whatever the [try] block throws is caught, and the [catch] block
    does not throw. *)
Lemma returns_try_catch (env : Env) (mimeType : JsString) :
  returns (try_catch (tryBlock env mimeType) catchBlock).
Proof.
  intros st. unfold try_catch.
  destruct (tryBlock env mimeType st) as [[e | []] st1]; exists tt;
    reflexivity.
Qed.

(** *** The [finally] block *)

(** Around any body that leaves refs and devices alone and does not
    throw, the handler ends with the tracks of its stream stopped, its
    audio context closed and its refs cleared. *)
Lemma finally_releases (body : M unit) :
  framed body -> returns body ->
  forall st,
    let '(r, st') :=
      (setIsProcessing true;; setError None;; try_finally body finallyBlock)
        st in
    r = inr tt
    /\ isProcessing st' = false
    /\ refs st'
       = {| mediaRecorderRef := false; chunksRef := []; streamRef := None;
            audioContextRef := None; analyserRef := false;
            dataArrayRef := false;
            dictionaryRef := dictionaryRef (refs st) |}
    /\ liveStreams (devices st')
       = match streamRef (refs st) with
         | Some stream => liveStreams (devices st) ∖ {[stream]}
         | None => liveStreams (devices st)
         end
    /\ openContexts (devices st')
       = match audioContextRef (refs st) with
         | Some context => openContexts (devices st) ∖ {[context]}
         | None => openContexts (devices st)
         end.
Proof.
  intros Hframed Hreturns st.
  unfold finallyBlock, setIsProcessing, setError, release, emit, modify,
    try_finally, mbind, M_bind.
  cbn [isProcessing error refs devices events].
  match goal with |- context [body ?st2] =>
    destruct (Hframed st2) as [Hrefs Hdevices];
    destruct (Hreturns st2) as [[] Hreturn];
    destruct (body st2) as [r st3]
  end.
  cbn [fst snd refs devices] in Hrefs, Hdevices, Hreturn. subst r.
  cbn [isProcessing error refs devices events].
  rewrite Hrefs, Hdevices. repeat split.
Qed.

Lemma onstop_releases (env : Env) (mimeType : JsString) (st : State) :
  let '(r, st') := onstop env mimeType st in
  r = inr tt
  /\ isProcessing st' = false
  /\ refs st'
     = {| mediaRecorderRef := false; chunksRef := []; streamRef := None;
          audioContextRef := None; analyserRef := false;
          dataArrayRef := false;
          dictionaryRef := dictionaryRef (refs st) |}
  /\ liveStreams (devices st')
     = match streamRef (refs st) with
       | Some stream => liveStreams (devices st) ∖ {[stream]}
       | None => liveStreams (devices st)
       end
  /\ openContexts (devices st')
     = match audioContextRef (refs st) with
       | Some context => openContexts (devices st) ∖ {[context]}
       | None => openContexts (devices st)
       end.
Proof.
  apply finally_releases.
  - apply framed_try_catch; [apply framed_tryBlock | apply framed_catchBlock].
  - apply returns_try_catch.
Qed.

(** On every path of the overlay's handler the stream it holds is
    stopped and the audio context it holds is closed. *)
Lemma onstop_device_released (env : Env) (mimeType : JsString) (st : State)
  (stream context : nat) :
  streamRef (refs st) = Some stream ->
  audioContextRef (refs st) = Some context ->
  (stream ∉ liveStreams (devices (snd (onstop env mimeType st))))
  /\ (context ∉ openContexts (devices (snd (onstop env mimeType st))))
  /\ fst (onstop env mimeType st) = inr tt.
Proof.
  intros Hstream Hcontext.
  pose proof (onstop_releases env mimeType st) as H.
  destruct (onstop env mimeType st) as [r st'].
  destruct H as (Hr & _ & _ & Hlive & Hopen).
  rewrite Hstream in Hlive. rewrite Hcontext in Hopen.
  cbn [fst snd]. rewrite Hlive, Hopen.
  split; [ | split; [ | exact Hr]];
    intros Hin; apply elem_of_difference in Hin as [_ Hin];
    apply Hin, elem_of_singleton; reflexivity.
Qed.

(** *** Runs of the handler *)

Ltac unfold_handler :=
  unfold onstop, tryBlock, catchBlock, finallyBlock, deliver, try_finally,
    try_catch, setIsProcessing, setError, await, emit, settle, modify,
    getRefs, release, throw, mbind, mret, M_bind, M_ret.

Ltac step_handler :=
  cbn [isProcessing error refs devices events chunksRef fst snd
       length Nat.eqb negb andb].

(** No chunk was buffered. *)
Lemma onstop_no_audio (env : Env) (mimeType : JsString) (st : State) :
  chunksRef (refs st) = [] ->
  events (snd (onstop env mimeType st))
  = events st
    ++ [SetIsProcessing true; SetError None; SetError (Some (js "No audio"));
        ConsoleError; SetError (Some (js "No audio data c"));
        ClearErrorAfter 3000; SetIsProcessing false; RecordingStopped]
  /\ error (snd (onstop env mimeType st)) = Some (js "No audio data c")
  /\ isProcessing (snd (onstop env mimeType st)) = false.
Proof.
  intros Hchunks. destruct st as [ip err r d evs]. cbn [refs] in Hchunks.
  unfold_handler. step_handler. rewrite Hchunks. step_handler.
  change (shortMessage (Error "No audio data collected"))
    with (js "No audio data c").
  rewrite <- !app_assoc. repeat split.
Qed.

(** Chunks were buffered, and they add up to less than 100 bytes. *)
Lemma onstop_too_short (env : Env) (mimeType : JsString) (st : State) :
  chunksRef (refs st) <> [] ->
  (blobSize (new_Blob (chunksRef (refs st)) mimeType) < 100)%nat ->
  events (snd (onstop env mimeType st))
  = events st
    ++ [SetIsProcessing true; SetError None; SetError (Some (js "Too short"));
        ConsoleError; SetError (Some (js "Audio too short"));
        ClearErrorAfter 3000; SetIsProcessing false; RecordingStopped]
  /\ error (snd (onstop env mimeType st)) = Some (js "Audio too short")
  /\ isProcessing (snd (onstop env mimeType st)) = false.
Proof.
  intros Hchunks Hsize. destruct st as [ip err r d evs].
  cbn [refs] in Hchunks, Hsize.
  apply Nat.ltb_lt in Hsize.
  unfold_handler. step_handler.
  destruct (chunksRef r) as [ | chunk chunks] eqn:Hr; [contradiction | ].
  step_handler. rewrite Hsize. step_handler.
  change (shortMessage (Error "Audio too short"))
    with (js "Audio too short").
  rewrite <- !app_assoc. repeat split.
Qed.

(** The clip is long enough, the key is set, the transcript is not
    blank, post-processing is enabled and the remote cleanup fails;
    the counters, the history and the paste answer. *)
Lemma onstop_cleanup_failed (env : Env) (mimeType : JsString) (st : State)
  (settings : Settings) (text : JsString) (pasted : bool) :
  let audioBlob := new_Blob (chunksRef (refs st)) mimeType in
  let wordCount :=
    Z.of_nat (length (List.filter (fun w => (0 <? length w)%nat)
                        (split_ws (trim text)))) in
  let request :=
    {| PostProcessing.req_apiKey := apiKey settings;
       PostProcessing.req_model := js "llama-3.3-70b-versatile";
       PostProcessing.req_system :=
         PostProcessing.instructions
           {| PostProcessing.flags :=
                {| PostProcessing.removeFillerWords :=
                     removeFillerWords settings;
                   PostProcessing.removeFalseStarts :=
                     removeFalseStarts settings;
                   PostProcessing.fixPunctuation := fixPunctuation settings;
                   PostProcessing.fixCapitalization := true;
                   PostProcessing.fixGrammar := fixGrammar settings;
                   PostProcessing.smartFormatting := false |};
              PostProcessing.dictionary := Some (dictionaryRef (refs st)) |};
       PostProcessing.req_user := text;
       PostProcessing.req_temperature := 1 # 10;
       PostProcessing.req_max_tokens := 1024 |} in
  chunksRef (refs st) <> [] ->
  (100 <= blobSize audioBlob)%nat ->
  getSettings env = inr settings ->
  truthy (apiKey settings) = true ->
  aiPostProcessing settings = true ->
  transcribeAudio env audioBlob (apiKey settings) = inr text ->
  nonBlank text = true ->
  (forall request, PostProcessing.cleanupFailed (chatCompletion env request)) ->
  (forall n, addWords env n = inr tt) ->
  (forall record, addToHistory env record = inr tt) ->
  typeText env text = inr pasted ->
  fst (onstop env mimeType st) = inr tt
  /\ error (snd (onstop env mimeType st)) = None
  /\ events (snd (onstop env mimeType st))
     = events st
       ++ [SetIsProcessing true; SetError None; GetSettings;
           TranscribeAudio audioBlob (apiKey settings);
           ChatCompletion request]
       ++ match chatCompletion env request with
          | PostProcessing.Rejects _ => [ConsoleError]
          | PostProcessing.Responds _ => []
          end
       ++ (if 0 <? wordCount
           then AddWords wordCount
                :: (if incognitoMode settings then []
                    else [AddToHistory
                            {| id := Date_now env; text := trim text;
                               timestamp := Date_now_again env;
                               wordCount := wordCount |}])
           else [])
       ++ [TypeText text]
       ++ (if pasted then [] else [ConsoleWarn])
       ++ [SetIsProcessing false; RecordingStopped].
Proof.
  intros audioBlob wordCount request Hchunks Hsize Hsettings Hkey Hai Htext
    Hblank Hfail Hwords Hhistory Hpaste.
  subst audioBlob wordCount request.
  destruct st as [ip err r d evs]. cbn [refs] in *.
  assert (Hlong : (blobSize (new_Blob (chunksRef r) mimeType) <? 100)%nat
                  = false) by (apply Nat.ltb_ge; exact Hsize).
  unfold_handler. unfold postProcess. unfold_handler. step_handler.
  destruct (chunksRef r) as [ | chunk chunks] eqn:Hr; [contradiction | ].
  step_handler. rewrite Hlong. step_handler.
  rewrite Hsettings. step_handler. rewrite Hkey. step_handler.
  rewrite Htext. step_handler. rewrite Hai, Hblank. step_handler.
  pose proof (postProcessTranscription_failed_once (chatCompletion env)
                text (apiKey settings)
                {| PostProcessing.removeFillerWords :=
                     removeFillerWords settings;
                   PostProcessing.removeFalseStarts :=
                     removeFalseStarts settings;
                   PostProcessing.fixPunctuation := fixPunctuation settings;
                   PostProcessing.fixCapitalization := true;
                   PostProcessing.fixGrammar := fixGrammar settings;
                   PostProcessing.smartFormatting := false |}
                (dictionaryRef r) Hfail) as Honce.
  cbv zeta in Honce. rewrite Honce. clear Honce.
  match goal with
  | |- context [chatCompletion env ?request] =>
      destruct (chatCompletion env request) as [rejected | answered]
  end; cbn [foldr]; step_handler; rewrite Hblank;
    (destruct (0 <? Z.of_nat (length (List.filter
                                        (fun w => (0 <? length w)%nat)
                                        (split_ws (trim text))))) eqn:Hcount;
     step_handler;
     [ rewrite Hwords; step_handler;
       destruct (incognitoMode settings); step_handler;
       rewrite ?Hhistory; step_handler; rewrite Hpaste; step_handler;
       destruct pasted; step_handler;
       (split; [reflexivity | split; [reflexivity | ]]);
       rewrite <- !app_assoc; reflexivity
     | rewrite Hpaste; step_handler;
       destruct pasted; step_handler;
       (split; [reflexivity | split; [reflexivity | ]]);
       rewrite <- !app_assoc; reflexivity ]).
Qed.

(** *** A failing cleanup, an empty clip *)

(** C3. When the remote cleanup fails (the call rejects, the answer
    has no content, or its content trims to the empty string),
    [postProcessTranscription] returns its input; and the overlay,
    with post-processing enabled, goes on to deliver that very text:
    [typeText] is called with it, the handler returns normally, the
    error state stays empty and no error is set during the run. *)
Theorem cleanup_failure_not_fatal :
  (forall (create : PostProcessing.ChatRequest -> PostProcessing.ChatOutcome)
          (text apiKey : JsString)
          (options : PostProcessing.OptionsObject),
      (forall request, PostProcessing.cleanupFailed (create request)) ->
      fst (PostProcessing.postProcessTranscription create text apiKey options)
      = text)
  /\ (forall (env : Env) (mimeType : JsString) (st : State)
             (settings : Settings) (text : JsString) (pasted : bool),
        let audioBlob := new_Blob (chunksRef (refs st)) mimeType in
        chunksRef (refs st) <> [] ->
        (100 <= blobSize audioBlob)%nat ->
        getSettings env = inr settings ->
        truthy (apiKey settings) = true ->
        aiPostProcessing settings = true ->
        transcribeAudio env audioBlob (apiKey settings) = inr text ->
        nonBlank text = true ->
        (forall request,
            PostProcessing.cleanupFailed (chatCompletion env request)) ->
        (forall n, addWords env n = inr tt) ->
        (forall record, addToHistory env record = inr tt) ->
        typeText env text = inr pasted ->
        fst (onstop env mimeType st) = inr tt
        /\ error (snd (onstop env mimeType st)) = None
        /\ exists before after,
             events (snd (onstop env mimeType st))
             = events st ++ before ++ [TypeText text] ++ after
             /\ (forall value, ~ In (SetError (Some value)) before)
             /\ (forall value, ~ In (SetError (Some value)) after)).
Proof.
  split; [exact postProcessTranscription_failed | ].
  intros env mimeType st settings text pasted audioBlob Hchunks Hsize
    Hsettings Hkey Hai Htext Hblank Hfail Hwords Hhistory Hpaste.
  destruct (onstop_cleanup_failed env mimeType st settings text pasted
              Hchunks Hsize Hsettings Hkey Hai Htext Hblank Hfail Hwords
              Hhistory Hpaste) as (Hreturn & Herror & Hevents).
  split; [exact Hreturn | ]. split; [exact Herror | ].
  rewrite Hevents.
  match goal with
  | |- context [events st ++ ?a ++ ?l ++ ?b ++ [TypeText text] ++ ?c ++ ?d] =>
      exists (a ++ l ++ b), (c ++ d)
  end.
  split.
  - rewrite <- !app_assoc. reflexivity.
  - split; intros value Hin; apply in_app_or in Hin;
      destruct Hin as [Hin | Hin].
    + cbn [In] in Hin. intuition discriminate.
    + apply in_app_or in Hin. destruct Hin as [Hin | Hin].
      * destruct (chatCompletion env _); cbn [In] in Hin;
          intuition discriminate.
      * destruct (0 <? _); cbn [In] in Hin; [ | contradiction].
        destruct (incognitoMode settings); cbn [In] in Hin;
          intuition discriminate.
    + destruct pasted; cbn [In] in Hin; intuition discriminate.
    + cbn [In] in Hin. intuition discriminate.
Qed.

(** A clip of 110 bytes, [um teh cat] transcribed, and a cleanup
    service that answers 503. *)
Lemma cleanup_failure_not_fatal_witness :
  fst (onstop demoEnv (js "audio/webm")
         (demoState [demoChunk 50; demoChunk 60] [])) = inr tt
  /\ error (snd (onstop demoEnv (js "audio/webm")
                   (demoState [demoChunk 50; demoChunk 60] []))) = None.
Proof.
  destruct (proj2 cleanup_failure_not_fatal demoEnv (js "audio/webm")
              (demoState [demoChunk 50; demoChunk 60] []) demoSettings
              (js "um teh cat") true) as (Hreturn & Herror & _).
  - discriminate.
  - vm_compute. lia.
  - reflexivity.
  - reflexivity.
  - reflexivity.
  - reflexivity.
  - reflexivity.
  - intros request. exact I.
  - reflexivity.
  - reflexivity.
  - reflexivity.
  - split; [exact Hreturn | exact Herror].
Defined.

(** C8. A session stops with no chunk buffered. The handler sets the
    error ["No audio"], throws, and its catch block sets the error
    again, to the first fifteen characters of the message thrown: the
    overlay ends on the error ["No audio data c"]. A session whose
    only chunk has 50 bytes ends on ["Audio too short"] in the same
    way, not on ["Too short"]. No request is made: each run consists
    of the eight events listed. *)
Theorem onstop_no_audio_label :
  error (snd (onstop demoEnv (js "audio/webm") (demoState [] [])))
  = Some (js "No audio data c")
  /\ error (snd (onstop demoEnv (js "audio/webm") (demoState [] [])))
     <> Some (js "No audio")
  /\ events (snd (onstop demoEnv (js "audio/webm") (demoState [] [])))
     = [SetIsProcessing true; SetError None; SetError (Some (js "No audio"));
        ConsoleError; SetError (Some (js "No audio data c"));
        ClearErrorAfter 3000; SetIsProcessing false; RecordingStopped]
  /\ error (snd (onstop demoEnv (js "audio/webm")
                   (demoState [demoChunk 50] [])))
     = Some (js "Audio too short")
  /\ error (snd (onstop demoEnv (js "audio/webm")
                   (demoState [demoChunk 50] [])))
     <> Some (js "Too short")
  /\ events (snd (onstop demoEnv (js "audio/webm")
                    (demoState [demoChunk 50] [])))
     = [SetIsProcessing true; SetError None; SetError (Some (js "Too short"));
        ConsoleError; SetError (Some (js "Audio too short"));
        ClearErrorAfter 3000; SetIsProcessing false; RecordingStopped].
Proof.
  destruct (onstop_no_audio demoEnv (js "audio/webm") (demoState [] [])
              eq_refl) as (Hevents & Herror & _).
  rewrite Herror, Hevents. split; [reflexivity | ].
  split; [discriminate | ]. split; [reflexivity | ].
  destruct (onstop_too_short demoEnv (js "audio/webm")
              (demoState [demoChunk 50] []))
    as (Hevents' & Herror' & _).
  - discriminate.
  - vm_compute. lia.
  - rewrite Herror', Hevents'. split; [reflexivity | ].
    split; [discriminate | reflexivity].
Qed.

End OverlayFacts.

Section HookFacts.
Import Hook.

(** When the clip decodes, the handler of the hook stops the tracks of
    its stream. *)
Lemma hook_onstop_decoded (decodeAudioData : list Z -> Exn + Wav.AudioBuffer)
  (mimeType : JsString) (st : State) (audioBuffer : Wav.AudioBuffer)
  (stream : nat) :
  decodeAudioData (blobBytes (new_Blob (chunksRef st) mimeType))
  = inr audioBuffer ->
  streamRef st = Some stream ->
  fst (onstop decodeAudioData mimeType st) = inr tt
  /\ streamRef (snd (onstop decodeAudioData mimeType st)) = None
  /\ (stream ∉ liveStreams (snd (onstop decodeAudioData mimeType st))).
Proof.
  intros Hdecode Hstream. unfold onstop, Wav.convertToWav.
  rewrite Hdecode.
  pose proof (encode_closed_form audioBuffer) as Hform. cbv zeta in Hform.
  rewrite Hform. cbn [fst snd streamRef liveStreams]. rewrite Hstream.
  split; [reflexivity | ]. split; [reflexivity | ].
  intros Hin. apply elem_of_difference in Hin as [_ Hin].
  apply Hin, elem_of_singleton. reflexivity.
Qed.

(** When the decoder rejects the clip, the handler throws before its
    clean-up statements: the stream is as it was. *)
Lemma hook_onstop_rejected (decodeAudioData : list Z -> Exn + Wav.AudioBuffer)
  (mimeType : JsString) (st : State) (e : Exn) :
  decodeAudioData (blobBytes (new_Blob (chunksRef st) mimeType)) = inl e ->
  fst (onstop decodeAudioData mimeType st) = inl e
  /\ streamRef (snd (onstop decodeAudioData mimeType st)) = streamRef st
  /\ liveStreams (snd (onstop decodeAudioData mimeType st)) = liveStreams st
  /\ audioData (snd (onstop decodeAudioData mimeType st)) = audioData st.
Proof.
  intros Hdecode. unfold onstop, Wav.convertToWav. rewrite Hdecode.
  repeat split.
Qed.

(** C7. A session of the hook stops with no chunk buffered, and the
    decoder rejects the empty clip: [convertToWav] throws, the handler
    returns by that exception, and the tracks of the microphone stream
    are still live. *)
Theorem hook_onstop_keeps_stream_on_error :
  fst (onstop demoDecoder (js "audio/webm") (demoState []))
  = inl (Error "Unable to decode audio data")
  /\ streamRef (snd (onstop demoDecoder (js "audio/webm") (demoState [])))
     = Some 1%nat
  /\ 1%nat
     ∈ liveStreams (snd (onstop demoDecoder (js "audio/webm") (demoState []))).
Proof.
  destruct (hook_onstop_rejected demoDecoder (js "audio/webm") (demoState [])
              (Error "Unable to decode audio data") eq_refl)
    as (Hthrown & Hstream & Hlive & _).
  rewrite Hthrown, Hstream, Hlive. split; [reflexivity | ].
  split; [reflexivity | ]. cbn [liveStreams demoState].
  now apply elem_of_singleton.
Qed.

End HookFacts.

(* ================================================================= *)
(** * Dictionary substitution *)

Section SubstitutionFacts.
Import Substitution.

Variable toLowerCase : JsString -> JsString.
Variable isWordChar : Z -> bool.

Abbreviation matches := (matches toLowerCase).
Abbreviation boundary := (boundary isWordChar).
Abbreviation occursAt := (occursAt toLowerCase isWordChar).
Abbreviation scan := (scan toLowerCase isWordChar).
Abbreviation substitute := (substitute toLowerCase isWordChar).
Abbreviation applyDictionary := (applyDictionary toLowerCase isWordChar).







End SubstitutionFacts.

(** A sentence run through a dictionary of three entries, one of
    them disabled: [cat] is replaced wherever it stands as a word, in
    any case, [category] is left alone, and the entry that is case
    sensitive is applied to the phrase it spells. *)
Example applyDictionary_sentence :
  Substitution.applyDictionary Detector.latin1ToLowerCase
    Substitution.asciiWordChar
    [Substitution.catToDog; Substitution.disabledEntry;
     Substitution.exactTally]
    (js "a Cat in a category, cat. See tally dot io or Tally dot io")
  = js "a dog in a category, dog. See tallie.io or Tally dot io".
Proof. vm_compute. reflexivity. Qed.


(* ================================================================= *)
(** * The stores of the main process *)

Section MainFacts.
Import Main.

(** *** History *)

Lemma get_history_insert (store : Store) (history : list TranscriptionRecord) :
  get_history (<["history"%string := VHistory history]> store) = history.
Proof. unfold get_history. now rewrite lookup_insert_eq. Qed.

Lemma take_cons_take {A} (n : nat) (x : A) (l : list A) :
  take (S n) (x :: take (S n) l) = take (S n) (x :: l).
Proof.
  cbn [take]. f_equal. destruct n as [ | n]; [reflexivity | ].
  rewrite take_take. f_equal. lia.
Qed.

Lemma add_to_history_each_history (records : list TranscriptionRecord) :
  forall store,
    get_history (Sequence.add_to_history_each records store)
    = match records with
      | [] => get_history store
      | _ => take 100 (rev records ++ get_history store)
      end.
Proof.
  induction records as [ | record records IH]; intros store; [reflexivity | ].
  unfold Sequence.add_to_history_each in *. cbn [foldl].
  rewrite IH. unfold add_to_history. cbn [snd].
  rewrite get_history_insert. cbn [rev]. rewrite <- app_assoc. cbn [app].
  destruct records as [ | record' records]; [reflexivity | ].
  set (older := rev (record' :: records)).
  rewrite <- (take_drop 100 (record :: get_history store)) at 2.
  rewrite app_assoc.
  destruct (decide (length (older ++ take 100 (record :: get_history store))
                    < 100)%nat) as [Hshort | Hlong].
  - assert (Hfew : (length (take 100 (record :: get_history store)) < 100)%nat)
      by (rewrite length_app in Hshort; lia).
    rewrite length_take in Hfew.
    rewrite (drop_ge (record :: get_history store)) by lia.
    now rewrite app_nil_r.
  - symmetry. apply take_app_le. lia.
Qed.

(** X1. Whatever was stored before and however many transcriptions
    are added, the history holds the newest records first and never
    more than 100 of them: after the calls it is the first 100
    elements of the added records, last call first, followed by the
    old history. *)
Theorem add_to_history_newest_first_capped
  (records : list TranscriptionRecord) (store : Store) :
  records <> [] ->
  get_history (Sequence.add_to_history_each records store)
  = take 100 (rev records ++ get_history store)
  /\ (length (get_history (Sequence.add_to_history_each records store))
      <= 100)%nat
  /\ head (get_history (Sequence.add_to_history_each records store))
     = last records.
Proof.
  intros Hrecords.
  pose proof (add_to_history_each_history records store) as Hhistory.
  destruct records as [ | record records]; [contradiction | ].
  rewrite Hhistory. split; [reflexivity | ]. split.
  - rewrite length_take. lia.
  - destruct (rev (record :: records)) as [ | newest older] eqn:Hrev.
    + apply (f_equal (@length _)) in Hrev. rewrite length_rev in Hrev.
      discriminate.
    + cbn [app take head].
      rewrite <- (rev_involutive (record :: records)), Hrev.
      cbn [rev]. now rewrite last_snoc.
Qed.

Lemma add_to_history_newest_first_capped_witness :
  get_history
    (Sequence.add_to_history_each [demoRecord 3; demoRecord 4] demoHistory)
  = [demoRecord 4; demoRecord 3; demoRecord 2; demoRecord 1].
Proof.
  destruct (add_to_history_newest_first_capped [demoRecord 3; demoRecord 4]
              demoHistory) as (Hhistory & _).
  - discriminate.
  - rewrite Hhistory. reflexivity.
Defined.

Lemma filter_id_absent {A} (f : A -> JsString) (id' : JsString) (l : list A) :
  (forall x, In x l -> f x <> id') ->
  List.filter (fun x => negb (JsString_eqb (f x) id')) l = l.
Proof.
  induction l as [ | x l IH]; intros Habsent; [reflexivity | ].
  cbn [List.filter]. unfold JsString_eqb at 1.
  rewrite bool_decide_eq_false_2 by (apply Habsent; now left).
  cbn [negb]. f_equal. apply IH. intros y Hy. apply Habsent. now right.
Qed.

Lemma filter_id_present {A} (f : A -> JsString) (id' : JsString) (x : A)
  (l : list A) :
  f x = id' ->
  List.filter (fun x => negb (JsString_eqb (f x) id')) (x :: l)
  = List.filter (fun x => negb (JsString_eqb (f x) id')) l.
Proof.
  intros Hid. cbn [List.filter]. unfold JsString_eqb at 1.
  now rewrite bool_decide_eq_true_2 by exact Hid.
Qed.

(** X2. Deleting the record that was just added gives the history
    back, provided no older record bears its id; when the history was
    full, the record that the cap had pushed out stays lost. *)
Theorem history_add_then_delete (record : TranscriptionRecord)
  (store : Store) :
  (forall item, In item (get_history store) -> id item <> id record) ->
  fst (delete_history_item (id record) (snd (add_to_history record store)))
  = take 99 (get_history store)
  /\ ((length (get_history store) < 100)%nat ->
      fst (delete_history_item (id record)
             (snd (add_to_history record store)))
      = get_history store
      /\ get_history
           (snd (delete_history_item (id record)
                   (snd (add_to_history record store))))
         = get_history store).
Proof.
  intros Hfresh.
  assert (Hdeleted :
    fst (delete_history_item (id record) (snd (add_to_history record store)))
    = take 99 (get_history store)).
  { unfold delete_history_item, add_to_history. cbn [fst snd].
    rewrite get_history_insert.
    change (take 100 (record :: get_history store))
      with (record :: take 99 (get_history store)).
    rewrite filter_id_present by reflexivity.
    apply filter_id_absent. intros item Hitem. apply Hfresh.
    apply list_elem_of_In. apply list_elem_of_In in Hitem.
    revert Hitem. apply subseteq_take. }
  split; [exact Hdeleted | ]. intros Hroom.
  unfold delete_history_item in *. cbn [fst snd] in *.
  rewrite get_history_insert, Hdeleted, take_ge by lia. now split.
Qed.

Lemma history_add_then_delete_witness :
  fst (delete_history_item (id (demoRecord 3))
         (snd (add_to_history (demoRecord 3) demoHistory)))
  = [demoRecord 2; demoRecord 1].
Proof.
  destruct (history_add_then_delete (demoRecord 3) demoHistory)
    as (_ & Hback).
  - intros item [<- | [<- | []]]; discriminate.
  - destruct Hback as (Hback & _); [vm_compute; lia | ]. exact Hback.
Defined.

(** *** Dictionary *)

Lemma get_dictionary_insert (store : Store)
  (dictionary : list Dictionary.DictionaryEntry) :
  get_dictionary (<["dictionary"%string := VDictionary dictionary]> store)
  = dictionary.
Proof. unfold get_dictionary. now rewrite lookup_insert_eq. Qed.

(** X3. The id of an entry is the millisecond of its creation. An
    entry that was added is removed again by deleting its id, and the
    dictionary is what it was, provided no older entry bears that id;
    but two entries added within the same millisecond share their id,
    and deleting either of them deletes both. *)
Theorem dictionary_delete_by_millisecond (now now1 now2 : Z)
  (first second : NewEntry) (store : Store) :
  (forall old, In old (get_dictionary store) ->
               Dictionary.id old <> js (WordStats.showZ now)) ->
  let store1 := snd (add_dictionary_entry now now1 first store) in
  let store2 := snd (add_dictionary_entry now now2 second store1) in
  length (get_dictionary store1) = S (length (get_dictionary store))
  /\ fst (delete_dictionary_entry (js (WordStats.showZ now)) store1)
     = get_dictionary store
  /\ get_dictionary
       (snd (delete_dictionary_entry (js (WordStats.showZ now)) store1))
     = get_dictionary store
  /\ length (get_dictionary store2) = S (S (length (get_dictionary store)))
  /\ fst (delete_dictionary_entry (js (WordStats.showZ now)) store2)
     = get_dictionary store.
Proof.
  intros Hfresh store1 store2. subst store1 store2.
  unfold delete_dictionary_entry, add_dictionary_entry. cbn [fst snd].
  rewrite !get_dictionary_insert.
  rewrite !filter_id_present by reflexivity.
  rewrite filter_id_absent by exact Hfresh. repeat split.
Qed.

Lemma dictionary_delete_by_millisecond_witness :
  fst (delete_dictionary_entry (js (WordStats.showZ 5))
         (snd (add_dictionary_entry 5 5
                 {| original := js "b"; corrected := js "c";
                    caseSensitive := false; enabled := true |}
                 (snd (add_dictionary_entry 5 5
                         {| original := js "a"; corrected := js "b";
                            caseSensitive := false; enabled := true |}
                         demoDictionary)))))
  = [Dictionary.entry "teh" "the"].
Proof.
  destruct (dictionary_delete_by_millisecond 5 5 5
              {| original := js "a"; corrected := js "b";
                 caseSensitive := false; enabled := true |}
              {| original := js "b"; corrected := js "c";
                 caseSensitive := false; enabled := true |}
              demoDictionary) as (_ & _ & _ & _ & Hboth).
  - intros old [<- | []]. vm_compute. discriminate.
  - exact Hboth.
Defined.

Lemma JsString_eqb_neq (a b : JsString) : a <> b -> JsString_eqb a b = false.
Proof. intros Hneq. unfold JsString_eqb. now apply bool_decide_eq_false_2. Qed.

Lemma update_absent (id' : JsString) (updates : Updates)
  (dictionary : list Dictionary.DictionaryEntry) :
  (forall entry, In entry dictionary -> Dictionary.id entry <> id') ->
  List.map (fun entry =>
              if JsString_eqb (Dictionary.id entry) id'
              then spread entry updates else entry) dictionary
  = dictionary.
Proof.
  induction dictionary as [ | entry dictionary IH]; intros Habsent;
    [reflexivity | ].
  cbn [List.map]. unfold JsString_eqb at 1.
  rewrite bool_decide_eq_false_2 by (apply Habsent; now left).
  f_equal. apply IH. intros other Hother. apply Habsent. now right.
Qed.

Lemma spread_toggle_twice (entry : Dictionary.DictionaryEntry) :
  spread (spread entry (toggle entry)) (toggle (spread entry (toggle entry)))
  = entry.
Proof.
  destruct entry as [i o c cs [ | ] at']; reflexivity.
Qed.

(** X4. Switching an entry off and on again through the toggle of
    the dictionary panel gives the dictionary back, when the ids of
    its entries are distinct. *)
Theorem dictionary_toggle_twice (entry : Dictionary.DictionaryEntry)
  (store : Store) :
  In entry (get_dictionary store) ->
  NoDup (List.map Dictionary.id (get_dictionary store)) ->
  let switched := spread entry (toggle entry) in
  let store1 :=
    snd (update_dictionary_entry (Dictionary.id entry) (toggle entry)
           store) in
  In switched (get_dictionary store1)
  /\ Dictionary.enabled switched = negb (Dictionary.enabled entry)
  /\ fst (update_dictionary_entry (Dictionary.id switched) (toggle switched)
            store1)
     = get_dictionary store.
Proof.
  intros Hin Hnodup switched store1. subst switched store1.
  unfold update_dictionary_entry. cbn [fst snd].
  rewrite get_dictionary_insert.
  change (Dictionary.id (spread entry (toggle entry)))
    with (Dictionary.id entry).
  induction (get_dictionary store) as [ | first rest IH]; [contradiction | ].
  cbn [List.map] in Hnodup. apply NoDup_cons in Hnodup as [Hfirst Hrest].
  assert (Hothers : forall other, In other rest ->
                      Dictionary.id other <> Dictionary.id first).
  { intros other Hother Heq. apply Hfirst. rewrite <- Heq.
    apply list_elem_of_In. now apply in_map. }
  destruct Hin as [-> | Hin].
  - cbn [List.map]. rewrite !JsString_eqb_refl.
    change (Dictionary.id (spread entry (toggle entry)))
      with (Dictionary.id entry).
    rewrite ?JsString_eqb_refl.
    split; [now left | ]. split; [reflexivity | ].
    rewrite spread_toggle_twice. f_equal.
    rewrite (update_absent (Dictionary.id entry) (toggle entry) rest)
      by exact Hothers.
    now apply update_absent.
  - destruct (IH Hin Hrest) as (Hswitched & Henabled & Hback).
    assert (Hdistinct : Dictionary.id first <> Dictionary.id entry).
    { intros Heq. apply (Hothers entry Hin). now symmetry. }
    cbn [List.map]. rewrite !(JsString_eqb_neq _ _ Hdistinct).
    split; [now right | ]. split; [exact Henabled | ].
    f_equal. exact Hback.
Qed.

Lemma dictionary_toggle_twice_witness :
  fst (update_dictionary_entry (js "1")
         (toggle (spread (Dictionary.entry "teh" "the")
                    (toggle (Dictionary.entry "teh" "the"))))
         (snd (update_dictionary_entry (js "1")
                 (toggle (Dictionary.entry "teh" "the")) demoDictionary)))
  = [Dictionary.entry "teh" "the"].
Proof.
  destruct (dictionary_toggle_twice (Dictionary.entry "teh" "the")
              demoDictionary) as (_ & _ & Hback).
  - now left.
  - apply NoDup_cons. split; [ | constructor].
    intros Hin. apply list_elem_of_In in Hin. destruct Hin.
  - exact Hback.
Defined.

(** X5. An update that leaves [id] out, as the ones the dictionary
    panel sends, keeps the ids of the dictionary; and an update for
    an id that no entry bears changes nothing. *)
Theorem dictionary_update_keeps_ids (id' : JsString) (updates : Updates)
  (store : Store) :
  set_id updates = None ->
  List.map Dictionary.id (fst (update_dictionary_entry id' updates store))
  = List.map Dictionary.id (get_dictionary store)
  /\ ((forall entry, In entry (get_dictionary store) ->
                     Dictionary.id entry <> id') ->
      fst (update_dictionary_entry id' updates store) = get_dictionary store).
Proof.
  intros Hid. unfold update_dictionary_entry. cbn [fst]. split.
  - induction (get_dictionary store) as [ | entry rest IH]; [reflexivity | ].
    cbn [List.map]. rewrite IH. f_equal.
    destruct (JsString_eqb (Dictionary.id entry) id'); [ | reflexivity].
    unfold spread. cbn [Dictionary.id]. now rewrite Hid.
  - apply update_absent.
Qed.

Lemma dictionary_update_keeps_ids_witness :
  List.map Dictionary.id
    (fst (update_dictionary_entry (js "1") (edit (js "Teh") (js "The") true)
            demoDictionary))
  = [js "1"].
Proof.
  destruct (dictionary_update_keeps_ids (js "1")
              (edit (js "Teh") (js "The") true) demoDictionary eq_refl)
    as (Hids & _).
  rewrite Hids. reflexivity.
Defined.

(** *** Settings *)

Lemma settingKeys_table : settingKeys = List.map fst settingsTable.
Proof. reflexivity. Qed.

Lemma storeSettings_lookup (settings : gmap string Value)
  (keys : list string) :
  forall (store : Store) (key : string),
    foldl (fun store key =>
             match settings !! key with
             | Some value => <[key := value]> store
             | None => store
             end) store keys !! key
    = match (if bool_decide (key ∈ keys) then settings !! key else None) with
      | Some value => Some value
      | None => store !! key
      end.
Proof.
  induction keys as [ | k keys IH]; intros store key.
  - cbn [foldl]. rewrite bool_decide_eq_false_2; [reflexivity | ].
    apply not_elem_of_nil.
  - cbn [foldl]. rewrite IH.
    destruct (decide (key = k)) as [-> | Hneq].
    + rewrite (bool_decide_eq_true_2 (k ∈ k :: keys)) by apply list_elem_of_here.
      destruct (settings !! k) as [value | ] eqn:Hk.
      * rewrite lookup_insert_eq. now destruct (bool_decide (k ∈ keys)).
      * now destruct (bool_decide (k ∈ keys)).
    + assert (Hmem : bool_decide (key ∈ k :: keys) = bool_decide (key ∈ keys)).
      { apply bool_decide_ext. rewrite elem_of_cons. tauto. }
      rewrite Hmem.
      destruct (settings !! k) as [value | ];
        [rewrite lookup_insert_ne by congruence | ]; reflexivity.
Qed.

Lemma get_settings_lookup (store : Store) (key : string) (how : Fallback)
  (default : Value) :
  In (key, (how, default)) settingsTable ->
  get_settings store !! key = Some (read store key how default).
Proof.
  intros Hin. unfold get_settings.
  apply elem_of_list_to_map_1.
  - replace ((List.map (fun '(key, (how, default)) =>
                          (key, read store key how default))
                settingsTable).*1)
      with (List.map fst settingsTable) by reflexivity.
    apply (bool_decide_unpack _). vm_compute. exact I.
  - apply list_elem_of_In.
    apply (in_map (fun '(key, (how, default)) =>
                     (key, read store key how default)) _ _ Hin).
Qed.

(** X6. A setting that was saved is the one that is read back, with
    one exception: the seven keys that [get-settings] reads with [||]
    (the key, the model, the hotkey, the output mode, the pill
    visibility, the language, the microphone) read as their default
    when the value saved is the empty string. *)
Theorem settings_save_then_get (settings : gmap string Value)
  (store : Store) (key : string) (how : Fallback) (default value : Value) :
  In (key, (how, default)) settingsTable ->
  settings !! key = Some value ->
  get_settings (save_settings settings store).1.2 !! key
  = Some (match how with
          | OrDefault => if falsy value then default else value
          | NullishDefault => value
          end).
Proof.
  intros Hin Hvalue. rewrite (get_settings_lookup _ _ _ _ Hin).
  unfold save_settings, storeSettings, read. cbn [fst snd].
  rewrite storeSettings_lookup, Hvalue.
  rewrite bool_decide_eq_true_2; [reflexivity | ].
  rewrite settingKeys_table. apply list_elem_of_In.
  apply (in_map fst _ _ Hin).
Qed.

Lemma settings_save_then_get_witness :
  get_settings
    (save_settings {[ "hotkey"%string := VString [] ]} ∅).1.2
  !! "hotkey"%string
  = Some (VString (js "CommandOrControl+Shift+Space"))
  /\ get_settings
       (save_settings {[ "showPill"%string := VBoolean false ]} ∅).1.2
     !! "showPill"%string
     = Some (VBoolean false).
Proof.
  split.
  - apply (settings_save_then_get {[ "hotkey"%string := VString [] ]} ∅
             "hotkey" OrDefault
             (VString (js "CommandOrControl+Shift+Space")) (VString [])).
    + vm_compute. tauto.
    + reflexivity.
  - apply (settings_save_then_get {[ "showPill"%string := VBoolean false ]} ∅
             "showPill" NullishDefault (VBoolean true) (VBoolean false)).
    + vm_compute. tauto.
    + reflexivity.
Defined.

(** X7. [save-settings] stores under the seventeen keys it knows and
    under no other: whatever object the renderer sends, the history
    and the dictionary are what they were, and an object that has
    none of the known keys leaves the whole store as it was. *)
Theorem save_settings_known_keys_only (settings : gmap string Value)
  (store : Store) :
  (forall key, key ∉ settingKeys ->
               (save_settings settings store).1.2 !! key = store !! key)
  /\ get_history (save_settings settings store).1.2 = get_history store
  /\ get_dictionary (save_settings settings store).1.2 = get_dictionary store
  /\ ((forall key, key ∈ settingKeys -> settings !! key = None) ->
      (save_settings settings store).1.2 = store).
Proof.
  unfold save_settings, storeSettings. cbn [fst snd].
  assert (Hother : forall key, key ∉ settingKeys ->
            foldl (fun store key =>
                     match settings !! key with
                     | Some value => <[key := value]> store
                     | None => store
                     end) store settingKeys !! key = store !! key).
  { intros key Hkey. rewrite storeSettings_lookup.
    now rewrite bool_decide_eq_false_2 by exact Hkey. }
  split; [exact Hother | ]. split; [ | split].
  - unfold get_history. rewrite Hother; [reflexivity | ].
    apply (bool_decide_unpack _). vm_compute. exact I.
  - unfold get_dictionary. rewrite Hother; [reflexivity | ].
    apply (bool_decide_unpack _). vm_compute. exact I.
  - intros Hnone. apply map_eq. intros key. rewrite storeSettings_lookup.
    destruct (decide (key ∈ settingKeys)) as [Hkey | Hkey].
    + rewrite bool_decide_eq_true_2 by exact Hkey. now rewrite Hnone.
    + now rewrite bool_decide_eq_false_2 by exact Hkey.
Qed.

Lemma save_settings_known_keys_only_witness :
  get_history
    (save_settings {[ "history"%string := VString [] ]} demoHistory).1.2
  = [demoRecord 2; demoRecord 1].
Proof.
  destruct (save_settings_known_keys_only
              {[ "history"%string := VString [] ]} demoHistory)
    as (_ & Hhistory & _).
  rewrite Hhistory. reflexivity.
Defined.

End MainFacts.

(* ================================================================= *)
(** * The word counters over many calls *)

Section CounterFacts.
Import WordStats.

Lemma getNumber_reset_total (store : gmap string StoreValue) (now : Date) :
  getNumber (resetIfNewMonth store now) "wordsTotal"
  = getNumber store "wordsTotal".
Proof.
  unfold resetIfNewMonth. destruct (monthChanged store now); [ | reflexivity].
  unfold getNumber. now rewrite !lookup_insert_ne by discriminate.
Qed.

Lemma monthChanged_reset (store : gmap string StoreValue) (now : Date) :
  monthChanged (resetIfNewMonth store now) now = false.
Proof.
  unfold resetIfNewMonth. destruct (monthChanged store now) eqn:Hchanged;
    [ | exact Hchanged].
  unfold monthChanged.
  rewrite lookup_insert_ne by discriminate. rewrite lookup_insert_eq.
  now rewrite String.eqb_refl.
Qed.

Lemma resetIfNewMonth_idempotent (store : gmap string StoreValue)
  (now : Date) :
  resetIfNewMonth (resetIfNewMonth store now) now = resetIfNewMonth store now.
Proof.
  unfold resetIfNewMonth at 1. now rewrite monthChanged_reset.
Qed.

(** X8. Reading the counters is idempotent, and it does not change
    what a later [add-words] returns or stores: the month roll-over
    that [get-word-stats] performs is the one [add-words] would have
    performed itself. *)
Theorem get_word_stats_idempotent (now : Date) (wordCount : Z)
  (store : gmap string StoreValue) :
  get_word_stats now (snd (get_word_stats now store))
  = get_word_stats now store
  /\ add_words now wordCount (snd (get_word_stats now store))
     = add_words now wordCount store
  /\ wordsTotal (fst (get_word_stats now store))
     = getNumber store "wordsTotal".
Proof.
  unfold get_word_stats, add_words. cbn [fst snd wordsTotal].
  rewrite resetIfNewMonth_idempotent, getNumber_reset_total. repeat split.
Qed.

Lemma add_words_total (now : Date) (wordCount : Z)
  (store : gmap string StoreValue) :
  getNumber (snd (add_words now wordCount store)) "wordsTotal"
  = getNumber store "wordsTotal" + wordCount.
Proof.
  unfold add_words. cbn [snd]. unfold getNumber at 1.
  rewrite lookup_insert_eq. now rewrite getNumber_reset_total.
Qed.

(** X9. The total counter is the sum of everything ever added: over
    any sequence of [add-words] calls, at whatever dates and across
    whatever month changes, it grows by the sum of the word counts. *)
Theorem add_words_each_total (calls : list (Date * Z))
  (store : gmap string StoreValue) :
  getNumber (Sequence.add_words_each calls store) "wordsTotal"
  = getNumber store "wordsTotal" + foldr Z.add 0 (List.map snd calls).
Proof.
  revert store. induction calls as [ | [now wordCount] calls IH];
    intros store.
  - cbn. lia.
  - unfold Sequence.add_words_each in *. cbn [foldl List.map foldr snd].
    rewrite IH, add_words_total. lia.
Qed.

Lemma add_words_monthly (now : Date) (wordCount : Z)
  (store : gmap string StoreValue) :
  getNumber (snd (add_words now wordCount store)) "wordsThisMonth"
  = getNumber (resetIfNewMonth store now) "wordsThisMonth" + wordCount.
Proof.
  unfold add_words. cbn [snd]. unfold getNumber at 1.
  rewrite lookup_insert_ne by discriminate. now rewrite lookup_insert_eq.
Qed.

Lemma getNumber_reset_monthly (store : gmap string StoreValue) (now : Date) :
  getNumber (resetIfNewMonth store now) "wordsThisMonth"
  = if monthChanged store now then 0
    else getNumber store "wordsThisMonth".
Proof.
  unfold resetIfNewMonth. destruct (monthChanged store now); [ | reflexivity].
  unfold getNumber. now rewrite lookup_insert_eq.
Qed.

(** X10. The counter of the month never exceeds the total: when
    [0 <= wordsThisMonth <= wordsTotal] holds in the store, it holds
    again after [get-word-stats] and after [add-words] of a count
    that is not negative, whether or not the month has changed. *)
Theorem counters_monthly_le_total (now : Date) (wordCount : Z)
  (store : gmap string StoreValue) :
  0 <= wordCount ->
  0 <= getNumber store "wordsThisMonth" <= getNumber store "wordsTotal" ->
  0 <= wordsThisMonth (fst (add_words now wordCount store))
    <= wordsTotal (fst (add_words now wordCount store))
  /\ 0 <= getNumber (snd (add_words now wordCount store)) "wordsThisMonth"
       <= getNumber (snd (add_words now wordCount store)) "wordsTotal"
  /\ 0 <= getNumber (snd (get_word_stats now store)) "wordsThisMonth"
       <= getNumber (snd (get_word_stats now store)) "wordsTotal".
Proof.
  intros Hcount Hinv.
  rewrite add_words_total, add_words_monthly.
  unfold add_words, get_word_stats. cbn [fst snd wordsThisMonth wordsTotal].
  rewrite getNumber_reset_total, getNumber_reset_monthly.
  destruct (monthChanged store now); lia.
Qed.

Lemma counters_monthly_le_total_witness :
  0 <= wordsThisMonth (fst (add_words november 5 octoberStore))
    <= wordsTotal (fst (add_words november 5 octoberStore)).
Proof.
  destruct (counters_monthly_le_total november 5 octoberStore)
    as (Hreturned & _).
  - lia.
  - vm_compute. split; discriminate.
  - exact Hreturned.
Defined.

End CounterFacts.

(* ================================================================= *)
(** * Releasing the hotkey *)

Section HotkeyFacts.
Import Hotkey.

Variable toLowerCase : JsString -> JsString.

Lemma startsWith_spec (prefix : JsString) :
  forall s, startsWith s prefix = true <-> exists q, s = prefix ++ q.
Proof.
  induction prefix as [ | p prefix IH]; intros s.
  - destruct s; (split; [intros _; eexists; reflexivity | reflexivity]).
  - destruct s as [ | c s]; cbn [startsWith].
    + split; [discriminate | intros [q Hq]; discriminate].
    + rewrite andb_true_iff, Z.eqb_eq, IH. split.
      * intros [-> [q ->]]. now exists q.
      * intros [q Hq]. injection Hq as -> ->. split; [reflexivity | ].
        now exists q.
Qed.

(** [includes] finds a substring wherever it stands. *)
Lemma includes_spec (sub s : JsString) :
  includes s sub = true <-> exists p q, s = p ++ sub ++ q.
Proof.
  induction s as [ | c s IH].
  - cbn [includes]. rewrite orb_false_r, startsWith_spec. split.
    + intros [q Hq]. now exists [], q.
    + intros (p & q & Hs). symmetry in Hs.
      apply app_eq_nil in Hs as [-> Hs]. apply app_eq_nil in Hs as [-> ->].
      now exists [].
  - cbn [includes]. rewrite orb_true_iff, startsWith_spec, IH. split.
    + intros [[q Hq] | (p & q & ->)].
      * now exists [], q.
      * now exists (c :: p), q.
    + intros (p & q & Hs). destruct p as [ | c' p].
      * left. now exists q.
      * right. injection Hs as -> ->. now exists p, q.
Qed.

Lemma includes_part (s before sub after : JsString) :
  includes s (before ++ sub ++ after) = true -> includes s sub = true.
Proof.
  rewrite !includes_spec. intros (p & q & ->).
  exists (p ++ before), (after ++ q). now rewrite <- !app_assoc.
Qed.

(** *** The chain of polls on Windows *)

Lemma stillHeldWin_cases (m : Modifiers) (modifiers : JsString) :
  stillHeldWin m modifiers
  = hasCtrl m && includes modifiers (js "Control")
    || hasShift m && includes modifiers (js "Shift")
    || hasAlt m && includes modifiers (js "Alt")
    || hasWin m.
Proof.
  unfold stillHeldWin.
  destruct (hasCtrl m && includes modifiers (js "Control")),
    (hasShift m && includes modifiers (js "Shift")),
    (hasAlt m && includes modifiers (js "Alt")), (hasWin m); reflexivity.
Qed.

(** X11. On Windows, a hotkey that combines the Windows key with
    Control, Shift or Alt is never released as far as the polls can
    tell: whatever the probes report, and whether or not they fail,
    every poll leaves the recording on and arms the next poll. Letting
    go of such a hotkey does not stop the recording. *)
Theorem win_combo_never_released (m : Modifiers)
  (probes : list (Datatypes.option JsString)) :
  hasWin m = true ->
  hasCtrl m || hasShift m || hasAlt m = true ->
  pollWin32 m probes true
  = (true,
     List.concat
       (List.map (fun _ => [Exec win32; SetTimeout CheckKeys 100]) probes)).
Proof.
  intros Hwin Hother.
  assert (Hstep : forall probe,
            onModifierKeys m probe true = (true, [SetTimeout CheckKeys 100])).
  { intros [stdout | ]; [ | reflexivity]. unfold onModifierKeys. cbv zeta.
    rewrite stillHeldWin_cases, Hwin, orb_true_r.
    destruct (hasCtrl m), (hasShift m), (hasAlt m); try discriminate;
      reflexivity. }
  induction probes as [ | probe probes IH]; [reflexivity | ].
  cbn [pollWin32 checkKeys negb]. rewrite Hstep. cbn [rearmed existsb orb].
  rewrite IH. reflexivity.
Qed.

Lemma win_combo_never_released_witness :
  pollWin32
    {| hasCtrl := false; hasShift := true; hasAlt := false; hasWin := true;
       hasCmd := false |} [Some (js "Shift"); None; Some (js "None")] true
  = (true,
     [Exec win32; SetTimeout CheckKeys 100; Exec win32;
      SetTimeout CheckKeys 100; Exec win32; SetTimeout CheckKeys 100]).
Proof.
  apply (win_combo_never_released
           {| hasCtrl := false; hasShift := true; hasAlt := false;
              hasWin := true; hasCmd := false |}
           [Some (js "Shift"); None; Some (js "None")]); reflexivity.
Defined.

(** X12. On Windows, a hotkey without the Windows key is released by
    the first probe that succeeds and names none of the hotkey's
    modifiers (Control, Shift, Alt): as long as the probes fail or
    name one of them the polls go on every 100 ms; that probe stops
    the recording, tells the overlay and resets the tray icon, and no
    later poll runs. One of the modifiers held is enough to go on. *)
Theorem win_release_stops (m : Modifiers)
  (held : list (Datatypes.option JsString)) (released : JsString)
  (later : list (Datatypes.option JsString)) :
  hasWin m = false ->
  Forall (fun probe =>
            match probe with
            | Some stdout =>
                hasCtrl m && includes (trim stdout) (js "Control")
                || hasShift m && includes (trim stdout) (js "Shift")
                || hasAlt m && includes (trim stdout) (js "Alt") = true
            | None => True
            end) held ->
  hasCtrl m && includes (trim released) (js "Control")
  || hasShift m && includes (trim released) (js "Shift")
  || hasAlt m && includes (trim released) (js "Alt") = false ->
  pollWin32 m (held ++ Some released :: later) true
  = (false,
     List.concat
       (List.map (fun _ => [Exec win32; SetTimeout CheckKeys 100]) held)
     ++ [Exec win32; Send (js "recording-stop"); UpdateTrayIcon false]).
Proof.
  intros Hwin Hheld Hreleased.
  assert (Hstep : forall stdout,
            onModifierKeys m (Some stdout) true
            = if hasCtrl m && includes (trim stdout) (js "Control")
                 || hasShift m && includes (trim stdout) (js "Shift")
                 || hasAlt m && includes (trim stdout) (js "Alt")
              then (true, [SetTimeout CheckKeys 100])
              else (false,
                    [Send (js "recording-stop"); UpdateTrayIcon false])).
  { intros stdout. unfold onModifierKeys. cbv zeta.
    rewrite stillHeldWin_cases, Hwin.
    destruct (hasCtrl m && includes (trim stdout) (js "Control")),
      (hasShift m && includes (trim stdout) (js "Shift")),
      (hasAlt m && includes (trim stdout) (js "Alt")); reflexivity. }
  induction Hheld as [ | probe held Hprobe Hheld IH].
  - cbn [app pollWin32 checkKeys negb List.map List.concat].
    rewrite Hstep, Hreleased. reflexivity.
  - cbn [app pollWin32 checkKeys negb List.map List.concat].
    destruct probe as [stdout | ].
    + rewrite Hstep, Hprobe. cbn [rearmed existsb orb]. rewrite IH.
      reflexivity.
    + cbn [onModifierKeys rearmed existsb orb]. rewrite IH. reflexivity.
Qed.

Lemma win_release_stops_witness :
  pollWin32
    {| hasCtrl := true; hasShift := true; hasAlt := false; hasWin := false;
       hasCmd := true |}
    [Some (js "Shift, Control"); None; Some (js "Shift"); Some (js "None");
     Some (js "Control")] true
  = (false,
     [Exec win32; SetTimeout CheckKeys 100; Exec win32;
      SetTimeout CheckKeys 100; Exec win32; SetTimeout CheckKeys 100;
      Exec win32; Send (js "recording-stop"); UpdateTrayIcon false]).
Proof.
  apply (win_release_stops
           {| hasCtrl := true; hasShift := true; hasAlt := false;
              hasWin := false; hasCmd := true |}
           [Some (js "Shift, Control"); None; Some (js "Shift")]
           (js "None") [Some (js "Control")]).
  - reflexivity.
  - repeat constructor.
  - reflexivity.
Defined.

(** *** The chain of polls on macOS *)

Lemma stillHeldMac_cases (m : Modifiers) (modifiers : ModifierFlags) :
  stillHeldMac m modifiers
  = hasCmd m && command modifiers || hasCtrl m && control modifiers
    || hasShift m && shift modifiers || hasAlt m && option_ modifiers.
Proof.
  unfold stillHeldMac.
  destruct (hasCmd m && command modifiers),
    (hasCtrl m && control modifiers), (hasShift m && shift modifiers),
    (hasAlt m && option_ modifiers); reflexivity.
Qed.

(** X13. On macOS the recording goes on as long as every probe fails,
    prints something that does not parse, or reports one of the
    hotkey's modifiers held; the first probe that reports none of
    them stops the recording, tells the overlay and resets the tray
    icon, and no later poll runs. *)
Theorem mac_release_stops (m : Modifiers) (held : list MacProbe)
  (released : ModifierFlags) (later : list MacProbe) :
  Forall (fun probe =>
            match probe with
            | Flags modifiers =>
                hasCmd m && command modifiers
                || hasCtrl m && control modifiers
                || hasShift m && shift modifiers
                || hasAlt m && option_ modifiers = true
            | _ => True
            end) held ->
  hasCmd m && command released || hasCtrl m && control released
  || hasShift m && shift released || hasAlt m && option_ released = false ->
  pollDarwin m (held ++ Flags released :: later) true
  = (false,
     List.concat
       (List.map (fun _ => [Exec darwin; SetTimeout CheckKeysMac 100]) held)
     ++ [Exec darwin; Send (js "recording-stop"); UpdateTrayIcon false]).
Proof.
  intros Hheld Hreleased.
  induction Hheld as [ | probe held Hprobe Hheld IH].
  - cbn [app pollDarwin checkKeys negb List.map List.concat onModifierFlags].
    rewrite stillHeldMac_cases, Hreleased. reflexivity.
  - cbn [app pollDarwin checkKeys negb List.map List.concat].
    destruct probe as [ | | modifiers];
      cbn [onModifierFlags]; rewrite ?stillHeldMac_cases, ?Hprobe;
      cbn [negb rearmed existsb orb]; rewrite IH; reflexivity.
Qed.

Lemma mac_release_stops_witness :
  pollDarwin
    {| hasCtrl := true; hasShift := true; hasAlt := false; hasWin := false;
       hasCmd := true |}
    [Flags {| shift := false; control := false; command := true;
              option_ := false |};
     SyntaxError;
     Flags {| shift := false; control := false; command := false;
              option_ := true |}] true
  = (false,
     [Exec darwin; SetTimeout CheckKeysMac 100; Exec darwin;
      SetTimeout CheckKeysMac 100; Exec darwin;
      Send (js "recording-stop"); UpdateTrayIcon false]).
Proof.
  apply (mac_release_stops
           {| hasCtrl := true; hasShift := true; hasAlt := false;
              hasWin := false; hasCmd := true |}
           [Flags {| shift := false; control := false; command := true;
                     option_ := false |}; SyntaxError]
           {| shift := false; control := false; command := false;
              option_ := true |} []).
  - repeat constructor.
  - reflexivity.
Defined.

(** *** Reading the hotkey *)

(** X14. A hotkey written with [CommandOrControl] counts as holding
    both the Command and the Control modifier, wherever the word
    stands in it: on macOS the recording goes on while either of the
    two keys is reported held, on Windows while the probe names
    Control. *)
Theorem commandOrControl_either_key (hotkey : JsString) :
  includes (toLowerCase hotkey) (js "commandorcontrol") = true ->
  hasCmd (parseModifiers toLowerCase hotkey) = true
  /\ hasCtrl (parseModifiers toLowerCase hotkey) = true
  /\ (forall modifiers,
        command modifiers || control modifiers = true ->
        onModifierFlags (parseModifiers toLowerCase hotkey) (Flags modifiers)
          true
        = (true, [SetTimeout CheckKeysMac 100]))
  /\ (forall stdout,
        hasWin (parseModifiers toLowerCase hotkey) = false ->
        includes (trim stdout) (js "Control") = true ->
        onModifierKeys (parseModifiers toLowerCase hotkey) (Some stdout) true
        = (true, [SetTimeout CheckKeys 100])).
Proof.
  intros Hboth.
  assert (Hcommand : includes (toLowerCase hotkey) (js "command") = true)
    by (apply (includes_part _ [] _ (js "orcontrol")); exact Hboth).
  assert (Hcontrol : includes (toLowerCase hotkey) (js "control") = true)
    by (apply (includes_part _ (js "commandor") _ []); exact Hboth).
  assert (Hcmd : hasCmd (parseModifiers toLowerCase hotkey) = true)
    by (unfold parseModifiers; cbn [hasCmd]; now rewrite Hcommand).
  assert (Hctrl : hasCtrl (parseModifiers toLowerCase hotkey) = true)
    by (unfold parseModifiers; cbn [hasCtrl]; now rewrite Hcontrol).
  split; [exact Hcmd | ]. split; [exact Hctrl | ]. split.
  - intros modifiers Hheld. unfold onModifierFlags. cbv zeta.
    rewrite stillHeldMac_cases, Hcmd, Hctrl. cbn [andb].
    apply orb_true_iff in Hheld as [-> | ->]; cbn [orb negb];
      rewrite ?orb_true_r; reflexivity.
  - intros stdout Hwin Hnamed. unfold onModifierKeys. cbv zeta.
    rewrite stillHeldWin_cases, Hctrl, Hnamed, Hwin. reflexivity.
Qed.

End HotkeyFacts.

Lemma commandOrControl_either_key_witness :
  Hotkey.hasCmd
    (Hotkey.parseModifiers Detector.latin1ToLowerCase
       (js "CommandOrControl+Shift+Space")) = true
  /\ Hotkey.hasCtrl
       (Hotkey.parseModifiers Detector.latin1ToLowerCase
          (js "CommandOrControl+Shift+Space")) = true.
Proof.
  destruct (commandOrControl_either_key Detector.latin1ToLowerCase
              (js "CommandOrControl+Shift+Space") eq_refl)
    as (Hcmd & Hctrl & _).
  split; [exact Hcmd | exact Hctrl].
Defined.

(* ================================================================= *)
(** * What the detector suggests *)

Section SuggestionFacts.
Import Detector.

Variable toLowerCase : JsString -> JsString.

Abbreviation differences := (differences toLowerCase).
Abbreviation alreadyExists := (alreadyExists toLowerCase).
Abbreviation singleWordChange := (singleWordChange toLowerCase).
Abbreviation removedWords := (removedWords toLowerCase).
Abbreviation addedWords := (addedWords toLowerCase).
Abbreviation phraseChange := (phraseChange toLowerCase).
Abbreviation detectWordCorrection := (detectWordCorrection toLowerCase).

(** *** Tokens and phrases *)

Lemma splitWhiteSpace_word (w : JsString) :
  forall (cur : JsString) (inGap : bool) (s : JsString),
    w <> [] ->
    Forall (fun c => isWhiteSpace c = false) w ->
    splitWhiteSpace cur inGap (w ++ s) = splitWhiteSpace (rev w ++ cur) false s.
Proof.
  induction w as [ | c w IH]; intros cur inGap s Hw Hclean; [contradiction | ].
  apply Forall_cons in Hclean as [Hc Hclean].
  cbn [app splitWhiteSpace rev]. rewrite Hc, <- app_assoc. cbn [app].
  destruct w as [ | c' w]; [reflexivity | ].
  apply IH; [discriminate | exact Hclean].
Qed.

Lemma split_ws_join (words : list JsString) :
  words <> [] ->
  Forall (fun w => w <> [] /\ Forall (fun c => isWhiteSpace c = false) w)
    words ->
  forall inGap, splitWhiteSpace [] inGap (join (js " ") words) = words.
Proof.
  induction words as [ | w words IH]; intros Hwords Htokens inGap;
    [contradiction | ].
  apply Forall_cons in Htokens as [[Hw Hclean] Htokens].
  destruct words as [ | w' words].
  - cbn [join]. rewrite <- (app_nil_r w) at 1.
    rewrite splitWhiteSpace_word by assumption.
    cbn [splitWhiteSpace]. now rewrite app_nil_r, rev_involutive.
  - change (join (js " ") (w :: w' :: words))
      with (w ++ 32 :: join (js " ") (w' :: words)).
    rewrite splitWhiteSpace_word by assumption.
    cbn [splitWhiteSpace]. change (isWhiteSpace 32) with true. cbv iota.
    rewrite app_nil_r, rev_involutive. f_equal.
    apply IH; [discriminate | exact Htokens].
Qed.

(** X15. A phrase made of tokens joined by single spaces splits into
    these very tokens again; so the phrase the detector suggests as
    [original] reads back as the words that were removed, and
    splitting, joining and splitting a text again changes nothing. *)
Theorem tokenize_join_roundtrip :
  (forall words,
      Forall (fun w => w <> [] /\ Forall (fun c => isWhiteSpace c = false) w)
        words ->
      tokenize (join (js " ") words) = words)
  /\ (forall text, tokenize (join (js " ") (tokenize text)) = tokenize text).
Proof.
  assert (Hwords : forall words,
    Forall (fun w => w <> [] /\ Forall (fun c => isWhiteSpace c = false) w)
      words ->
    tokenize (join (js " ") words) = words).
  { intros words Htokens. destruct words as [ | w words]; [reflexivity | ].
    unfold tokenize, split_ws.
    rewrite split_ws_join by (discriminate || exact Htokens).
    apply forallb_filter_id. apply forallb_forall. intros token Htoken.
    apply list_elem_of_In in Htoken.
    rewrite Forall_forall in Htokens.
    destruct (Htokens token Htoken) as [Hnonempty _].
    destruct token; [contradiction | reflexivity]. }
  split; [exact Hwords | ].
  intros text. apply Hwords. apply Forall_forall. intros w Hw.
  apply list_elem_of_In in Hw. now apply (tokenize_tokens text).
Qed.

(** *** Edits that suggest nothing *)

Lemma differences_equal_lower (originalWords : list JsString) :
  forall editedWords,
    List.map toLowerCase originalWords = List.map toLowerCase editedWords ->
    differences originalWords editedWords = [].
Proof.
  induction originalWords as [ | o ow IH]; intros [ | e ew] Hlower;
    try discriminate; [reflexivity | ].
  cbn [List.map] in Hlower. injection Hlower as Hhead Htail.
  cbn [Detector.differences]. rewrite Hhead, JsString_eqb_refl.
  now apply IH.
Qed.

(** X16. An edit that changes only the case of letters or the white
    space between words suggests nothing: when the two texts have the
    same tokens up to case, the detector returns no correction,
    whatever the dictionary. *)
Theorem detect_ignores_case_and_spacing (originalText editedText : JsString)
  (existingDictionary : list Dictionary.DictionaryEntry) :
  List.map toLowerCase (tokenize originalText)
  = List.map toLowerCase (tokenize editedText) ->
  detectWordCorrection originalText editedText existingDictionary = None.
Proof.
  intros Hlower. rewrite detectWordCorrection_blocks.
  assert (Hfirst : singleWordChange (tokenize originalText)
                     (tokenize editedText) existingDictionary = None).
  { unfold Detector.singleWordChange.
    rewrite (differences_equal_lower _ _ Hlower).
    now destruct (_ =? _)%nat. }
  rewrite Hfirst. apply phraseChange_nothing_removed.
  apply removedWords_covered. intros w Hw.
  now apply (map_lower_In toLowerCase (tokenize originalText)).
Qed.

End SuggestionFacts.

Lemma tokenize_join_roundtrip_witness :
  Detector.tokenize (join (js " ") [js "tally"; js "dot"; js "io"])
  = [js "tally"; js "dot"; js "io"].
Proof.
  apply (proj1 tokenize_join_roundtrip).
  repeat constructor; discriminate.
Defined.

Lemma detect_ignores_case_and_spacing_witness :
  Detector.detectWordCorrection Detector.latin1ToLowerCase
    (js "Hello  world") (js "hello World ") [] = None.
Proof.
  apply (detect_ignores_case_and_spacing Detector.latin1ToLowerCase).
  reflexivity.
Defined.

Section AcceptedSuggestions.
Import Detector.

Variable toLowerCase : JsString -> JsString.

Abbreviation differences := (differences toLowerCase).
Abbreviation alreadyExists := (alreadyExists toLowerCase).
Abbreviation singleWordChange := (singleWordChange toLowerCase).
Abbreviation removedWords := (removedWords toLowerCase).
Abbreviation addedWords := (addedWords toLowerCase).
Abbreviation phraseChange := (phraseChange toLowerCase).
Abbreviation detectWordCorrection := (detectWordCorrection toLowerCase).

Lemma join_nonempty (sep w : JsString) (words : list JsString) :
  w <> [] -> join sep (w :: words) <> [].
Proof.
  intros Hw. destruct words as [ | w' words]; cbn [join]; [exact Hw | ].
  destruct w; [contradiction | discriminate].
Qed.

(** X17. Whatever the detector suggests is sound: the original is one
    or more words of the original text joined by single spaces, the
    correction is one word of the edited text, neither is empty, the
    two differ by more than case, and no entry of the dictionary has
    that original already. *)
Theorem detect_sound (originalText editedText : JsString)
  (existingDictionary : list Dictionary.DictionaryEntry)
  (suggestion : DetectedCorrection) :
  detectWordCorrection originalText editedText existingDictionary
  = Some suggestion ->
  (exists words,
      words <> []
      /\ original suggestion = join (js " ") words
      /\ forall w, In w words -> In w (tokenize originalText))
  /\ In (corrected suggestion) (tokenize editedText)
  /\ original suggestion <> []
  /\ corrected suggestion <> []
  /\ toLowerCase (original suggestion) <> toLowerCase (corrected suggestion)
  /\ forall entry, In entry existingDictionary ->
       toLowerCase (Dictionary.original entry)
       <> toLowerCase (original suggestion).
Proof.
  rewrite detectWordCorrection_blocks. intros Hdetect.
  assert (Hparts :
    (exists words,
        words <> []
        /\ original suggestion = join (js " ") words
        /\ forall w, In w words -> In w (tokenize originalText))
    /\ In (corrected suggestion) (tokenize editedText)
    /\ toLowerCase (original suggestion) <> toLowerCase (corrected suggestion)
    /\ alreadyExists existingDictionary (original suggestion) = false).
  { destruct (singleWordChange (tokenize originalText) (tokenize editedText)
                existingDictionary) as [diff | ] eqn:Hfirst.
    - injection Hdetect as ->.
      apply singleWordChange_Some in Hfirst as (Hlen & Hdiff & Hnew).
      destruct (differences_single toLowerCase _ _ _ Hlen Hdiff)
        as (o1 & o2 & e1 & e2 & Ho & He & _ & _ & Hcase).
      split; [ | split; [ | split; assumption]].
      + exists [original suggestion]. split; [discriminate | ].
        split; [reflexivity | ]. intros w [<- | []]. rewrite Ho.
        apply in_or_app. right. now left.
      + rewrite He. apply in_or_app. right. now left.
    - apply phraseChange_Some in Hdetect
        as (_ & Hremoved & added & Hadded & -> & Hnew & Hcase).
      cbn [original corrected].
      split; [ | split; [ | split; assumption]].
      + exists (removedWords (tokenize originalText) (tokenize editedText)).
        split; [exact Hremoved | ]. split; [reflexivity | ].
        intros w Hw. now apply removedWords_In in Hw as [Hw _].
      + assert (Hin : In added (addedWords (tokenize originalText)
                                  (tokenize editedText)))
          by (rewrite Hadded; now left).
        now apply addedWords_In in Hin as [Hin _]. }
  destruct Hparts as ((words & Hwords & Horiginal & Hsource) & Hcorrected
                      & Hcase & Hnew).
  split; [exists words; repeat split; assumption | ].
  split; [exact Hcorrected | ]. split; [ | split; [ | split]].
  - rewrite Horiginal. destruct words as [ | w words]; [contradiction | ].
    apply join_nonempty.
    apply (tokenize_tokens originalText w). apply Hsource. now left.
  - now apply (tokenize_tokens editedText).
  - exact Hcase.
  - now apply alreadyExists_false.
Qed.

(** *** Accepting a suggestion *)

Lemma phraseChange_known (originalWords editedWords : list JsString)
  (existingDictionary : list Dictionary.DictionaryEntry) :
  alreadyExists existingDictionary
    (join (js " ") (removedWords originalWords editedWords)) = true ->
  phraseChange originalWords editedWords existingDictionary = None.
Proof.
  intros Hknown. unfold Detector.phraseChange. cbv zeta.
  destruct (_ <=? 2); [ | reflexivity].
  destruct (_ && _); [ | reflexivity].
  destruct (addedWords originalWords editedWords); [reflexivity | ].
  now rewrite Hknown.
Qed.

Lemma alreadyExists_cons (entry : Dictionary.DictionaryEntry)
  (existingDictionary : list Dictionary.DictionaryEntry) (word : JsString) :
  alreadyExists (entry :: existingDictionary) word
  = JsString_eqb (toLowerCase (Dictionary.original entry)) (toLowerCase word)
    || alreadyExists existingDictionary word.
Proof. reflexivity. Qed.

Lemma singleWordChange_None_cons (originalWords editedWords : list JsString)
  (entry : Dictionary.DictionaryEntry)
  (existingDictionary : list Dictionary.DictionaryEntry) :
  singleWordChange originalWords editedWords existingDictionary = None ->
  singleWordChange originalWords editedWords (entry :: existingDictionary)
  = None.
Proof.
  unfold Detector.singleWordChange.
  destruct (_ =? _)%nat; [ | reflexivity].
  destruct (differences originalWords editedWords) as [ | diff [ | ? ?]];
    try reflexivity.
  rewrite alreadyExists_cons.
  destruct (alreadyExists existingDictionary (original diff));
    [now rewrite orb_true_r | discriminate].
Qed.

Lemma detect_known (originalText editedText : JsString)
  (entry : Dictionary.DictionaryEntry)
  (existingDictionary : list Dictionary.DictionaryEntry)
  (suggestion : DetectedCorrection) :
  detectWordCorrection originalText editedText existingDictionary
  = Some suggestion ->
  Dictionary.original entry = original suggestion ->
  detectWordCorrection originalText editedText (entry :: existingDictionary)
  = None.
Proof.
  rewrite !detectWordCorrection_blocks. intros Hdetect Hentry.
  destruct (singleWordChange (tokenize originalText) (tokenize editedText)
              existingDictionary) as [diff | ] eqn:Hfirst.
  - injection Hdetect as ->.
    apply singleWordChange_Some in Hfirst as (Hlen & Hdiff & Hnew).
    assert (Hblocked :
      singleWordChange (tokenize originalText) (tokenize editedText)
        (entry :: existingDictionary) = None).
    { unfold Detector.singleWordChange.
      rewrite Hdiff, alreadyExists_cons, Hentry, JsString_eqb_refl.
      now destruct (_ =? _)%nat. }
    rewrite Hblocked.
    destruct (removedWords_single toLowerCase _ _ _ Hlen Hdiff)
      as [Hnone | Hone].
    + now apply phraseChange_nothing_removed.
    + apply phraseChange_known. rewrite Hone. cbn [join].
      now rewrite alreadyExists_cons, Hentry, JsString_eqb_refl.
  - rewrite (singleWordChange_None_cons _ _ _ _ Hfirst).
    apply phraseChange_Some in Hdetect
      as (_ & _ & added & _ & -> & _ & _).
    cbn [original] in Hentry. apply phraseChange_known.
    now rewrite alreadyExists_cons, Hentry, JsString_eqb_refl.
Qed.

(** X18. A suggestion that the user accepts is not made again: once
    the overlay has sent it to [add-dictionary-entry], the detector
    suggests nothing for the same pair of texts with the dictionary
    that the handler returns. *)
Theorem accepted_suggestion_not_repeated (originalText editedText : JsString)
  (suggestion : DetectedCorrection) (now now' : Z) (store : Main.Store) :
  detectWordCorrection originalText editedText (Main.get_dictionary store)
  = Some suggestion ->
  detectWordCorrection originalText editedText
    (fst (Main.add_dictionary_entry now now' (Main.accepted suggestion)
            store))
  = None
  /\ detectWordCorrection originalText editedText
       (Main.get_dictionary
          (snd (Main.add_dictionary_entry now now' (Main.accepted suggestion)
                  store)))
     = None.
Proof.
  intros Hdetect. unfold Main.add_dictionary_entry. cbn [fst snd].
  rewrite get_dictionary_insert.
  split; apply (detect_known _ _ _ _ _ Hdetect); reflexivity.
Qed.

End AcceptedSuggestions.

Lemma detect_sound_witness :
  In (js "tallie.io") (Detector.tokenize (js "visit tallie.io"))
  /\ Detector.latin1ToLowerCase (js "tally dot io")
     <> Detector.latin1ToLowerCase (js "tallie.io").
Proof.
  destruct (detect_sound Detector.latin1ToLowerCase
              (js "visit tally dot io") (js "visit tallie.io") []
              {| Detector.original := js "tally dot io";
                 Detector.corrected := js "tallie.io" |})
    as (_ & Hcorrected & _ & _ & Hcase & _).
  - vm_compute. reflexivity.
  - split; [exact Hcorrected | exact Hcase].
Defined.

Lemma accepted_suggestion_not_repeated_witness :
  Detector.detectWordCorrection Detector.latin1ToLowerCase
    (js "visit tally dot io") (js "visit tallie.io")
    (fst (Main.add_dictionary_entry 7 7
            (Main.accepted {| Detector.original := js "tally dot io";
                              Detector.corrected := js "tallie.io" |})
            Main.demoDictionary))
  = None.
Proof.
  destruct (accepted_suggestion_not_repeated Detector.latin1ToLowerCase
              (js "visit tally dot io") (js "visit tallie.io")
              {| Detector.original := js "tally dot io";
                 Detector.corrected := js "tallie.io" |} 7 7
              Main.demoDictionary) as (Hsilent & _).
  - vm_compute. reflexivity.
  - exact Hsilent.
Defined.

(* ================================================================= *)
(** * What the cleanup returns *)

Section CleanupFacts.
Import PostProcessing.

Lemma trimStart_suffix (s : JsString) :
  exists gap, s = gap ++ trimStart s
              /\ Forall (fun c => isWhiteSpace c = true) gap.
Proof.
  induction s as [ | c s (gap & Hs & Hgap)].
  - now exists [].
  - cbn [trimStart]. destruct (isWhiteSpace c) eqn:Hc.
    + exists (c :: gap). cbn [app]. rewrite <- Hs. split; [reflexivity | ].
      now constructor.
    + exists []. split; [reflexivity | constructor].
Qed.

Lemma trimStart_head (s : JsString) (c : Z) (rest : JsString) :
  trimStart s = c :: rest -> isWhiteSpace c = false.
Proof.
  induction s as [ | c' s IH]; [discriminate | ].
  cbn [trimStart]. destruct (isWhiteSpace c') eqn:Hc; [exact IH | ].
  now intros [= -> _].
Qed.

(** What [trim] leaves begins and ends with a code unit that is not
    white space. *)
Lemma trim_ends (s : JsString) :
  trim s <> [] ->
  (exists c, head (trim s) = Some c /\ isWhiteSpace c = false)
  /\ (exists c, last (trim s) = Some c /\ isWhiteSpace c = false).
Proof.
  unfold trim, trimEnd. intros Hnonempty.
  destruct (trimStart (rev (trimStart s))) as [ | c rest] eqn:Hend;
    [contradiction | ].
  pose proof (trimStart_head _ _ _ Hend) as Hc.
  split.
  - destruct (trimStart_suffix (rev (trimStart s))) as (gap & Hrev & _).
    rewrite Hend in Hrev.
    apply (f_equal (@rev Z)) in Hrev. rewrite rev_involutive in Hrev.
    rewrite rev_app_distr in Hrev.
    destruct (rev (c :: rest)) as [ | c' rest'] eqn:Hfirst.
    + apply (f_equal (@length Z)) in Hfirst. rewrite length_rev in Hfirst.
      discriminate.
    + exists c'. split; [reflexivity | ].
      cbn [app] in Hrev. now apply (trimStart_head s c' (rest' ++ rev gap)).
  - exists c. split; [ | exact Hc].
    cbn [rev]. now rewrite last_snoc.
Qed.

(** X19. The cleanup returns either the transcript as it was given,
    or the trimmed answer of the service, which is then not empty and
    neither begins nor ends with white space. It never turns a
    transcript into the empty string. *)
Theorem postProcessTranscription_result
  (create : ChatRequest -> ChatOutcome) (text apiKey : JsString)
  (options : OptionsObject) :
  let result := fst (postProcessTranscription create text apiKey options) in
  (result = text
   \/ (exists request content,
          create request = Responds (Some content)
          /\ req_user request = text
          /\ result = trim content)
      /\ result <> []
      /\ (exists c, head result = Some c /\ isWhiteSpace c = false)
      /\ (exists c, last result = Some c /\ isWhiteSpace c = false))
  /\ (text <> [] -> result <> []).
Proof.
  cbv zeta.
  assert (Hcases :
    fst (postProcessTranscription create text apiKey options) = text
    \/ (exists request content,
           create request = Responds (Some content)
           /\ req_user request = text
           /\ fst (postProcessTranscription create text apiKey options)
              = trim content)
       /\ fst (postProcessTranscription create text apiKey options) <> []).
  { unfold postProcessTranscription.
    destruct (negb (existsb _ _)); [now left | ].
    match goal with |- context [create ?r] =>
      destruct (create r) as [e | [content | ]] eqn:Hcreate;
        cbn [fst]; try (now left);
        destruct (truthy (trim content)) eqn:Hcontent; [right | now left];
        split; [exists r, content; repeat split; assumption | ]
    end.
    intros Hempty. rewrite Hempty in Hcontent. discriminate. }
  split.
  - destruct Hcases as [Hsame | ((request & content & Hcreate & Huser
                                  & Hresult) & Hnonempty)];
      [now left | right].
    split; [now exists request, content | ].
    split; [exact Hnonempty | ].
    rewrite Hresult in *. now apply trim_ends.
  - intros Htext. destruct Hcases as [-> | [_ Hnonempty]]; assumption.
Qed.

Lemma postProcessTranscription_result_witness :
  fst (postProcessTranscription
         (fun request => Responds (Some (js " Hello. ")))
         (js "um hello") (js "gsk_key")
         (declared DEFAULT_POST_PROCESSING_OPTIONS)) <> [].
Proof.
  apply (proj2 (postProcessTranscription_result
                  (fun request => Responds (Some (js " Hello. ")))
                  (js "um hello") (js "gsk_key")
                  (declared DEFAULT_POST_PROCESSING_OPTIONS))).
  discriminate.
Defined.

End CleanupFacts.

(* ================================================================= *)
(** * The quantiser *)

Section QuantiserFacts.
Import Wav.

Lemma truncate_nonneg (q : Q) :
  (0 <= q)%Q ->
  0 <= truncate q /\ (inject_Z (truncate q) <= q)%Q
  /\ (q < inject_Z (truncate q) + 1)%Q.
Proof.
  destruct q as [n d]. unfold Qle, Qlt, truncate. cbn. intros Hn.
  rewrite Z.quot_div_nonneg by lia.
  pose proof (Z.div_pos n (Z.pos d) ltac:(lia) ltac:(lia)).
  pose proof (Z.mul_div_le n (Z.pos d) ltac:(lia)).
  pose proof (Z.mul_succ_div_gt n (Z.pos d) ltac:(lia)).
  split; [lia | ]. split; nia.
Qed.

Lemma truncate_nonpos (q : Q) :
  (q <= 0)%Q ->
  truncate q <= 0 /\ (q <= inject_Z (truncate q))%Q
  /\ (inject_Z (truncate q) - 1 < q)%Q.
Proof.
  destruct q as [n d]. unfold Qle, Qlt, truncate. cbn. intros Hn.
  replace n with (- (- n)) by lia.
  rewrite Z.quot_opp_l by lia. rewrite Z.quot_div_nonneg by lia.
  pose proof (Z.div_pos (- n) (Z.pos d) ltac:(lia) ltac:(lia)).
  pose proof (Z.mul_div_le (- n) (Z.pos d) ltac:(lia)).
  pose proof (Z.mul_succ_div_gt (- n) (Z.pos d) ltac:(lia)).
  split; [lia | ]. split; nia.
Qed.

Lemma div_le_cross (a b c d : Z) :
  0 <= a -> 0 < b -> 0 < d -> a * d <= c * b -> a / b <= c / d.
Proof.
  intros Ha Hb Hd Hcross.
  apply Z.div_le_lower_bound; [exact Hd | ].
  pose proof (Z.mul_div_le a b Hb).
  pose proof (Z.div_pos a b Ha Hb). nia.
Qed.

Lemma truncate_le (p q : Q) : (p <= q)%Q -> truncate p <= truncate q.
Proof.
  destruct p as [n1 d1], q as [n2 d2]. unfold Qle, truncate. cbn.
  intros Hpq.
  destruct (Z.le_gt_cases 0 n1) as [Hn1 | Hn1].
  - assert (Hn2 : 0 <= n2) by nia.
    rewrite !Z.quot_div_nonneg by lia.
    apply div_le_cross; lia.
  - replace n1 with (- (- n1)) by lia. rewrite Z.quot_opp_l by lia.
    rewrite (Z.quot_div_nonneg (- n1)) by lia.
    pose proof (Z.div_pos (- n1) (Z.pos d1) ltac:(lia) ltac:(lia)).
    destruct (Z.le_gt_cases 0 n2) as [Hn2 | Hn2].
    + rewrite Z.quot_div_nonneg by lia.
      pose proof (Z.div_pos n2 (Z.pos d2) ltac:(lia) ltac:(lia)). lia.
    + replace n2 with (- (- n2)) by lia. rewrite Z.quot_opp_l by lia.
      rewrite (Z.quot_div_nonneg (- n2)) by lia.
      assert (- n2 / Z.pos d2 <= - n1 / Z.pos d1)
        by (apply div_le_cross; lia).
      lia.
Qed.

Lemma clamp_le (p q : Q) (c1 c2 : Q) :
  (p <= q)%Q ->
  (c1 = p \/ c1 = 1%Q /\ (1 <= p)%Q \/ c1 = (-1)%Q /\ (p <= -1)%Q) ->
  (c2 = q \/ c2 = 1%Q /\ (1 <= q)%Q \/ c2 = (-1)%Q /\ (q <= -1)%Q) ->
  (-1 <= c1 <= 1)%Q -> (-1 <= c2 <= 1)%Q ->
  (c1 <= c2)%Q.
Proof.
  intros Hpq [-> | [[-> Hp] | [-> Hp]]] [-> | [[-> Hq] | [-> Hq]]]
    [Hlo1 Hhi1] [Hlo2 Hhi2];
    try assumption; try apply Qle_refl.
  - eapply Qle_trans; [exact Hpq | exact Hq].
  - eapply Qle_trans; [exact Hp | exact Hpq].
  - eapply Qle_trans; [exact Hp | ]. eapply Qle_trans; [exact Hpq | exact Hq].
Qed.

Lemma Qlt_bool_true (p q : Q) : Qlt_bool p q = true <-> (p < q)%Q.
Proof.
  unfold Qlt_bool. rewrite negb_true_iff. split.
  - intros H. apply Qnot_le_lt. intros Hle.
    apply Qle_bool_iff in Hle. congruence.
  - intros H. destruct (Qle_bool q p) eqn:Hle; [ | reflexivity].
    apply Qle_bool_iff in Hle. exfalso. exact (Qlt_not_le _ _ H Hle).
Qed.

Lemma Qlt_bool_false (p q : Q) : Qlt_bool p q = false <-> (q <= p)%Q.
Proof.
  unfold Qlt_bool. rewrite negb_false_iff. apply Qle_bool_iff.
Qed.

Lemma scaled_le (c1 c2 : Q) :
  (c1 <= c2)%Q ->
  ((if Qlt_bool c1 0 then c1 * 32768 else c1 * 32767)
   <= (if Qlt_bool c2 0 then c2 * 32768 else c2 * 32767))%Q.
Proof.
  intros Hle.
  destruct (Qlt_bool c1 0) eqn:H1, (Qlt_bool c2 0) eqn:H2;
    rewrite ?Qlt_bool_true, ?Qlt_bool_false in *.
  - apply Qmult_le_compat_r; [exact Hle | discriminate].
  - apply Qle_trans with (0 * 32768)%Q.
    + apply Qmult_le_compat_r; [now apply Qlt_le_weak | discriminate].
    + apply Qle_trans with 0%Q; [discriminate | ].
      apply Qmult_le_0_compat; [exact H2 | discriminate].
  - exfalso. apply (Qlt_irrefl 0).
    eapply Qle_lt_trans; [exact H1 | ].
    eapply Qle_lt_trans; [exact Hle | exact H2].
  - apply Qmult_le_compat_r; [exact Hle | discriminate].
Qed.

(** X20. The quantiser keeps the order of the samples: a louder
    sample is never stored as a smaller integer, also across zero,
    where the scale changes from 32768 to 32767, and beyond full
    scale, where the clamp sets in. *)
Theorem pcm16_monotone (p q : Q) :
  (p <= q)%Q -> pcm16 (Finite p) <= pcm16 (Finite q).
Proof.
  intros Hpq.
  destruct (pcm16_Finite p) as (c1 & _ & Hrange1 & Hcases1 & ->).
  destruct (pcm16_Finite q) as (c2 & _ & Hrange2 & Hcases2 & ->).
  apply truncate_le, scaled_le.
  exact (clamp_le p q c1 c2 Hpq Hcases1 Hcases2 Hrange1 Hrange2).
Qed.

Lemma pcm16_monotone_witness :
  pcm16 (Finite (-1 # 3)) <= pcm16 (Finite (1 # 3)).
Proof. apply pcm16_monotone. vm_compute. discriminate. Defined.

(** X21. Within full scale the integer stored is the scaled sample
    rounded towards zero: it lies on the same side of zero as the
    sample and less than one step away from [sample * 32767] for a
    sample that is not negative and from [sample * 32768] for one
    that is not positive. *)
Theorem pcm16_rounds_towards_zero (q : Q) :
  (-1 <= q <= 1)%Q ->
  ((0 <= q)%Q ->
   0 <= pcm16 (Finite q)
   /\ (inject_Z (pcm16 (Finite q)) <= q * 32767)%Q
   /\ (q * 32767 < inject_Z (pcm16 (Finite q)) + 1)%Q)
  /\ ((q <= 0)%Q ->
      pcm16 (Finite q) <= 0
      /\ (q * 32768 <= inject_Z (pcm16 (Finite q)))%Q
      /\ (inject_Z (pcm16 (Finite q)) - 1 < q * 32768)%Q).
Proof.
  intros [Hlo Hhi].
  destruct (pcm16_Finite q) as (c & _ & _ & Hcases & ->).
  assert (Hc : (c == q)%Q).
  { destruct Hcases as [-> | [[-> Hq] | [-> Hq]]]; [reflexivity | | ];
      now apply Qle_antisym. }
  split; intros Hsign.
  - assert (Hpos : Qlt_bool c 0 = false)
      by (apply Qlt_bool_false; now rewrite Hc).
    rewrite Hpos. rewrite <- Hc. apply truncate_nonneg.
    apply Qmult_le_0_compat; [now rewrite Hc | discriminate].
  - destruct (Qlt_bool c 0) eqn:Hneg.
    + rewrite <- Hc. apply truncate_nonpos.
      apply Qle_trans with (0 * 32768)%Q; [ | discriminate].
      apply Qmult_le_compat_r; [now rewrite Hc | discriminate].
    + apply Qlt_bool_false in Hneg.
      assert (Hc0 : (c <= 0)%Q) by (now rewrite Hc).
      assert (Hq0 : (0 <= q)%Q) by (now rewrite <- Hc).
      assert (Hscaled : truncate (c * 32767) = 0).
      { destruct (truncate_nonneg (c * 32767)) as (H1 & H2 & _).
        - apply Qmult_le_0_compat; [exact Hneg | discriminate].
        - assert (H3 : (inject_Z (truncate (c * 32767)) <= inject_Z 0)%Q).
          { eapply Qle_trans; [exact H2 | ].
            apply Qle_trans with (0 * 32767)%Q; [ | discriminate].
            apply Qmult_le_compat_r; [exact Hc0 | discriminate]. }
          rewrite <- Zle_Qle in H3. lia. }
      rewrite Hscaled. split; [lia | ]. split.
      * apply Qle_trans with (0 * 32768)%Q; [ | discriminate].
        apply Qmult_le_compat_r; [exact Hsign | discriminate].
      * apply Qlt_le_trans with (0 * 32768)%Q; [reflexivity | ].
        apply Qmult_le_compat_r; [exact Hq0 | discriminate].
Qed.

Lemma pcm16_rounds_towards_zero_witness :
  0 <= pcm16 (Finite (1 # 3))
  /\ (inject_Z (pcm16 (Finite (1 # 3))) <= (1 # 3) * 32767)%Q.
Proof.
  destruct (pcm16_rounds_towards_zero (1 # 3)) as (Hpos & _).
  - split; vm_compute; discriminate.
  - destruct Hpos as (Hsign & Hbelow & _); [vm_compute; discriminate | ].
    split; [exact Hsign | exact Hbelow].
Defined.

End QuantiserFacts.

(* ================================================================= *)
(** * The log of a session of the overlay *)

Section SessionFacts.
Import Overlay Recorder.

(** *** What a computation emits *)

Lemma emits_mret {A} (P : Event -> Prop) (a : A) : emits P (mret a : M A).
Proof.
  intros st. exists []. split; [symmetry; apply app_nil_r | constructor].
Qed.

Lemma emits_throw {A} (P : Event -> Prop) (e : Exn) :
  emits P (throw e : M A).
Proof.
  intros st. exists []. split; [symmetry; apply app_nil_r | constructor].
Qed.

Lemma emits_settle {A} (P : Event -> Prop) (outcome : Exn + A) :
  emits P (settle outcome).
Proof.
  intros st. exists []. split; [symmetry; apply app_nil_r | constructor].
Qed.

Lemma emits_getRefs (P : Event -> Prop) : emits P getRefs.
Proof.
  intros st. exists []. split; [symmetry; apply app_nil_r | constructor].
Qed.

Lemma emits_release (P : Event -> Prop) : emits P release.
Proof.
  intros st. exists []. split; [symmetry; apply app_nil_r | constructor].
Qed.

Lemma emits_emit (P : Event -> Prop) (ev : Event) : P ev -> emits P (emit ev).
Proof.
  intros Hev st. exists [ev]. split; [reflexivity | ].
  constructor; [exact Hev | constructor].
Qed.

(** The continuation matters only for the values the first part
    returns. *)
Lemma emits_mbind_result {A B} (P : Event -> Prop) (m : M A)
  (f : A -> M B) :
  emits P m ->
  (forall a st, fst (m st) = inr a -> emits P (f a)) ->
  emits P (m ≫= f).
Proof.
  intros Hm Hf st. unfold mbind, M_bind.
  destruct (Hm st) as (new & Hnew & HP).
  specialize (Hf) with (st := st).
  destruct (m st) as [[e | a] st1]; cbn [fst snd] in *.
  - exists new. split; assumption.
  - destruct (Hf a eq_refl st1) as (new' & Hnew' & HP').
    exists (new ++ new'). split.
    + rewrite Hnew', Hnew, app_assoc. reflexivity.
    + apply Forall_app. split; assumption.
Qed.

Lemma emits_mbind {A B} (P : Event -> Prop) (m : M A) (f : A -> M B) :
  emits P m -> (forall a, emits P (f a)) -> emits P (m ≫= f).
Proof.
  intros Hm Hf. apply emits_mbind_result; [exact Hm | ].
  intros a _ _. apply Hf.
Qed.

Lemma emits_await {A} (P : Event -> Prop) (ev : Event) (outcome : Exn + A) :
  P ev -> emits P (await ev outcome).
Proof.
  intros Hev. unfold await. apply emits_mbind; [now apply emits_emit | ].
  intros _. apply emits_settle.
Qed.

Lemma await_result {A} (ev : Event) (outcome : Exn + A) (st : State) :
  fst (await ev outcome st) = outcome.
Proof. reflexivity. Qed.

Lemma emits_setError (P : Event -> Prop) (value : Datatypes.option JsString) :
  P (SetError value) -> emits P (setError value).
Proof.
  intros Hev st. exists [SetError value]. split; [reflexivity | ].
  constructor; [exact Hev | constructor].
Qed.

Lemma emits_setIsProcessing (P : Event -> Prop) (value : bool) :
  P (SetIsProcessing value) -> emits P (setIsProcessing value).
Proof.
  intros Hev st. exists [SetIsProcessing value]. split; [reflexivity | ].
  constructor; [exact Hev | constructor].
Qed.

Lemma emits_try_catch {A} (P : Event -> Prop) (body : M A)
  (handler : Exn -> M A) :
  emits P body -> (forall e, emits P (handler e)) ->
  emits P (try_catch body handler).
Proof.
  intros Hbody Hhandler st. unfold try_catch.
  destruct (Hbody st) as (new & Hnew & HP).
  destruct (body st) as [[e | a] st1]; cbn [snd] in *.
  - destruct (Hhandler e st1) as (new' & Hnew' & HP').
    exists (new ++ new'). split.
    + rewrite Hnew', Hnew, app_assoc. reflexivity.
    + apply Forall_app. split; assumption.
  - exists new. split; assumption.
Qed.

Lemma throws_after_setError {A} (value : Datatypes.option JsString) (e : Exn)
  (st : State) (a : A) :
  fst ((setError value;; (throw e : M A)) st) = inr a -> False.
Proof. discriminate. Qed.

Lemma shortMessage_length (err : Exn) :
  (1 <= length (shortMessage err) <= 15)%nat.
Proof.
  unfold shortMessage. destruct (message err) as [m | ]; [ | cbn; lia].
  destruct (take 15 m) as [ | c rest] eqn:Htake; cbn [truthy]; [cbn; lia | ].
  rewrite <- Htake, length_take. split; [ | lia].
  apply (f_equal (@length Z)) in Htake. rewrite length_take in Htake.
  cbn [length] in Htake. lia.
Qed.

(** *** The events of the handler

    Whatever holds of the events the handler can emit, under the
    conditions in which it emits them, holds of every event of every
    run. *)

Section Log.

Variable P : Event -> Prop.
Variable env : Env.

Hypothesis P_label :
  forall label, (1 <= length label <= 15)%nat -> P (SetError (Some label)).
Hypothesis P_console : P ConsoleError.
Hypothesis P_warn : P ConsoleWarn.
Hypothesis P_clear : P (ClearErrorAfter 3000).
Hypothesis P_settings : P GetSettings.
Hypothesis P_transcribe :
  forall settings audioBlob,
    getSettings env = inr settings ->
    truthy (apiKey settings) = true ->
    P (TranscribeAudio audioBlob (apiKey settings)).
Hypothesis P_chat :
  forall settings request,
    getSettings env = inr settings ->
    truthy (apiKey settings) = true ->
    aiPostProcessing settings = true ->
    PostProcessing.req_apiKey request = apiKey settings ->
    P (ChatCompletion request).
Hypothesis P_words : forall wordCount, 0 < wordCount -> P (AddWords wordCount).
Hypothesis P_history :
  forall settings record,
    getSettings env = inr settings ->
    incognitoMode settings = false ->
    P (AddToHistory record).
Hypothesis P_type : forall text, nonBlank text = true -> P (TypeText text).

Lemma emits_catchBlock (err : Exn) : emits P (catchBlock err).
Proof.
  unfold catchBlock.
  apply emits_mbind; [now apply emits_emit | intros _].
  apply emits_mbind; [ | intros _; now apply emits_emit].
  apply emits_setError, P_label, shortMessage_length.
Qed.

Lemma emits_postProcess (settings : Settings) (text : JsString) :
  getSettings env = inr settings ->
  truthy (apiKey settings) = true ->
  aiPostProcessing settings = true ->
  emits P (postProcess env settings text).
Proof.
  intros Hsettings Hkey Hai. unfold postProcess.
  apply emits_mbind; [apply emits_getRefs | intros r].
  match goal with
  | |- context [PostProcessing.postProcessTranscription ?c ?t ?k ?o] =>
      pose proof (postProcessTranscription_requests c t k o) as Hrequests;
      destruct (PostProcessing.postProcessTranscription c t k o)
        as [result effects]
  end.
  cbv zeta in Hrequests. cbn [snd] in Hrequests.
  destruct Hrequests as [-> | ->]; cbn [foldr]; [apply emits_mret | ].
  apply emits_mbind; [apply emits_emit; now apply (P_chat settings) | ].
  intros _. destruct (chatCompletion env _); cbn [foldr];
    [ | apply emits_mret].
  apply emits_mbind; [now apply emits_emit | intros _; apply emits_mret].
Qed.

Lemma emits_deliver (settings : Settings) (text : JsString) :
  getSettings env = inr settings ->
  emits P (deliver env settings text).
Proof.
  intros Hsettings. unfold deliver.
  destruct (nonBlank text) eqn:Hblank.
  - apply emits_mbind.
    + destruct (0 <? _) eqn:Hcount; [ | apply emits_mret].
      apply emits_mbind.
      * apply emits_await, P_words. now apply Z.ltb_lt.
      * intros _. destruct (incognitoMode settings) eqn:Hincognito;
          cbn [negb]; [apply emits_mret | ].
        apply emits_await. now apply (P_history settings).
    + intros _. apply emits_mbind; [now apply emits_await, P_type | ].
      intros pasted. destruct pasted; cbn [negb];
        [apply emits_mret | now apply emits_emit].
  - apply emits_setError, P_label. cbn. lia.
Qed.

(** The [try] block from the answer of [getSettings] on. *)
Lemma emits_afterSettings (audioBlob : Blob) (settings : Settings) :
  getSettings env = inr settings ->
  emits P
    ((if negb (truthy (apiKey settings))
      then setError (Some (js "No API key"));;
           throw (Error "No API key configured")
      else mret tt);;
     text ← await (TranscribeAudio audioBlob (apiKey settings))
              (transcribeAudio env audioBlob (apiKey settings));
     text ← (if aiPostProcessing settings && nonBlank text
             then try_catch (postProcess env settings text)
                    (fun e => emit ConsoleError;; mret text)
             else mret text);
     deliver env settings text).
Proof.
  intros Hsettings.
  destruct (truthy (apiKey settings)) eqn:Hkey; cbn [negb].
  - apply emits_mbind; [apply emits_mret | intros _].
    apply emits_mbind;
      [apply emits_await; now apply (P_transcribe settings) | intros text].
    apply emits_mbind; [ | intros text'; now apply emits_deliver].
    destruct (aiPostProcessing settings) eqn:Hai; cbn [andb];
      [ | apply emits_mret].
    destruct (nonBlank text); [ | apply emits_mret].
    apply emits_try_catch; [now apply emits_postProcess | ].
    intros e. apply emits_mbind; [now apply emits_emit | ].
    intros _. apply emits_mret.
  - apply emits_mbind_result.
    + apply emits_mbind; [ | intros _; apply emits_throw].
      apply emits_setError, P_label. cbn. lia.
    + intros a st' Hreturned. discriminate Hreturned.
Qed.

Lemma emits_tryBlock (mimeType : JsString) : emits P (tryBlock env mimeType).
Proof.
  unfold tryBlock.
  apply emits_mbind; [apply emits_getRefs | intros r].
  apply emits_mbind.
  { destruct (_ =? _)%nat; [ | apply emits_mret].
    apply emits_mbind; [ | intros _; apply emits_throw].
    apply emits_setError, P_label. cbn. lia. }
  intros _. cbv zeta.
  apply emits_mbind.
  { destruct (_ <? _)%nat; [ | apply emits_mret].
    apply emits_mbind; [ | intros _; apply emits_throw].
    apply emits_setError, P_label. cbn. lia. }
  intros _.
  apply emits_mbind_result; [now apply emits_await | ].
  intros settings st Hsettings. rewrite await_result in Hsettings.
  now apply emits_afterSettings.
Qed.

Lemma emits_body (mimeType : JsString) :
  emits P (try_catch (tryBlock env mimeType) catchBlock).
Proof.
  apply emits_try_catch; [apply emits_tryBlock | apply emits_catchBlock].
Qed.

End Log.

(** The handler brackets what its body emits. *)
Lemma onstop_brackets (P : Event -> Prop) (env : Env) (mimeType : JsString) :
  emits P (try_catch (tryBlock env mimeType) catchBlock) ->
  forall st, exists new,
    events (snd (onstop env mimeType st))
    = events st ++ [SetIsProcessing true; SetError None] ++ new
      ++ [SetIsProcessing false; RecordingStopped]
    /\ Forall P new.
Proof.
  intros Hbody st.
  unfold onstop, finallyBlock, setIsProcessing, setError, release, emit,
    modify, try_finally, mbind, M_bind.
  cbn [isProcessing error refs devices events].
  match goal with |- context [try_catch ?b ?h ?st2] =>
    destruct (Hbody st2) as (new & Hnew & HP);
    destruct (try_catch b h st2) as [r st3]
  end.
  cbn [snd events] in Hnew.
  exists new. split; [ | exact HP].
  destruct r as [e | []]; cbn [snd events isProcessing error refs devices];
    rewrite Hnew, <- !app_assoc; reflexivity.
Qed.

(** X22. Every run of the overlay's handler, whatever its
    collaborators do, switches the spinner on first and off last and
    tells the main process that the recording has stopped exactly
    once, as its last action: nothing in between touches the spinner
    or sends that message. *)
Theorem onstop_notifies_main_last (env : Env) (mimeType : JsString)
  (st : State) :
  exists new,
    events (snd (onstop env mimeType st))
    = events st ++ [SetIsProcessing true; SetError None] ++ new
      ++ [SetIsProcessing false; RecordingStopped]
    /\ Forall (fun ev => ev <> RecordingStopped
                         /\ forall value, ev <> SetIsProcessing value) new.
Proof.
  apply onstop_brackets. apply emits_body; intros; split; discriminate.
Qed.

(** X23. Every error label the handler sets fits the pill: it has
    between one and fifteen code units, whatever message a
    collaborator rejects with. *)
Theorem onstop_error_labels (env : Env) (mimeType : JsString) (st : State) :
  exists new,
    events (snd (onstop env mimeType st)) = events st ++ new
    /\ forall label, In (SetError (Some label)) new ->
                     (1 <= length label <= 15)%nat.
Proof.
  destruct (onstop_brackets
              (fun ev => match ev with
                         | SetError (Some label) =>
                             (1 <= length label <= 15)%nat
                         | _ => True
                         end) env mimeType) with (st := st)
    as (new & Hnew & HP).
  { apply emits_body; intros; try exact I; assumption. }
  eexists. split; [exact Hnew | ].
  intros label Hin. rewrite Forall_forall in HP.
  apply in_app_or in Hin as [Hin | Hin];
    [cbn in Hin; intuition discriminate | ].
  apply in_app_or in Hin as [Hin | Hin];
    [ | cbn in Hin; intuition discriminate].
  apply list_elem_of_In in Hin. exact (HP _ Hin).
Qed.

(** X24. In incognito mode nothing is written to the history: when
    the settings say [incognitoMode], no run calls [addToHistory],
    whatever was dictated and whatever else fails or succeeds. *)
Theorem incognito_keeps_no_history (env : Env) (mimeType : JsString)
  (st : State) :
  (forall settings, getSettings env = inr settings ->
                    incognitoMode settings = true) ->
  exists new,
    events (snd (onstop env mimeType st)) = events st ++ new
    /\ forall record, ~ In (AddToHistory record) new.
Proof.
  intros Hincognito.
  destruct (onstop_brackets
              (fun ev => match ev with
                         | AddToHistory _ => False
                         | _ => True
                         end) env mimeType) with (st := st)
    as (new & Hnew & HP).
  { apply emits_body; intros; try exact I.
    match goal with
    | Hsettings : getSettings env = inr ?s, Hoff : incognitoMode ?s = false
      |- _ => rewrite (Hincognito s Hsettings) in Hoff; discriminate
    end. }
  eexists. split; [exact Hnew | ].
  intros record Hin. rewrite Forall_forall in HP.
  apply in_app_or in Hin as [Hin | Hin];
    [cbn in Hin; intuition discriminate | ].
  apply in_app_or in Hin as [Hin | Hin];
    [ | cbn in Hin; intuition discriminate].
  apply list_elem_of_In in Hin. exact (HP _ Hin).
Qed.

Lemma incognito_keeps_no_history_witness :
  exists new,
    events (snd (onstop privateEnv (js "audio/webm")
                   (demoState [demoChunk 50; demoChunk 60] [])))
    = new
    /\ forall record, ~ In (AddToHistory record) new.
Proof.
  destruct (incognito_keeps_no_history privateEnv (js "audio/webm")
              (demoState [demoChunk 50; demoChunk 60] []))
    as (new & Hnew & Hnone).
  - intros settings [= <-]. reflexivity.
  - exists new. split; [exact Hnew | exact Hnone].
Defined.

(** X25. Audio and text leave the machine only under the stored key:
    every transcription request of a run carries the key that
    [getSettings] returned, and that key is not empty; every cleanup
    request carries the same key and is made only when the settings
    enable post-processing. Without settings or without a key no
    request is made at all. *)
Theorem requests_carry_stored_key (env : Env) (mimeType : JsString)
  (st : State) :
  exists new,
    events (snd (onstop env mimeType st)) = events st ++ new
    /\ forall ev, In ev new ->
         match ev with
         | TranscribeAudio _ key =>
             exists settings,
               getSettings env = inr settings
               /\ key = apiKey settings /\ truthy key = true
         | ChatCompletion request =>
             exists settings,
               getSettings env = inr settings
               /\ aiPostProcessing settings = true
               /\ PostProcessing.req_apiKey request = apiKey settings
               /\ truthy (apiKey settings) = true
         | _ => True
         end.
Proof.
  destruct (onstop_brackets
              (fun ev =>
                 match ev with
                 | TranscribeAudio _ key =>
                     exists settings,
                       getSettings env = inr settings
                       /\ key = apiKey settings /\ truthy key = true
                 | ChatCompletion request =>
                     exists settings,
                       getSettings env = inr settings
                       /\ aiPostProcessing settings = true
                       /\ PostProcessing.req_apiKey request = apiKey settings
                       /\ truthy (apiKey settings) = true
                 | _ => True
                 end) env mimeType) with (st := st)
    as (new & Hnew & HP).
  { apply emits_body; intros; try exact I;
      eexists; repeat split; eassumption. }
  eexists. split; [exact Hnew | ].
  intros ev Hin. rewrite Forall_forall in HP.
  apply in_app_or in Hin as [Hin | Hin].
  { cbn in Hin. destruct Hin as [<- | [<- | []]]; exact I. }
  apply in_app_or in Hin as [Hin | Hin].
  - apply list_elem_of_In in Hin. exact (HP _ Hin).
  - cbn in Hin. destruct Hin as [<- | [<- | []]]; exact I.
Qed.

End SessionFacts.

(* ================================================================= *)
(** * Runs of the overlay's handler *)

Section RunFacts.
Import Overlay Recorder.

Ltac unfold_run :=
  unfold onstop, tryBlock, catchBlock, finallyBlock, deliver, try_finally,
    try_catch, setIsProcessing, setError, await, emit, settle, modify,
    getRefs, release, throw, mbind, mret, M_bind, M_ret.

Ltac step_run :=
  cbn [isProcessing error refs devices events chunksRef fst snd
       length Nat.eqb negb andb].

(** X26. When the transcription service rejects, the run ends on the
    error path: the label shown is the first fifteen code units of
    the message (or [Error]), it is cleared after three seconds,
    nothing is typed, counted or written to the history, and the
    handler itself returns normally. *)
Theorem onstop_transcription_rejected (env : Env) (mimeType : JsString)
  (st : State) (settings : Settings) (e : Exn) :
  let audioBlob := new_Blob (chunksRef (refs st)) mimeType in
  chunksRef (refs st) <> [] ->
  (100 <= blobSize audioBlob)%nat ->
  getSettings env = inr settings ->
  truthy (apiKey settings) = true ->
  transcribeAudio env audioBlob (apiKey settings) = inl e ->
  fst (onstop env mimeType st) = inr tt
  /\ error (snd (onstop env mimeType st)) = Some (shortMessage e)
  /\ events (snd (onstop env mimeType st))
     = events st
       ++ [SetIsProcessing true; SetError None; GetSettings;
           TranscribeAudio audioBlob (apiKey settings); ConsoleError;
           SetError (Some (shortMessage e)); ClearErrorAfter 3000;
           SetIsProcessing false; RecordingStopped].
Proof.
  intros audioBlob Hchunks Hsize Hsettings Hkey Hrejected. subst audioBlob.
  destruct st as [ip err r d evs]. cbn [refs] in *.
  assert (Hlong : (blobSize (new_Blob (chunksRef r) mimeType) <? 100)%nat
                  = false) by (apply Nat.ltb_ge; exact Hsize).
  unfold_run. step_run.
  destruct (chunksRef r) as [ | chunk chunks] eqn:Hr; [contradiction | ].
  step_run. rewrite Hlong. step_run.
  rewrite Hsettings. step_run. rewrite Hkey. step_run.
  rewrite Hrejected. step_run.
  split; [reflexivity | ]. split; [reflexivity | ].
  rewrite <- !app_assoc. reflexivity.
Qed.

Lemma onstop_transcription_rejected_witness :
  error (snd (onstop offlineEnv (js "audio/webm")
                (demoState [demoChunk 50; demoChunk 60] [])))
  = Some (js "Connection erro").
Proof.
  destruct (onstop_transcription_rejected offlineEnv (js "audio/webm")
              (demoState [demoChunk 50; demoChunk 60] []) demoSettings
              (Error "Connection error. Please retry"))
    as (_ & Herror & _).
  - discriminate.
  - vm_compute. lia.
  - reflexivity.
  - reflexivity.
  - reflexivity.
  - exact Herror.
Defined.

(** X27. When the transcript is empty or blank, nothing is typed,
    counted, cleaned up or written to the history; the label
    [Empty result] is set and, unlike the labels of the error path,
    no timer is armed to clear it. *)
Theorem onstop_blank_transcript (env : Env) (mimeType : JsString)
  (st : State) (settings : Settings) (text : JsString) :
  let audioBlob := new_Blob (chunksRef (refs st)) mimeType in
  chunksRef (refs st) <> [] ->
  (100 <= blobSize audioBlob)%nat ->
  getSettings env = inr settings ->
  truthy (apiKey settings) = true ->
  transcribeAudio env audioBlob (apiKey settings) = inr text ->
  nonBlank text = false ->
  fst (onstop env mimeType st) = inr tt
  /\ error (snd (onstop env mimeType st)) = Some (js "Empty result")
  /\ events (snd (onstop env mimeType st))
     = events st
       ++ [SetIsProcessing true; SetError None; GetSettings;
           TranscribeAudio audioBlob (apiKey settings);
           SetError (Some (js "Empty result"));
           SetIsProcessing false; RecordingStopped].
Proof.
  intros audioBlob Hchunks Hsize Hsettings Hkey Htext Hblank. subst audioBlob.
  destruct st as [ip err r d evs]. cbn [refs] in *.
  assert (Hlong : (blobSize (new_Blob (chunksRef r) mimeType) <? 100)%nat
                  = false) by (apply Nat.ltb_ge; exact Hsize).
  unfold_run. step_run.
  destruct (chunksRef r) as [ | chunk chunks] eqn:Hr; [contradiction | ].
  step_run. rewrite Hlong. step_run.
  rewrite Hsettings. step_run. rewrite Hkey. step_run.
  rewrite Htext. step_run. rewrite Hblank, andb_false_r. step_run.
  rewrite Hblank. step_run.
  split; [reflexivity | ]. split; [reflexivity | ].
  rewrite <- !app_assoc. reflexivity.
Qed.

Lemma onstop_blank_transcript_witness :
  error (snd (onstop silentEnv (js "audio/webm")
                (demoState [demoChunk 50; demoChunk 60] [])))
  = Some (js "Empty result").
Proof.
  destruct (onstop_blank_transcript silentEnv (js "audio/webm")
              (demoState [demoChunk 50; demoChunk 60] []) demoSettings
              (js "  ")) as (_ & Herror & _).
  - discriminate.
  - vm_compute. lia.
  - reflexivity.
  - reflexivity.
  - reflexivity.
  - reflexivity.
  - exact Herror.
Defined.

End RunFacts.

(* ================================================================= *)
(** * From the recorder's slices to the handler *)

Section RecorderFacts.
Import Overlay Recorder.

Lemma record_state (slices : list Blob) :
  forall st,
    record slices st
    = (inr tt,
       {| isProcessing := isProcessing st; error := error st;
          refs := {| mediaRecorderRef := mediaRecorderRef (refs st);
                     chunksRef :=
                       chunksRef (refs st)
                       ++ List.filter (fun data => (0 <? blobSize data)%nat)
                            slices;
                     streamRef := streamRef (refs st);
                     audioContextRef := audioContextRef (refs st);
                     analyserRef := analyserRef (refs st);
                     dataArrayRef := dataArrayRef (refs st);
                     dictionaryRef := dictionaryRef (refs st) |};
          devices := devices st; events := events st |}).
Proof.
  induction slices as [ | data slices IH]; intros st.
  - destruct st as [ip err [] d evs]. cbn. now rewrite app_nil_r.
  - cbn [record List.filter]. unfold mbind, M_bind, ondataavailable.
    destruct (0 <? blobSize data)%nat.
    + unfold modify. rewrite IH. cbn [isProcessing error refs devices events
        mediaRecorderRef chunksRef streamRef audioContextRef analyserRef
        dataArrayRef dictionaryRef].
      now rewrite <- app_assoc.
    + unfold mret, M_ret. now rewrite IH.
Qed.

Lemma buffered_bytes (slices : list Blob) :
  List.concat
    (List.map blobBytes
       (List.filter (fun data => (0 <? blobSize data)%nat) slices))
  = List.concat (List.map blobBytes slices).
Proof.
  induction slices as [ | data slices IH]; [reflexivity | ].
  cbn [List.filter]. destruct (0 <? blobSize data)%nat eqn:Hsize.
  - cbn [List.map List.concat]. now rewrite IH.
  - apply Nat.ltb_ge in Hsize. unfold blobSize in Hsize.
    cbn [List.map List.concat].
    destruct (blobBytes data); [exact IH | cbn [length] in Hsize; lia].
Qed.

Lemma bind_silent {A B} (m : M A) (f : A -> M B) (a : A) (st : State) :
  m st = (inr a, st) -> (m ≫= f) st = f a st.
Proof. intros Hm. unfold mbind, M_bind. now rewrite Hm. Qed.

Lemma await_bind {A B} (ev : Event) (outcome : Exn + A) (f : A -> M B)
  (st : State) :
  (await ev outcome ≫= f) st
  = let st' :=
      {| isProcessing := isProcessing st; error := error st;
         refs := refs st; devices := devices st;
         events := events st ++ [ev] |} in
    match outcome with
    | inl e => (inl e, st')
    | inr a => f a st'
    end.
Proof. now destruct outcome. Qed.

(** A clip of 100 bytes or more gets as far as the settings. *)
Lemma onstop_reaches_settings (env : Env) (mimeType : JsString) (st : State) :
  chunksRef (refs st) <> [] ->
  (100 <= blobSize (new_Blob (chunksRef (refs st)) mimeType))%nat ->
  exists rest,
    events (snd (onstop env mimeType st))
    = events st ++ [SetIsProcessing true; SetError None; GetSettings] ++ rest.
Proof.
  intros Hchunks Hsize.
  destruct (onstop_brackets (fun _ => True) env mimeType) with (st := st)
    as (new & Hnew & _).
  { apply emits_body; intros; exact I. }
  assert (Hfirst : forall st2,
    refs st2 = refs st ->
    exists rest,
      events (snd (try_catch (tryBlock env mimeType) catchBlock st2))
      = events st2 ++ GetSettings :: rest).
  { intros st2 Hrefs. unfold try_catch, tryBlock.
    rewrite (bind_silent getRefs _ (refs st2) st2) by reflexivity.
    rewrite Hrefs.
    rewrite (bind_silent _ _ tt st2).
    2:{ destruct (chunksRef (refs st)); [contradiction | reflexivity]. }
    cbv zeta.
    rewrite (bind_silent _ _ tt st2).
    2:{ apply Nat.ltb_ge in Hsize. now rewrite Hsize. }
    rewrite await_bind. cbv zeta.
    destruct (getSettings env) as [e | settings] eqn:Hsettings.
    - destruct (emits_catchBlock (fun _ => True) (fun _ _ => I) I I e)
        with (st := {| isProcessing := isProcessing st2; error := error st2;
                       refs := refs st2; devices := devices st2;
                       events := events st2 ++ [GetSettings] |})
        as (more & Hmore & _).
      rewrite Hmore. cbn [events]. exists more.
      now rewrite <- app_assoc.
    - destruct (emits_afterSettings (fun _ => True) env
                  (fun _ _ => I) I I
                  (fun _ _ _ _ => I) (fun _ _ _ _ _ _ => I)
                  (fun _ _ => I) (fun _ _ _ _ => I) (fun _ _ => I)
                  (new_Blob (chunksRef (refs st)) mimeType) settings
                  Hsettings)
        with (st := {| isProcessing := isProcessing st2; error := error st2;
                       refs := refs st2; devices := devices st2;
                       events := events st2 ++ [GetSettings] |})
        as (more & Hmore & _).
      match type of Hmore with
      | events (snd ?run) = _ => destruct run as [[e | []] st3]
      end; cbn [snd events] in Hmore.
      + destruct (emits_catchBlock (fun _ => True) (fun _ _ => I) I I e st3)
          as (more' & Hmore' & _).
        rewrite Hmore', Hmore. exists (more ++ more').
        now rewrite <- !app_assoc.
      + cbn [snd]. rewrite Hmore. exists more.
        now rewrite <- app_assoc. }
  unfold onstop, finallyBlock, setIsProcessing, setError, release, emit,
    modify, try_finally, mbind, M_bind in *.
  cbn [isProcessing error refs devices events] in *.
  match goal with |- context [try_catch ?b ?h ?st2] =>
    destruct (Hfirst st2 eq_refl) as (rest & Hrest);
    destruct (try_catch b h st2) as [r st3]
  end.
  cbn [snd events] in Hrest.
  destruct r as [e | []]; cbn [snd events isProcessing error refs devices];
    rewrite Hrest; eexists; rewrite <- !app_assoc; cbn [app]; reflexivity.
Qed.

(** X28. The two thresholds of the handler are thresholds on the
    bytes received since the recording started, however the recorder
    sliced them: slices without data are not buffered; a session that
    received nothing ends on the label of an empty clip, one that
    received fewer than 100 bytes on the label of a short clip, and
    one that received 100 bytes or more gets as far as reading the
    settings. *)
Theorem thresholds_on_bytes_received (env : Env) (mimeType : JsString)
  (st : State) (slices : list Blob) :
  chunksRef (refs st) = [] ->
  let received := blobSize (new_Blob slices mimeType) in
  let st1 := snd (record slices st) in
  new_Blob (chunksRef (refs st1)) mimeType = new_Blob slices mimeType
  /\ Forall (fun chunk => (0 < blobSize chunk)%nat) (chunksRef (refs st1))
  /\ (received = 0%nat ->
      error (snd (onstop env mimeType st1)) = Some (js "No audio data c"))
  /\ ((0 < received < 100)%nat ->
      error (snd (onstop env mimeType st1)) = Some (js "Audio too short"))
  /\ ((100 <= received)%nat ->
      exists rest,
        events (snd (onstop env mimeType st1))
        = events st
          ++ [SetIsProcessing true; SetError None; GetSettings] ++ rest).
Proof.
  intros Hempty received st1. subst received st1.
  rewrite record_state. cbn [snd]. rewrite Hempty. cbn [app].
  set (st1 := {| isProcessing := isProcessing st; error := error st;
                 refs := _; devices := devices st; events := events st |}).
  assert (Hblob :
    new_Blob (List.filter (fun data => (0 <? blobSize data)%nat) slices)
      mimeType = new_Blob slices mimeType)
    by (unfold new_Blob; now rewrite buffered_bytes).
  assert (Hnone :
    List.filter (fun data => (0 <? blobSize data)%nat) slices = [] ->
    blobSize (new_Blob slices mimeType) = 0%nat).
  { intros Hfilter. rewrite <- Hblob, Hfilter. reflexivity. }
  cbn [refs chunksRef]. split; [exact Hblob | ]. split.
  { apply Forall_forall. intros chunk Hchunk.
    apply list_elem_of_In, filter_In in Hchunk as [_ Hchunk].
    now apply Nat.ltb_lt. }
  split; [ | split].
  - intros Hzero.
    assert (Hfilter :
      List.filter (fun data => (0 <? blobSize data)%nat) slices = []).
    { destruct (List.filter _ slices) as [ | chunk chunks] eqn:Hfilter;
        [reflexivity | exfalso].
      assert (Hchunk : In chunk (List.filter
                                   (fun data => (0 <? blobSize data)%nat)
                                   slices))
        by (rewrite Hfilter; now left).
      apply filter_In in Hchunk as [_ Hchunk]. apply Nat.ltb_lt in Hchunk.
      rewrite <- Hblob in Hzero. unfold blobSize, new_Blob in *.
      cbn [blobBytes List.map List.concat] in Hzero.
      rewrite length_app in Hzero. lia. }
    now apply (onstop_no_audio env mimeType st1).
  - intros [Hsome Hshort].
    apply (onstop_too_short env mimeType st1); cbn [refs chunksRef st1].
    + intros Hfilter. apply Hnone in Hfilter. lia.
    + now rewrite Hblob.
  - intros Hlong.
    apply (onstop_reaches_settings env mimeType st1); cbn [refs chunksRef st1].
    + intros Hfilter. apply Hnone in Hfilter. lia.
    + now rewrite Hblob.
Qed.

Lemma thresholds_on_bytes_received_witness :
  error (snd (onstop demoEnv (js "audio/webm")
                (snd (record [demoChunk 0; demoChunk 40; demoChunk 0;
                              demoChunk 59]
                        (demoState [] [])))))
  = Some (js "Audio too short").
Proof.
  destruct (thresholds_on_bytes_received demoEnv (js "audio/webm")
              (demoState [] [])
              [demoChunk 0; demoChunk 40; demoChunk 0; demoChunk 59] eq_refl)
    as (_ & _ & _ & Hshort & _).
  apply Hshort. vm_compute. lia.
Defined.

End RecorderFacts.

(* ================================================================= *)
(** * The stop handler of the hook, when the clip decodes *)

Section HookSuccess.
Import Hook.

(** X29. When the clip decodes, the hook stores it as a WAV file:
    [audioData] is the encoding of the decoded samples, a blob of
    type audio/wav with 44 + 2N bytes for N samples; the tracks of
    the stream are stopped, the stream ref is cleared, the audio
    context of the conversion is closed, and the buffered chunks stay
    as they are. *)
Theorem hook_onstop_stores_wav
  (decodeAudioData : list Z -> Exn + Wav.AudioBuffer) (mimeType : JsString)
  (st : State) (audioBuffer : Wav.AudioBuffer) :
  decodeAudioData (List.concat (List.map blobBytes (chunksRef st)))
  = inr audioBuffer ->
  exists wav,
    Wav.encode audioBuffer = Some wav
    /\ blobType wav = js "audio/wav"
    /\ blobSize wav = (44 + 2 * length audioBuffer)%nat
    /\ fst (onstop decodeAudioData mimeType st) = inr tt
    /\ audioData (snd (onstop decodeAudioData mimeType st)) = Some wav
    /\ streamRef (snd (onstop decodeAudioData mimeType st)) = None
    /\ (forall stream, streamRef st = Some stream ->
          stream ∉ liveStreams (snd (onstop decodeAudioData mimeType st)))
    /\ contexts (snd (onstop decodeAudioData mimeType st))
       = contexts st ++ [Wav.ContextCreated; Wav.ContextClosed]
    /\ chunksRef (snd (onstop decodeAudioData mimeType st)) = chunksRef st.
Proof.
  intros Hdecode. unfold onstop, Wav.convertToWav.
  cbn [blobBytes new_Blob]. rewrite Hdecode.
  pose proof (encode_closed_form audioBuffer) as Hform. cbv zeta in Hform.
  rewrite Hform. eexists. split; [reflexivity | ].
  cbn [fst snd blobType blobSize blobBytes audioData streamRef liveStreams
       contexts chunksRef].
  split; [reflexivity | ]. split.
  { unfold blobSize. cbn [blobBytes].
    rewrite !length_app, !bytesLE_4, !bytesLE_2, samples_length.
    cbn [length js List.map list_ascii_of_string]. lia. }
  split; [reflexivity | ]. split; [reflexivity | ].
  split; [reflexivity | ]. split; [ | split; reflexivity].
  intros stream ->. intros Hin.
  apply elem_of_difference in Hin as [_ Hin].
  apply Hin, elem_of_singleton. reflexivity.
Qed.

Lemma hook_onstop_stores_wav_witness :
  exists wav,
    audioData (snd (onstop demoDecoder (js "audio/webm")
                      (demoState [{| blobBytes := [26; 69];
                                     blobType := js "audio/webm" |}])))
    = Some wav
    /\ blobSize wav = 46%nat.
Proof.
  destruct (hook_onstop_stores_wav demoDecoder (js "audio/webm")
              (demoState [{| blobBytes := [26; 69];
                             blobType := js "audio/webm" |}])
              [Wav.Finite 0] eq_refl)
    as (wav & _ & _ & Hsize & _ & Hdata & _).
  exists wav. split; [exact Hdata | exact Hsize].
Defined.

End HookSuccess.

(* ================================================================= *)
(** * The key of the month *)

Section MonthKeyFacts.
Import WordStats.

Lemma string_of_uint_no_dash (d : Decimal.uint) :
  ~ In "-"%char (list_ascii_of_string (NilEmpty.string_of_uint d)).
Proof.
  induction d; cbn [NilEmpty.string_of_uint list_ascii_of_string In];
    try tauto; intros [Hdash | Hdash]; try discriminate; tauto.
Qed.

Lemma showZ_no_dash (z : Z) :
  0 <= z -> ~ In "-"%char (list_ascii_of_string (showZ z)).
Proof.
  intros Hz. unfold showZ. destruct z as [ | p | p]; [ | | lia].
  - cbn. intros [Hdash | []]. discriminate.
  - cbn [Z.to_int NilZero.string_of_int]. unfold NilZero.string_of_uint.
    pose proof (DecimalPos.Unsigned.to_uint_nonnil p) as Hnonnil.
    pose proof (string_of_uint_no_dash (Pos.to_uint p)) as Hdigits.
    destruct (Pos.to_uint p); [contradiction | exact Hdigits ..].
Qed.

Lemma showZ_inj (a b : Z) : showZ a = showZ b -> a = b.
Proof.
  unfold showZ. intros Heq. apply DecimalZ.to_int_inj.
  assert (Hnormal : forall z,
            Z.to_int z <> Decimal.Pos Decimal.Nil
            /\ Z.to_int z <> Decimal.Neg Decimal.Nil).
  { intros [ | p | p]; cbn [Z.to_int]; split; try discriminate;
      intros [= Hnil]; exact (DecimalPos.Unsigned.to_uint_nonnil p Hnil). }
  apply (f_equal NilZero.int_of_string) in Heq.
  rewrite !NilZero.isi in Heq by apply Hnormal.
  now injection Heq.
Qed.

Lemma split_at_dash (s1 : string) :
  forall s2 t1 t2,
    ~ In "-"%char (list_ascii_of_string s1) ->
    ~ In "-"%char (list_ascii_of_string s2) ->
    (s1 +:+ "-" +:+ t1 = s2 +:+ "-" +:+ t2)%string ->
    s1 = s2 /\ t1 = t2.
Proof.
  induction s1 as [ | c s1 IH]; intros [ | c' s2] t1 t2 H1 H2 Heq.
  - change (String "-"%char t1 = String "-"%char t2) in Heq.
    injection Heq as ->. now split.
  - change (String "-"%char t1 = String c' (s2 +:+ "-" +:+ t2))%string
      in Heq.
    injection Heq as <- _. exfalso. apply H2. now left.
  - change (String c (s1 +:+ "-" +:+ t1) = String "-"%char t2)%string
      in Heq.
    injection Heq as -> _. exfalso. apply H1. now left.
  - change (String c (s1 +:+ "-" +:+ t1)
            = String c' (s2 +:+ "-" +:+ t2))%string in Heq.
    injection Heq as -> Heq.
    destruct (IH s2 t1 t2) as [-> ->]; [ | | exact Heq | now split].
    + intros Hin. apply H1. now right.
    + intros Hin. apply H2. now right.
Qed.

Lemma currentMonth_inj (a b : Date) :
  0 <= getFullYear a -> 0 <= getFullYear b ->
  currentMonth a = currentMonth b ->
  getFullYear a = getFullYear b /\ getMonth a = getMonth b.
Proof.
  intros Ha Hb Heq. unfold currentMonth in Heq.
  apply split_at_dash in Heq as [Hyear Hmonth];
    [ | now apply showZ_no_dash ..].
  apply showZ_inj in Hyear, Hmonth. split; [exact Hyear | lia].
Qed.

Lemma stored_month_after_add (now : Date) (wordCount : Z)
  (store : gmap string StoreValue) :
  snd (add_words now wordCount store) !! "wordCountMonth"%string
  = Some (VString (currentMonth now)).
Proof.
  unfold add_words. cbn [snd].
  rewrite !lookup_insert_ne by discriminate.
  unfold resetIfNewMonth. destruct (monthChanged store now) eqn:Hchanged.
  - rewrite lookup_insert_ne by discriminate. now rewrite lookup_insert_eq.
  - unfold monthChanged in Hchanged.
    destruct (store !! "wordCountMonth"%string) as [[stored | n] | ];
      try discriminate.
    apply negb_false_iff, String.eqb_eq in Hchanged. now subst.
Qed.

(** X30. The key of the month tells months apart: two dates of the
    common era have the same key exactly when their year and their
    month are the same, although the month is written without a
    leading zero. So after words were added at one date, the counter
    of the month is reset at another date exactly when the year or
    the month differs; the total is not touched by the reset. *)
Theorem monthly_reset_iff_month_differs (earlier later : Date)
  (wordCount : Z) (store : gmap string StoreValue) :
  0 <= getFullYear earlier -> 0 <= getFullYear later ->
  let store1 := snd (add_words earlier wordCount store) in
  monthChanged store1 later
  = negb ((getFullYear earlier =? getFullYear later)
          && (getMonth earlier =? getMonth later))
  /\ wordsThisMonth (fst (get_word_stats later store1))
     = (if (getFullYear earlier =? getFullYear later)
           && (getMonth earlier =? getMonth later)
        then getNumber store1 "wordsThisMonth" else 0)
  /\ wordsTotal (fst (get_word_stats later store1))
     = getNumber store "wordsTotal" + wordCount.
Proof.
  intros Hearlier Hlater store1.
  assert (Hchanged :
    monthChanged store1 later
    = negb ((getFullYear earlier =? getFullYear later)
            && (getMonth earlier =? getMonth later))).
  { unfold monthChanged. subst store1. rewrite stored_month_after_add.
    f_equal.
    destruct ((getFullYear earlier =? getFullYear later)
              && (getMonth earlier =? getMonth later)) eqn:Hsame.
    - apply andb_true_iff in Hsame as [Hyear Hmonth].
      apply Z.eqb_eq in Hyear, Hmonth. unfold currentMonth.
      rewrite Hyear, Hmonth. apply String.eqb_refl.
    - apply String.eqb_neq. intros Hkey.
      apply currentMonth_inj in Hkey as [Hyear Hmonth];
        [ | assumption ..].
      rewrite Hyear, Hmonth, !Z.eqb_refl in Hsame. discriminate. }
  split; [exact Hchanged | ].
  unfold get_word_stats. cbn [fst wordsThisMonth wordsTotal].
  rewrite getNumber_reset_monthly, getNumber_reset_total, Hchanged.
  split.
  - now destruct (_ && _).
  - subst store1. apply add_words_total.
Qed.

Lemma monthly_reset_iff_month_differs_witness :
  monthChanged
    (snd (add_words {| getFullYear := 2026; getMonth := 0 |} 5 ∅))
    {| getFullYear := 2026; getMonth := 10 |}
  = true.
Proof.
  destruct (monthly_reset_iff_month_differs
              {| getFullYear := 2026; getMonth := 0 |}
              {| getFullYear := 2026; getMonth := 10 |} 5 ∅)
    as (Hchanged & _); [cbn; lia | cbn; lia | ].
  rewrite Hchanged. reflexivity.
Defined.

End MonthKeyFacts.
